(** * Habitica party podium: a shallow embedding of [src/main.py]

    The development follows the pipeline of the script:
    event filter, damage and skill aggregators, report renderer and the
    section merge ([replace_podium_section]).

    Modelling conventions.
    - A Python [str] is a sequence of Unicode code points: [list N].
    - A Python [float] is an IEEE binary64 value: Rocq's primitive [float].
    - A Python [dict] keeps insertion order: an association list whose keys
      are unique, new keys being added at the end.
    - A call that can raise returns a [result].
    - What the interpreter and the platform decide (the text parsers of
      [float] and [int], the local time of a timestamp, the calendar of
      [strftime]) is a parameter of the model. *)

From Stdlib Require Import ZArith NArith List Bool Ascii String Lia.
From Stdlib Require Import Permutation Floats DecimalString.
Import ListNotations.

Set Warnings "-inexact-float".

(** ** Exceptions *)

Inductive exn : Type :=
| KeyError | ValueError | TypeError | OverflowError | ReError
| IndexError | OSError.

Inductive result (A : Type) : Type :=
| Ok (a : A)
| Raise (e : exn).

Arguments Ok {A} a.
Arguments Raise {A} e.

Definition bind {A B : Type} (r : result A) (k : A -> result B) : result B :=
  match r with
  | Ok a => k a
  | Raise e => Raise e
  end.

Notation "x <- r ;; k" := (bind r (fun x => k))
  (at level 61, r at next level, right associativity).

(** ** Strings *)

Definition char := N.
Definition str := list char.

Definition ord (a : ascii) : char := N_of_ascii a.

(** An ASCII literal as a Python string. *)
Definition lit (s : string) : str := map ord (list_ascii_of_string s).

Definition NL : char := 10%N.
Definition BACKSLASH : char := 92%N.

Fixpoint str_eqb (a b : str) : bool :=
  match a, b with
  | [], [] => true
  | x :: a', y :: b' => N.eqb x y && str_eqb a' b'
  | _, _ => false
  end.

(** [str.startswith]: [p] is a prefix of [s]. *)
Fixpoint starts_with (p s : str) : bool :=
  match p, s with
  | [], _ => true
  | x :: p', y :: s' => N.eqb x y && starts_with p' s'
  | _ :: _, [] => false
  end.

(** [p in s] for strings: [p] occurs somewhere in [s]. *)
Fixpoint contains (p s : str) : bool :=
  starts_with p s ||
  match s with
  | [] => false
  | _ :: s' => contains p s'
  end.

(** [str.isspace] on one code point (CPython's [_PyUnicode_IsWhitespace]). *)
Definition isspace (c : char) : bool :=
  ((9 <=? c) && (c <=? 13) || (28 <=? c) && (c <=? 32)
   || (c =? 133) || (c =? 160) || (c =? 5760)
   || (8192 <=? c) && (c <=? 8202)
   || (c =? 8232) || (c =? 8233) || (c =? 8239) || (c =? 8287)
   || (c =? 12288))%N.

Fixpoint lstrip (s : str) : str :=
  match s with
  | [] => []
  | c :: s' => if isspace c then lstrip s' else s
  end.

Definition rstrip (s : str) : str := rev (lstrip (rev s)).

Definition strip (s : str) : str := lstrip (rstrip s).

(** ** The regular expression of the section merge

    [pattern = r"(## 🏆 Podium[\s\S]*?)(?=\n## |\Z)"]: the header, then as
    few characters as possible, up to a position that is followed by a
    newline and ["## "] or that is the end of the text. *)

Definition TROPHY : char := 127942%N.

Definition podium_header : str := lit "## " ++ [TROPHY] ++ lit " Podium".

(** The text of the first alternative of the lookahead. *)
Definition next_header : str := NL :: lit "## ".

(** [[\s\S]*?(?=\n## |\Z)] from the start of [s]: the lazily matched text
    and what is left after it. *)
Fixpoint lazy_span (s : str) : str * str :=
  match s with
  | [] => ([], [])
  | c :: s' =>
      if starts_with next_header s then ([], s)
      else let (u, r) := lazy_span s' in (c :: u, r)
  end.

(** A match of the pattern that begins at the start of [s]: the matched
    text (group 0, which is also group 1) and the rest. *)
Definition match_here (s : str) : option (str * str) :=
  if starts_with podium_header s then
    let (u, r) := lazy_span (skipn (List.length podium_header) s) in
    Some (podium_header ++ u, r)
  else None.

(** [re.search(pattern, s)] as a truth value. *)
Fixpoint re_search (s : str) : bool :=
  match match_here s with
  | Some _ => true
  | None => match s with
            | [] => false
            | _ :: s' => re_search s'
            end
  end.

(** ** Replacement templates

    [re.sub] reads its replacement as a template (CPython's
    [re._parser.parse_template]): a backslash starts an escape, a group
    reference or an octal code.  The pattern has one group and no named
    group, so only groups 0 and 1 exist, and both hold the whole match.
    A failure of the template parser is an uncaught exception for the
    caller: [re.error], rendered as [ReError], or [IndexError] for a
    group name that the pattern does not have.  A text without a
    backslash is a template of literals only. *)

Inductive titem : Type :=
| TLit (c : char)
| TGroup (i : N).

Definition is_digit (c : char) : bool := ((48 <=? c) && (c <=? 57))%N.
Definition is_octdigit (c : char) : bool := ((48 <=? c) && (c <=? 55))%N.
Definition is_asciiletter (c : char) : bool :=
  ((65 <=? c) && (c <=? 90) || (97 <=? c) && (c <=? 122))%N.
Definition digit_val (c : char) : N := (c - 48)%N.

Definition number_in_base (b : N) (ds : str) : N :=
  fold_left (fun acc d => (acc * b + digit_val d)%N) ds 0%N.

(** [ESCAPES] of the template parser. *)
Definition escape_char (e : char) : option char :=
  if (e =? 97)%N then Some 7%N           (* \a *)
  else if (e =? 98)%N then Some 8%N      (* \b *)
  else if (e =? 102)%N then Some 12%N    (* \f *)
  else if (e =? 110)%N then Some 10%N    (* \n *)
  else if (e =? 114)%N then Some 13%N    (* \r *)
  else if (e =? 116)%N then Some 9%N     (* \t *)
  else if (e =? 118)%N then Some 11%N    (* \v *)
  else if (e =? 92)%N then Some 92%N     (* \\ *)
  else None.

(** [Tokenizer.getuntil(">")]: the name before the next [>] and the rest. *)
Fixpoint getuntil_gt (s : str) : option (str * str) :=
  match s with
  | [] => None
  | c :: s' =>
      if (c =? 62)%N then Some ([], s')
      else match getuntil_gt s' with
           | Some (n, r) => Some (c :: n, r)
           | None => None
           end
  end.

(** [str.isidentifier] on a name of ASCII characters. *)
Definition is_identifier (name : str) : bool :=
  match name with
  | [] => false
  | c :: r =>
      (is_asciiletter c || (c =? 95)%N)
      && forallb (fun x => is_asciiletter x || is_digit x || (x =? 95)%N) r
  end.

(** The group of [\g<name>].  A name of ASCII digits is the number of
    the group; a name that is an identifier is looked up among the named
    groups, of which there are none.  Any other name is refused here;
    Python up to 3.11 still reads some of them through [int] (a sign,
    surrounding white space, digits that are not ASCII), and a name with
    letters that are not ASCII is an identifier too. *)
Definition group_of_name (name : str) : result N :=
  if negb (Nat.eqb (List.length name) 0) && forallb is_digit name
  then Ok (number_in_base 10 name)
  else if is_identifier name then Raise IndexError
  else Raise ReError.

Definition add_group (i : N) (k : result (list titem)) : result (list titem) :=
  if (i <=? 1)%N then t <- k ;; Ok (TGroup i :: t) else Raise ReError.

Definition add_lit (c : char) (k : result (list titem)) : result (list titem) :=
  t <- k ;; Ok (TLit c :: t).

Fixpoint parse_template_fuel (fuel : nat) (s : str) : result (list titem) :=
  match fuel with
  | O => Ok []
  | S f =>
    match s with
    | [] => Ok []
    | c :: r =>
      if negb (c =? BACKSLASH)%N then add_lit c (parse_template_fuel f r)
      else
        match r with
        | [] => Raise ReError                       (* bad escape at the end *)
        | e :: r1 =>
          if (e =? 103)%N then                      (* \g<name> *)
            match r1 with
            | lt :: r2 =>
                if (lt =? 60)%N then
                  match getuntil_gt r2 with
                  | Some (name, r3) =>
                      match group_of_name name with
                      | Ok i => add_group i (parse_template_fuel f r3)
                      | Raise e => Raise e
                      end
                  | None => Raise ReError
                  end
                else Raise ReError
            | [] => Raise ReError
            end
          else if (e =? 48)%N then                  (* \0, \0o, \0oo *)
            match r1 with
            | d1 :: r2 =>
                if is_octdigit d1 then
                  match r2 with
                  | d2 :: r3 =>
                      if is_octdigit d2
                      then add_lit (N.land (number_in_base 8 [d1; d2]) 255)
                                   (parse_template_fuel f r3)
                      else add_lit (N.land (number_in_base 8 [d1]) 255)
                                   (parse_template_fuel f r2)
                  | [] => add_lit (N.land (number_in_base 8 [d1]) 255) (Ok [])
                  end
                else add_lit 0%N (parse_template_fuel f r1)
            | [] => add_lit 0%N (Ok [])
            end
          else if is_digit e then                   (* \1 .. \99, \ooo *)
            match r1 with
            | d1 :: r2 =>
                if is_digit d1 then
                  match r2 with
                  | d2 :: r3 =>
                      if is_octdigit e && is_octdigit d1 && is_octdigit d2 then
                        let c8 := number_in_base 8 [e; d1; d2] in
                        if (255 <? c8)%N then Raise ReError
                        else add_lit c8 (parse_template_fuel f r3)
                      else add_group (number_in_base 10 [e; d1])
                                     (parse_template_fuel f r2)
                  | [] => add_group (number_in_base 10 [e; d1]) (Ok [])
                  end
                else add_group (digit_val e) (parse_template_fuel f r1)
            | [] => add_group (digit_val e) (Ok [])
            end
          else
            match escape_char e with
            | Some x => add_lit x (parse_template_fuel f r1)
            | None =>
                if is_asciiletter e then Raise ReError   (* bad escape *)
                else add_lit BACKSLASH (add_lit e (parse_template_fuel f r1))
            end
        end
    end
  end.

Definition parse_template (s : str) : result (list titem) :=
  parse_template_fuel (S (List.length s)) s.

(** [Match.expand]: every group reference is the matched text [m]. *)
Definition expand (t : list titem) (m : str) : str :=
  flat_map (fun i => match i with TLit c => [c] | TGroup _ => m end) t.

(** [re.sub] with a parsed template: the matches are taken from left to
    right and do not overlap; the text between them is kept. *)
Fixpoint sub_fuel (fuel : nat) (t : list titem) (s : str) : str :=
  match fuel with
  | O => s
  | S f =>
      match match_here s with
      | Some (m, r) => expand t m ++ sub_fuel f t r
      | None => match s with
                | [] => []
                | c :: s' => c :: sub_fuel f t s'
                end
      end
  end.

Definition re_sub (repl s : str) : result str :=
  t <- parse_template repl ;; Ok (sub_fuel (S (List.length s)) t s).

(** ** [replace_podium_section] *)

Definition new_podium_section (podium_md : str) : str :=
  podium_header ++ [NL; NL] ++ strip podium_md ++ [NL].

Definition replace_podium_section (description podium_md : str) : result str :=
  let description := strip description in
  if re_search description
  then re_sub (new_podium_section podium_md) description
  else Ok (rstrip description ++ [NL; NL]
           ++ new_podium_section podium_md ++ [NL]).

(** ** Decoded JSON values and the numeric coercions *)

Local Unset Elimination Schemes.
Inductive pyval : Type :=
| VNone
| VBool (b : bool)
| VInt (z : Z)
| VFloat (f : float)
| VStr (s : str)
| VList (l : list pyval)
| VDict (d : list (str * pyval)).
Local Set Elimination Schemes.

(** [float(n)] for an integer: the nearest binary64 value, ties to even. *)
Definition float_of_Z (z : Z) : float :=
  SF2Prim (binary_normalize prec emax z 0 false).

(** [int(x)] for a finite float: truncation towards zero. *)
Definition trunc_float (f : float) : result Z :=
  match Prim2SF f with
  | S754_zero _ => Ok 0%Z
  | S754_finite s m e =>
      let a := if (0 <=? e)%Z then Z.shiftl (Zpos m) e
               else Z.shiftr (Zpos m) (- e) in
      Ok (if s then (- a)%Z else a)
  | S754_infinity _ => Raise OverflowError
  | S754_nan => Raise ValueError
  end.

Section Coercions.

(** The text parsers behind [float("...")] and [int("...")] belong to
    the interpreter; [None] stands for their [ValueError]. *)
Variable float_of_str : str -> option float.
Variable int_of_str : str -> option Z.

(** The builtin [float(v)]. *)
Definition py_float (v : pyval) : result float :=
  match v with
  | VNone => Raise TypeError
  | VBool b => Ok (if b then 1%float else 0%float)
  | VInt z =>
      let f := float_of_Z z in
      if is_infinity f then Raise OverflowError else Ok f
  | VFloat f => Ok f
  | VStr s => match float_of_str s with
              | Some f => Ok f
              | None => Raise ValueError
              end
  | VList _ | VDict _ => Raise TypeError
  end.

(** The builtin [int(v)]. *)
Definition py_int (v : pyval) : result Z :=
  match v with
  | VNone => Raise TypeError
  | VBool b => Ok (if b then 1%Z else 0%Z)
  | VInt z => Ok z
  | VFloat f => trunc_float f
  | VStr s => match int_of_str s with
              | Some z => Ok z
              | None => Raise ValueError
              end
  | VList _ | VDict _ => Raise TypeError
  end.

End Coercions.

(** ** Chat messages

    A message is a decoded JSON object.  Of its keys the script reads
    ["info"] (an object) and ["timestamp"] (epoch milliseconds); of the keys
    of ["info"] it reads ["type"] and ["user"] (strings) and the numeric
    fields ["userDamage"], ["bossDamage"] and ["times"], which may hold any
    value.  [None] is an absent key. *)

Record info : Type := mkInfo {
  i_type : option str;
  i_user : option str;
  i_userDamage : option pyval;
  i_bossDamage : option pyval;
  i_times : option pyval
}.

Record msg : Type := mkMsg {
  m_info : option info;
  m_timestamp : option Z
}.

(** [msg.get("info", {})] *)
Definition empty_info : info := mkInfo None None None None None.

Definition get_info (m : msg) : info :=
  match m_info m with
  | Some i => i
  | None => empty_info
  end.

(** [if not user]: an absent user and the empty string are falsy. *)
Definition truthy_user (u : option str) : option str :=
  match u with
  | Some (c :: s) => Some (c :: s)
  | _ => None
  end.

(** [x is not None] for the value of [info.get(key)]. *)
Definition not_none (v : option pyval) : option pyval :=
  match v with
  | Some VNone | None => None
  | Some x => Some x
  end.

Definition opt_str_eqb (a : option str) (b : str) : bool :=
  match a with
  | Some s => str_eqb s b
  | None => false
  end.

(** ** Dictionaries with string keys, in insertion order *)

Definition dict (V : Type) : Type := list (str * V).

Fixpoint dict_get {V : Type} (d : dict V) (k : str) : option V :=
  match d with
  | [] => None
  | (k', v) :: d' => if str_eqb k' k then Some v else dict_get d' k
  end.

Definition dict_mem {V : Type} (d : dict V) (k : str) : bool :=
  match dict_get d k with
  | Some _ => true
  | None => false
  end.

(** [d[k] = v]: an existing key keeps its place, a new one goes last. *)
Fixpoint dict_set {V : Type} (d : dict V) (k : str) (v : V) : dict V :=
  match d with
  | [] => [(k, v)]
  | (k', v') :: d' =>
      if str_eqb k' k then (k', v) :: d' else (k', v') :: dict_set d' k v
  end.

Definition keys {V : Type} (d : dict V) : list str := map fst d.

(** [d[k] = f(d[k])] for a key that is in [d]. *)
Fixpoint dict_update {V : Type} (d : dict V) (k : str) (f : V -> V) : dict V :=
  match d with
  | [] => []
  | (k', v) :: d' =>
      if str_eqb k' k then (k', f v) :: d' else (k', v) :: dict_update d' k f
  end.

(** [if k not in d: d[k] = v] *)
Definition dict_setdefault {V : Type} (d : dict V) (k : str) (v : V) : dict V :=
  if dict_mem d k then d else dict_set d k v.

(** ** The aggregators *)

Record dstat : Type := mkStat {
  userDamage : float;
  bossDamage : float
}.

Definition boss_damage : str := lit "boss_damage".
Definition spell_cast_party : str := lit "spell_cast_party".

Definition add_userDamage (x : float) (st : dstat) : dstat :=
  mkStat (userDamage st + x) (bossDamage st).

Definition add_bossDamage (x : float) (st : dstat) : dstat :=
  mkStat (userDamage st) (bossDamage st + x).

Section Aggregators.

Variable float_of_str : str -> option float.
Variable int_of_str : str -> option Z.

(** One guarded statement of the [try] block,
    [if v is not None: stats[user][field] += float(v)]: the dictionary
    after it and the exception it raised, if any. *)
Definition add_field (add : float -> dstat -> dstat) (user : str)
    (v : option pyval) (stats : dict dstat) : dict dstat * option exn :=
  match not_none v with
  | None => (stats, None)
  | Some x =>
      match py_float float_of_str x with
      | Ok f => (dict_update stats user (add f), None)
      | Raise e => (stats, Some e)
      end
  end.

(** The [try] block: its second statement runs only if the first one
    did not raise. *)
Definition try_block (user : str) (user_damage boss_damage : option pyval)
    (stats : dict dstat) : dict dstat * option exn :=
  match add_field add_userDamage user user_damage stats with
  | (stats1, Some e) => (stats1, Some e)
  | (stats1, None) => add_field add_bossDamage user boss_damage stats1
  end.

(** The body of the loop of [aggregate_user_damage].  The handler
    catches [ValueError] and [TypeError] only. *)
Definition damage_step (stats : dict dstat) (m : msg) : result (dict dstat) :=
  let info := get_info m in
  match truthy_user (i_user info) with
  | None => Ok stats
  | Some user =>
      let stats0 := dict_setdefault stats user (mkStat 0 0) in
      match try_block user (i_userDamage info) (i_bossDamage info) stats0 with
      | (stats1, None) => Ok stats1
      | (stats1, Some ValueError) | (stats1, Some TypeError) => Ok stats1
      | (_, Some e) => Raise e
      end
  end.

Fixpoint damage_loop (stats : dict dstat) (messages : list msg)
    : result (dict dstat) :=
  match messages with
  | [] => Ok stats
  | m :: ms => stats' <- damage_step stats m ;; damage_loop stats' ms
  end.

Definition aggregate_user_damage (messages : list msg) : result (dict dstat) :=
  damage_loop [] messages.

(** [info.get("times", 1)] *)
Definition get_times (i : info) : pyval :=
  match i_times i with
  | Some v => v
  | None => VInt 1
  end.

(** The body of the loop of [aggregate_team_skills]. *)
Definition skill_step (skills : dict Z) (m : msg) : result (dict Z) :=
  let info := get_info m in
  if negb (opt_str_eqb (i_type info) spell_cast_party) then Ok skills
  else
    let times := get_times info in
    match truthy_user (i_user info) with
    | None => Ok skills
    | Some user =>
        let skills0 := dict_setdefault skills user 0%Z in
        n <- py_int int_of_str times ;;
        Ok (dict_update skills0 user (fun c => (c + n)%Z))
    end.

Fixpoint skill_loop (skills : dict Z) (messages : list msg) : result (dict Z) :=
  match messages with
  | [] => Ok skills
  | m :: ms => skills' <- skill_step skills m ;; skill_loop skills' ms
  end.

Definition aggregate_team_skills (messages : list msg) : result (dict Z) :=
  skill_loop [] messages.

End Aggregators.

(** ** The event filter

    A naive [datetime] is a count of microseconds of local wall-clock time
    since 1970-01-01T00:00:00.  Naive values are compared field by field,
    which is the order of these counts. *)

Definition datetime := Z.

Definition DT_MIN : datetime := (-62135596800000000)%Z.   (* 0001-01-01 *)
Definition DT_MAX : datetime := 253402300799999999%Z.     (* 9999-12-31 *)

Definition in_datetime_range (x : Z) : bool :=
  ((DT_MIN <=? x) && (x <=? DT_MAX))%Z.

Definition MAX_DELTA_DAYS : Z := 999999999%Z.
Definition US_PER_DAY : Z := 86400000000%Z.

(** [now - timedelta(days=days)] *)
Definition minus_days (now : datetime) (days : Z) : result datetime :=
  if (Z.abs days <=? MAX_DELTA_DAYS)%Z then
    let d := (now - days * US_PER_DAY)%Z in
    if in_datetime_range d then Ok d else Raise OverflowError
  else Raise OverflowError.

Section Filter.

(** [datetime.fromtimestamp(ts / 1000)] for an integer [ts].  The float
    quotient, its rounding to microseconds, the rules of the local zone
    with its changes of offset, and the exception of each step
    ([OverflowError], [OSError] or [ValueError]) belong to the interpreter
    and to the platform: the filter is modelled for every such function. *)
Variable fromtimestamp_ms : Z -> result datetime.

(** The condition of the comprehension; [and] evaluates its right
    operand, and with it [msg["timestamp"]], only when the left one
    holds. *)
Definition selected (kind : str) (since : datetime) (m : msg) : result bool :=
  if opt_str_eqb (i_type (get_info m)) kind then
    match m_timestamp m with
    | None => Raise KeyError
    | Some ts => d <- fromtimestamp_ms ts ;; Ok (since <=? d)%Z
    end
  else Ok false.

(** [[msg for msg in chat if ...]] *)
Fixpoint filter_since (kind : str) (since : datetime) (chat : list msg)
    : result (list msg) :=
  match chat with
  | [] => Ok []
  | m :: ms =>
      b <- selected kind since m ;;
      r <- filter_since kind since ms ;;
      Ok (if b then m :: r else r)
  end.

Definition filter_recent_boss_messages (now : datetime) (chat : list msg)
    (days : Z) : result (list msg) :=
  since <- minus_days now days ;;
  filter_since boss_damage since chat.

(** The second filter, written out in [main] for the skill messages. *)
Definition recent_skill_msgs (seven_days_ago : datetime) (chat : list msg)
    : result (list msg) :=
  filter_since spell_cast_party seven_days_ago chat.

End Filter.

(** ** The report renderer *)

Section Sorted.

Context {A K : Type}.
Variables (key : A -> K) (lt : K -> K -> bool).

(** [count_run], ascending case: the elements after [prev] that continue
    the run, up to the first one that is smaller than its predecessor. *)
Fixpoint run_asc (prev : A) (l : list A) : list A * list A :=
  match l with
  | [] => ([], [])
  | x :: l' =>
      if lt (key x) (key prev) then ([], l)
      else let (r, rest) := run_asc x l' in (x :: r, rest)
  end.

(** [count_run], descending case: the elements that are each smaller
    than their predecessor. *)
Fixpoint run_desc (prev : A) (l : list A) : list A * list A :=
  match l with
  | [] => ([], [])
  | x :: l' =>
      if lt (key x) (key prev)
      then let (r, rest) := run_desc x l' in (x :: r, rest)
      else ([], l)
  end.

(** The run at the start of the list, reversed in place when it is
    descending, and what follows it. *)
Definition first_run (l : list A) : list A * list A :=
  match l with
  | [] => ([], [])
  | [x] => ([x], [])
  | x :: y :: l' =>
      if lt (key y) (key x)
      then let (r, rest) := run_desc y l' in (rev (x :: y :: r), rest)
      else let (r, rest) := run_asc y l' in (x :: y :: r, rest)
  end.

(** One step of [binarysort]: the place of [pivot] in the sorted prefix
    [p] is found by bisection, the middle element being compared with
    [pivot < middle]. *)
Fixpoint bisect_insert (fuel : nat) (pivot : A) (p : list A) : list A :=
  match fuel with
  | O => pivot :: p
  | S f =>
      match p with
      | [] => [pivot]
      | _ :: _ =>
          let m := Nat.div2 (List.length p) in
          match skipn m p with
          | x :: b =>
              if lt (key pivot) (key x)
              then bisect_insert f pivot (firstn m p) ++ x :: b
              else firstn m p ++ x :: bisect_insert f pivot b
          | [] => p ++ [pivot]
          end
      end
  end.

Definition binary_insert (pivot : A) (p : list A) : list A :=
  bisect_insert (S (List.length p)) pivot p.

(** [binarysort]: the elements after the run are inserted one by one. *)
Definition binarysort (run rest : list A) : list A :=
  fold_left (fun acc x => binary_insert x acc) rest run.

(** [list.sort] of CPython 3.11 on a list of fewer than 64 elements,
    which is a single run: [count_run], then [binarysort].  Longer lists
    are cut in runs of this kind that are then merged; the result is the
    same list whenever the comparison orders the keys totally, as it
    does on integers and on floats other than NaN. *)
Definition list_sort (l : list A) : list A :=
  let (run, rest) := first_run l in binarysort run rest.

(** [sorted(l, key=key, reverse=True)]: the list is reversed, sorted and
    reversed again.  Elements are compared with [<] on their keys
    only. *)
Definition sorted_reverse (l : list A) : list A := rev (list_sort (rev l)).


End Sorted.

(** [l[:n]] *)
Definition slice_to {A : Type} (n : Z) (l : list A) : list A :=
  if (0 <=? n)%Z then firstn (Z.to_nat n) l
  else firstn (List.length l - Z.to_nat (- n)) l.

(** [enumerate(l, i)] *)
Fixpoint enumerate {A : Type} (i : Z) (l : list A) : list (Z * A) :=
  match l with
  | [] => []
  | x :: l' => (i, x) :: enumerate (i + 1) l'
  end.

(** [str(n)] for an integer. *)
Definition str_of_Z (n : Z) : str := lit (NilZero.string_of_int (Z.to_int n)).

(** [format(f, ".1f")]: one decimal, the exact value rounded half to even. *)
Definition format_1f (f : float) : str :=
  match Prim2SF f with
  | S754_nan => lit "nan"
  | S754_infinity s => if s then lit "-inf" else lit "inf"
  | S754_zero s => if s then lit "-0.0" else lit "0.0"
  | S754_finite s m e =>
      let n :=
        if (0 <=? e)%Z then (Zpos m * 2 ^ e * 10)%Z
        else
          let d := (2 ^ (- e))%Z in
          let q := (Zpos m * 10 / d)%Z in
          let r := ((Zpos m * 10) mod d)%Z in
          if (2 * r <? d)%Z then q
          else if (d <? 2 * r)%Z then (q + 1)%Z
          else if Z.even q then q else (q + 1)%Z in
      (if s then lit "-" else []) ++ str_of_Z (n / 10) ++ lit "."
      ++ str_of_Z (n mod 10)
  end.

(** ["\n".join(lines)] *)
Fixpoint join_lines (lines : list str) : str :=
  match lines with
  | [] => []
  | [l] => l
  | l :: ls => l ++ NL :: join_lines ls
  end.

Definition TAB : char := 9%N.

Definition top_user_damage (user_stats : dict dstat) (top_n : Z) : dict dstat :=
  slice_to top_n
    (sorted_reverse (fun x : str * dstat => userDamage (snd x)) PrimFloat.ltb
       user_stats).

Definition top_boss_damage (user_stats : dict dstat) (top_n : Z) : dict dstat :=
  slice_to top_n
    (sorted_reverse (fun x : str * dstat => bossDamage (snd x)) PrimFloat.ltb
       user_stats).

Definition sorted_skills (team_skills : dict Z) : dict Z :=
  sorted_reverse (fun x : str * Z => snd x) Z.ltb team_skills.

Definition dealt_line (p : Z * (str * dstat)) : str :=
  let '(i, (user, stats)) := p in
  str_of_Z i ++ lit ". " ++ user ++ [TAB] ++ lit "Damage Dealt: "
  ++ format_1f (userDamage stats).

Definition taken_line (p : Z * (str * dstat)) : str :=
  let '(i, (user, stats)) := p in
  str_of_Z i ++ lit ". " ++ user ++ [TAB] ++ lit "Damage Taken: "
  ++ format_1f (bossDamage stats).

Definition skill_line (p : Z * (str * Z)) : str :=
  let '(i, (user, count)) := p in
  str_of_Z i ++ lit ". " ++ user ++ [TAB] ++ lit "Skills Cast: "
  ++ str_of_Z count ++ lit " times".

Section Report.

(** [d.strftime('%Y-%m-%d')], the calendar of the [datetime] module. *)
Variable strftime_ymd : datetime -> str.

Definition period_line (period_start period_end : datetime) : str :=
  lit "**Period:** " ++ strftime_ymd period_start ++ lit " " ++ [8594%N]
  ++ lit " " ++ strftime_ymd period_end.

(** The list [md] at the [return] of [generate_markdown_report]. *)
Definition report_lines (user_stats : dict dstat)
    (period_start period_end : datetime) (top_n : Z)
    (team_skills : option (dict Z)) : list str :=
  [ []; period_line period_start period_end; [];
    lit "### " ++ [128170%N] ++ lit " Top Damage Dealers" ]
  ++ map dealt_line (enumerate 1 (top_user_damage user_stats top_n))
  ++ [ []; lit "### " ++ [128128%N] ++ lit " Top Damage Taken" ]
  ++ map taken_line (enumerate 1 (top_boss_damage user_stats top_n))
  ++ match team_skills with
     | Some ((_ :: _) as skills) =>
         [ []; lit "### " ++ [10024%N] ++ lit " Most Team Skills Cast" ]
         ++ map skill_line (enumerate 1 (slice_to top_n (sorted_skills skills)))
     | _ => []
     end.

Definition generate_markdown_report (user_stats : dict dstat)
    (period_start period_end : datetime) (top_n : Z)
    (team_skills : option (dict Z)) : str :=
  join_lines
    (report_lines user_stats period_start period_end top_n team_skills).

End Report.

(** ** [print_console_report]

    The function writes a table to the console; its model is the list of
    the strings it passes to [print], in order. *)

Definition SPACE : char := 32%N.

(** [format(s, "<w")] and [format(s, ">w")]: padding with spaces up to the
    width [w]; a longer text is left as it is. *)
Definition ljust (w : nat) (s : str) : str :=
  s ++ repeat SPACE (w - List.length s).

Definition rjust (w : nat) (s : str) : str :=
  repeat SPACE (w - List.length s) ++ s.

Definition console_header : str :=
  ljust 25 (lit "Player") ++ rjust 15 (lit "Damage Dealt")
  ++ rjust 15 (lit "Damage Taken").

Definition console_row (x : str * dstat) : str :=
  let '(user, stats) := x in
  ljust 25 user ++ rjust 15 (format_1f (userDamage stats))
  ++ rjust 15 (format_1f (bossDamage stats)).

Definition console_order (user_stats : dict dstat) : dict dstat :=
  sorted_reverse (fun x : str * dstat => userDamage (snd x)) PrimFloat.ltb
    user_stats.

Definition print_console_report (user_stats : dict dstat) : list str :=
  [ [NL] ++ lit "=== " ++ [129534%N] ++ lit " Damage Report (Last 7 Days) ==="
    ++ [NL];
    console_header;
    repeat 45%N 55 ]
  ++ map console_row (console_order user_stats)
  ++ [ [NL] ++ repeat 61%N 40 ++ [NL] ].

(** ** [main]

    The two requests are made by [fetch_party_chat] and
    [fetch_group_info]; [main] is a function of what they return and of
    the two readings of the clock, the one of
    [filter_recent_boss_messages] and its own.  Its result is what it
    does to the group: nothing, for one of three reasons, or the one call
    of [update_group_description], or an exception that leaves it. *)

(** The object under ["data"] of the group: its ["_id"] and
    ["description"], [None] for an absent key. *)
Record group_data : Type := mkGroup {
  g_id : option str;
  g_description : option str
}.

(** What [fetch_group_info] returns: the decoded answer, or the empty
    list of its [except] branch. *)
Inductive group_info : Type :=
| GroupFailed
| GroupJson (data : option group_data).

Inductive outcome : Type :=
| NoChat                                  (* "No chat messages found." *)
| NoBossMessages                          (* "No boss damage messages ..." *)
| NoGroup                                 (* "Could not retrieve ..." *)
| UpToDate                                (* "Podium already up-to-date." *)
| Update (group_id new_description : str) (* [update_group_description] *)
| Crash (e : exn)
| CrashAttributeError.                    (* [[].get] *)

(** [group_info.get("data", {})] *)
Definition empty_group : group_data := mkGroup None None.

Definition get_data (data : option group_data) : group_data :=
  match data with
  | Some d => d
  | None => empty_group
  end.

Section Main.

Variable float_of_str : str -> option float.
Variable int_of_str : str -> option Z.
Variable fromtimestamp_ms : Z -> result datetime.
Variable strftime_ymd : datetime -> str.

(** [now.strftime('%Y-%m-%d %H:%M')] *)
Variable strftime_ymd_hm : datetime -> str.

Definition last_updated (now : datetime) : str :=
  lit "_Last updated: " ++ strftime_ymd_hm now ++ lit " UTC_".

Definition full_podium_md (markdown_report : str) (now : datetime) : str :=
  markdown_report ++ [NL; NL] ++ last_updated now ++ [NL; NL] ++ lit "---".

(** The part of [main] that follows [fetch_group_info]. *)
Definition publish (group : group_info) (full : str) : outcome :=
  match group with
  | GroupFailed => CrashAttributeError
  | GroupJson data =>
      let group_data := get_data data in
      match truthy_user (g_id group_data),
            truthy_user (g_description group_data) with
      | Some group_id, Some description =>
          match replace_podium_section description full with
          | Raise e => Crash e
          | Ok new_description =>
              if negb (str_eqb (strip new_description) (strip description))
              then Update group_id new_description
              else UpToDate
          end
      | _, _ => NoGroup
      end
  end.

(** The podium text that [main] builds from the chat: [full_podium_md]. *)
Definition podium_of (chat recent_messages : list msg) (now : datetime)
    : result str :=
  user_stats <- aggregate_user_damage float_of_str recent_messages ;;
  seven_days_ago <- minus_days now 7 ;;
  skill_msgs <- recent_skill_msgs fromtimestamp_ms seven_days_ago chat ;;
  team_skills <- aggregate_team_skills int_of_str skill_msgs ;;
  Ok (full_podium_md
        (generate_markdown_report strftime_ymd user_stats seven_days_ago now
           5 (Some team_skills))
        now).

Definition main (chat : list msg) (now_filter now : datetime)
    (group : group_info) : outcome :=
  match chat with
  | [] => NoChat
  | _ :: _ =>
      match filter_recent_boss_messages fromtimestamp_ms now_filter chat 7 with
      | Raise e => Crash e
      | Ok [] => NoBossMessages
      | Ok ((_ :: _) as recent_messages) =>
          match podium_of chat recent_messages now with
          | Raise e => Crash e
          | Ok full => publish group full
          end
      end
  end.

End Main.

(** * The vocabulary of the properties *)

(** The totals of [u], zero before the first event of [u]. *)
Definition stat_of (stats : dict dstat) (u : str) : dstat :=
  match dict_get stats u with
  | Some st => st
  | None => mkStat 0 0
  end.

(** A value that fails the numeric coercion in the way the handler of
    the aggregator catches. *)
Definition non_numeric (fos : str -> option float) (v : pyval) : Prop :=
  py_float fos v = Raise ValueError \/ py_float fos v = Raise TypeError.

(** The cast count of [u], zero before its first cast. *)
Definition count_of (skills : dict Z) (u : str) : Z :=
  match dict_get skills u with
  | Some c => c
  | None => 0%Z
  end.

Definition is_skill (m : msg) : bool :=
  opt_str_eqb (i_type (get_info m)) spell_cast_party.

Definition has_kind (kind : str) (m : msg) : bool :=
  opt_str_eqb (i_type (get_info m)) kind.

(** What the filter keeps when nothing raises: the events of the kind
    whose timestamp the conversion [conv] turns into a time at or after
    [since]. *)
Definition in_window (conv : Z -> result datetime) (kind : str)
    (since : datetime) (m : msg) : bool :=
  has_kind kind m &&
  match m_timestamp m with
  | Some ts => match conv ts with
               | Ok d => (since <=? d)%Z
               | Raise _ => false
               end
  | None => false
  end.


(** What one event does to the dictionary: nothing, or it makes sure that
    [u] has an entry and adds the given values to its two totals, or it
    raises. *)
Inductive effect : Type :=
| Skip
| Add (u : str) (a b : option float)
| Fail (e : exn).

Definition caught (e : exn) : bool :=
  match e with
  | ValueError | TypeError => true
  | _ => false
  end.

Definition field_value (fos : str -> option float) (v : option pyval)
    : result (option float) :=
  match not_none v with
  | None => Ok None
  | Some x => f <- py_float fos x ;; Ok (Some f)
  end.

Definition event_effect (fos : str -> option float) (m : msg) : effect :=
  match truthy_user (i_user (get_info m)) with
  | None => Skip
  | Some u =>
      match field_value fos (i_userDamage (get_info m)) with
      | Raise e => if caught e then Add u None None else Fail e
      | Ok a =>
          match field_value fos (i_bossDamage (get_info m)) with
          | Raise e => if caught e then Add u a None else Fail e
          | Ok b => Add u a b
          end
      end
  end.

Definition add_opt (add : float -> dstat -> dstat) (u : str) (x : option float)
    (stats : dict dstat) : dict dstat :=
  match x with
  | Some f => dict_update stats u (add f)
  | None => stats
  end.

Definition apply_effect (stats : dict dstat) (ef : effect)
    : result (dict dstat) :=
  match ef with
  | Skip => Ok stats
  | Add u a b =>
      Ok (add_opt add_bossDamage u b
            (add_opt add_userDamage u a
               (dict_setdefault stats u (mkStat 0 0))))
  | Fail e => Raise e
  end.

Definition fsum (values : list float) (start : float) : float :=
  fold_left PrimFloat.add values start.

(** The values that the events add to the [userDamage] total of [u], in
    the order of the events. *)
Definition user_values (fos : str -> option float) (u : str)
    (messages : list msg) : list float :=
  flat_map (fun m => match event_effect fos m with
                     | Add u' (Some x) _ => if str_eqb u' u then [x] else []
                     | _ => []
                     end) messages.

Definition boss_values (fos : str -> option float) (u : str)
    (messages : list msg) : list float :=
  flat_map (fun m => match event_effect fos m with
                     | Add u' _ (Some y) => if str_eqb u' u then [y] else []
                     | _ => []
                     end) messages.

(** Some event makes sure that [u] has an entry. *)
Definition seen (fos : str -> option float) (u : str) (messages : list msg)
    : bool :=
  existsb (fun m => match event_effect fos m with
                    | Add u' _ _ => str_eqb u' u
                    | _ => false
                    end) messages.

(** Some event raises. *)
Definition fails (fos : str -> option float) (messages : list msg) : bool :=
  existsb (fun m => match event_effect fos m with
                    | Fail _ => true
                    | _ => false
                    end) messages.

(** Every number that the event supplies is at least zero, and so is no
    NaN. *)
Definition nonneg_values (fos : str -> option float) (m : msg) : Prop :=
  forall v x,
    i_userDamage (get_info m) = Some v \/ i_bossDamage (get_info m) = Some v ->
    py_float fos v = Ok x -> PrimFloat.leb 0 x = true.

Definition nonneg_totals (stats : dict dstat) : Prop :=
  forall k,
    PrimFloat.leb 0 (userDamage (stat_of stats k)) = true
    /\ PrimFloat.leb 0 (bossDamage (stat_of stats k)) = true.

(** [x] comes before [y] in [l]. *)
Definition before {A : Type} (x y : A) (l : list A) : Prop :=
  exists a b c, l = a ++ x :: b ++ y :: c.

(** No element is smaller than a later one. *)
Definition descending {A K : Type} (key : A -> K) (lt : K -> K -> bool)
    (l : list A) : Prop :=
  forall x y, before x y l -> lt (key x) (key y) = false.

(** Two keys that are equal for the comparison. *)
Definition same_key {A K : Type} (key : A -> K) (lt : K -> K -> bool)
    (a b : A) : Prop :=
  forall k, lt k (key a) = lt k (key b).

(** No element is smaller than an earlier one. *)
Definition ascending {A K : Type} (key : A -> K) (lt : K -> K -> bool)
    (l : list A) : Prop :=
  forall x y, before x y l -> lt (key y) (key x) = false.

(** Each element of [l], after [prev], is not smaller than its
    predecessor. *)
Fixpoint asc_chain {A K : Type} (key : A -> K) (lt : K -> K -> bool)
    (prev : A) (l : list A) : Prop :=
  match l with
  | [] => True
  | x :: l' => lt (key x) (key prev) = false /\ asc_chain key lt x l'
  end.

(** Each element of [l], after [prev], is smaller than its predecessor. *)
Fixpoint desc_chain {A K : Type} (key : A -> K) (lt : K -> K -> bool)
    (prev : A) (l : list A) : Prop :=
  match l with
  | [] => True
  | x :: l' => lt (key x) (key prev) = true /\ desc_chain key lt x l'
  end.

(** A [for] loop over the messages, for a body that can raise. *)
Fixpoint for_each {V : Type} (step : dict V -> msg -> result (dict V))
    (s : dict V) (messages : list msg) : result (dict V) :=
  match messages with
  | [] => Ok s
  | m :: ms => s' <- step s m ;; for_each step s' ms
  end.

(** An event of [u] comes before every event of [v]. *)
Definition first_seen_before (actor : msg -> option str) (u v : str)
    (messages : list msg) : Prop :=
  u <> v
  /\ exists l1 mu l2,
       messages = l1 ++ mu :: l2 /\ actor mu = Some u
       /\ forall m, In m l1 -> actor m <> Some v.

Definition actor_of (m : msg) : option str :=
  truthy_user (i_user (get_info m)).

Definition skill_actor_of (m : msg) : option str :=
  if is_skill m then actor_of m else None.

(** A trimmed string is empty or begins and ends with a character that
    is not white space. *)
Definition trimmed (s : str) : Prop :=
  match s with
  | [] => True
  | c :: _ => isspace c = false /\ isspace (last s c) = false
  end.

(** [p] does not occur in [s] at a position below [n]. *)
Definition no_start (p : str) (n : nat) (s : str) : Prop :=
  forall j, (j < n)%nat -> starts_with p (skipn j s) = false.

(** The scan of [sub_fuel], for any text put in the place of a match;
    [emit] sees the match and what follows it. *)
Fixpoint scan_fuel (fuel : nat) (emit : str -> str -> str) (s : str) : str :=
  match fuel with
  | O => s
  | S f =>
      match match_here s with
      | Some (m, r) => emit m r ++ scan_fuel f emit r
      | None => match s with
                | [] => []
                | c :: s' => c :: scan_fuel f emit s'
                end
      end
  end.

Definition scan (emit : str -> str -> str) (s : str) : str :=
  scan_fuel (S (List.length s)) emit s.

Definition no_backslash (s : str) : bool :=
  forallb (fun c => negb (c =? BACKSLASH)%N) s.

(** The section built for the trimmed body [b], and what [rstrip]
    leaves of it. *)
Definition section_of (b : str) : str := podium_header ++ [NL; NL] ++ b ++ [NL].

Definition section_trimmed (b : str) : str :=
  match b with
  | [] => podium_header
  | _ => podium_header ++ [NL; NL] ++ b
  end.

(** The bodies for which the merge can be repeated: no escape for the
    template and no line that would end the section. *)
Definition body_ok (b : str) : Prop :=
  no_backslash b = true
  /\ contains next_header (NL :: b) = false.

Definition emit_section (b : str) : str -> str -> str :=
  fun _ _ => section_of b.

(** As [emit_section], with the last section trimmed when it ends the
    text. *)
Definition emit_trimmed (b : str) : str -> str -> str :=
  fun _ r => match r with
             | [] => section_trimmed b
             | _ => section_of b
             end.

(** What [strip] leaves of a document that ends with the new section. *)
Definition with_section (d sec : str) : str :=
  match d with
  | [] => sec
  | _ => d ++ [NL; NL] ++ sec
  end.

(** What reading the time of an event of the kind raises: [KeyError]
    for an absent timestamp, else the exception of the conversion. *)
Definition stamp_error (conv : Z -> result datetime) (kind : str) (m : msg)
    : option exn :=
  if has_kind kind m then
    match m_timestamp m with
    | Some ts => match conv ts with
                 | Ok _ => None
                 | Raise e => Some e
                 end
    | None => Some KeyError
    end
  else None.

Definition bad_stamp (conv : Z -> result datetime) (kind : str) (m : msg)
    : bool :=
  match stamp_error conv kind m with
  | Some _ => true
  | None => false
  end.

(** An integer that [float] cannot hold. *)
Definition too_large (v : option pyval) : bool :=
  match v with
  | Some (VInt z) => is_infinity (float_of_Z z)
  | _ => false
  end.

(** The actor of a skill event and what [int(times)] gives for it. *)
Definition cast_of (ios : str -> option Z) (m : msg)
    : option (str * result Z) :=
  match skill_actor_of m with
  | Some u => Some (u, py_int ios (get_times (get_info m)))
  | None => None
  end.

(** The numbers that the events add to the count of [u]. *)
Definition cast_values (ios : str -> option Z) (u : str) (messages : list msg)
    : list Z :=
  flat_map (fun m => match cast_of ios m with
                     | Some (u', Ok n) => if str_eqb u' u then [n] else []
                     | _ => []
                     end) messages.

Definition cast_seen (u : str) (messages : list msg) : bool :=
  existsb (fun m => match skill_actor_of m with
                    | Some u' => str_eqb u' u
                    | None => false
                    end) messages.

Definition cast_fails (ios : str -> option Z) (messages : list msg) : bool :=
  existsb (fun m => match cast_of ios m with
                    | Some (_, Raise _) => true
                    | _ => false
                    end) messages.

Definition zsum (values : list Z) : Z := fold_right Z.add 0%Z values.


(** A text without a line feed and without a backslash. *)
Definition clean (s : str) : bool :=
  forallb (fun c => negb (c =? NL)%N && negb (c =? BACKSLASH)%N) s.

(** A text of digits and minus signs. *)
Definition numeric (s : str) : bool :=
  forallb (fun c => is_digit c || (c =? 45)%N) s.

(** A line that can stand in a podium: it is clean and is no header of
    the second level. *)
Definition line_ok (l : str) : Prop :=
  clean l = true /\ starts_with (lit "## ") l = false.

Definition clean_names {V : Type} (d : dict V) : Prop :=
  forall k v, In (k, v) d -> clean k = true.

(** The lines of [full_podium_md]: those of the report, then the time of
    the update and a rule. *)
Definition podium_lines (ymd_hm : datetime -> str) (lines : list str)
    (now : datetime) : list str :=
  lines ++ [ []; last_updated ymd_hm now; []; lit "---" ].

(** ** Inputs of the examples *)

(** The conversion of a zone whose offset from UTC does not change, exact
    to the microsecond: what [datetime.fromtimestamp(ts / 1000)] gives for
    the timestamps of the current era, away from a change of offset. *)
Definition fixed_offset (utcoffset : Z) (ts : Z) : result datetime :=
  Ok (ts * 1000 + utcoffset)%Z.


Definition alice : str := lit "Alice".

Definition bob : str := lit "Bob".

(** A damage event of [u] with the given field values. *)
Definition damage_event (u : str) (ud bd : option pyval) : msg :=
  mkMsg (Some (mkInfo (Some boss_damage) (Some u) ud bd None)) (Some 0%Z).

Definition skill_event (u : str) (times : option pyval) : msg :=
  mkMsg (Some (mkInfo (Some spell_cast_party) (Some u) None None times))
        (Some 0%Z).

Definition stamped_event (kind : str) (ts : Z) : msg :=
  mkMsg (Some (mkInfo (Some kind) (Some alice) None None None)) (Some ts).

(** An event of the filtered kind without a timestamp. *)
Definition untimed (kind : str) : msg :=
  mkMsg (Some (mkInfo (Some kind) (Some alice) (Some (VInt 1)) None None)) None.

Definition dmg (u : str) (x : float) : msg :=
  damage_event u (Some (VFloat x)) None.

Definition doc_with_podium : str :=
  lit "intro" ++ [NL; NL] ++ podium_header ++ [NL] ++ lit "old" ++ [NL; NL]
  ++ lit "## Next" ++ [NL] ++ lit "keep".

Definition doc_with_two_podiums : str :=
  lit "a" ++ [NL] ++ podium_header ++ [NL] ++ lit "x" ++ [NL]
  ++ lit "## B" ++ [NL] ++ podium_header ++ [NL] ++ lit "y".

(** A run of [main]: one damage event and one skill event, read at the
    start of 1970 in a zone without offset, for a group whose description
    has no podium yet. *)
Definition example_chat : list msg := [dmg alice 10; skill_event bob None].

Definition example_group : group_info :=
  GroupJson (Some (mkGroup (Some (lit "g1")) (Some (lit "intro")))).

Definition example_main (group : group_info) : outcome :=
  main (fun _ => None) (fun _ => None)
           (fixed_offset 0)
    (fun _ => lit "1970-01-01") (fun _ => lit "1970-01-01 00:00")
    example_chat 0%Z 0%Z group.


(** The description that this run sends. *)
Definition example_description : str :=
  match example_main example_group with
  | Update _ r => r
  | _ => []
  end.

(** Seven players, for the rankings. *)
Definition player (i : N) : str := lit "p" ++ [(48 + i)%N].

(** One damage event for each of them: the fifth deals a NaN, the last
    one 2, the others 1. *)
Definition nan_chat : list msg :=
  [dmg (player 0) 1; dmg (player 1) 1; dmg (player 2) 1; dmg (player 3) 1;
   dmg (player 4) nan; dmg (player 5) 1; dmg (player 6) 2].

Definition nan_stats : dict dstat :=
  [(player 0, mkStat (0 + 1) 0); (player 1, mkStat (0 + 1) 0);
   (player 2, mkStat (0 + 1) 0); (player 3, mkStat (0 + 1) 0);
   (player 4, mkStat (0 + nan) 0); (player 5, mkStat (0 + 1) 0);
   (player 6, mkStat (0 + 2) 0)].

(** * Properties *)

(** ** Examples *)

(** The scenario of the specification: Bob dealt more, Alice took more. *)
Example report_example :
  match aggregate_user_damage (fun _ => None)
          [damage_event alice (Some (VInt 10)) (Some (VInt 5));
           damage_event bob (Some (VInt 20)) (Some (VInt 1))] with
  | Ok stats =>
      report_lines (fun _ => lit "2024-01-01") stats 0%Z 0%Z 5%Z None
  | Raise _ => []
  end
  = [ [];
      lit "**Period:** 2024-01-01 " ++ [8594%N] ++ lit " 2024-01-01";
      [];
      lit "### " ++ [128170%N] ++ lit " Top Damage Dealers";
      lit "1. Bob" ++ [TAB] ++ lit "Damage Dealt: 20.0";
      lit "2. Alice" ++ [TAB] ++ lit "Damage Dealt: 10.0";
      [];
      lit "### " ++ [128128%N] ++ lit " Top Damage Taken";
      lit "1. Alice" ++ [TAB] ++ lit "Damage Taken: 5.0";
      lit "2. Bob" ++ [TAB] ++ lit "Damage Taken: 1.0" ].
Proof. reflexivity. Qed.

Example skills_example :
  match aggregate_team_skills (fun _ => None)
          [skill_event alice None; skill_event bob (Some (VInt 3));
           damage_event bob (Some (VInt 20)) None;
           skill_event alice (Some (VFloat 2.7))] with
  | Ok skills =>
      map skill_line (enumerate 1 (slice_to 5 (sorted_skills skills)))
  | Raise _ => []
  end
  = [ lit "1. Alice" ++ [TAB] ++ lit "Skills Cast: 3 times";
      lit "2. Bob" ++ [TAB] ++ lit "Skills Cast: 3 times" ].
Proof. reflexivity. Qed.

Example format_1f_examples :
  map format_1f [0.05; 0.25; 0.35; -0.04; 123456.75; infinity; nan]%float
  = map lit ["0.1"; "0.2"; "0.3"; "-0.0"; "123456.8"; "inf"; "nan"]%string.
Proof. reflexivity. Qed.

Example parse_template_examples :
  parse_template (lit "a\1b\n\g<0>\#\101")
  = Ok [TLit 97; TGroup 1; TLit 98; TLit 10; TGroup 0; TLit 92; TLit 35;
        TLit 65]%N
  /\ parse_template (lit "\x") = Raise ReError
  /\ parse_template (lit "\2") = Raise ReError.
Proof. repeat split; reflexivity. Qed.

Example slice_examples :
  slice_to 2 [1; 2; 3]%nat = [1; 2]%nat
  /\ slice_to (-1) [1; 2; 3]%nat = [1; 2]%nat
  /\ slice_to (-5) [1; 2; 3]%nat = [].
Proof. repeat split; reflexivity. Qed.

(** ** Strings and dictionaries *)

Lemma str_eqb_eq (a b : str) : str_eqb a b = true <-> a = b.
Proof.
  revert b; induction a as [|x a IH]; intros [|y b]; simpl;
    try (split; [discriminate | discriminate]); try tauto.
  rewrite andb_true_iff, N.eqb_eq, IH.
  split; [intros [-> ->]; reflexivity | intros H; inversion H; auto].
Qed.

Lemma str_eqb_refl (a : str) : str_eqb a a = true.
Proof. apply str_eqb_eq; reflexivity. Qed.

Lemma str_eqb_neq (a b : str) : str_eqb a b = false <-> a <> b.
Proof.
  rewrite <- str_eqb_eq. destruct (str_eqb a b); split; congruence.
Qed.

Section DictFacts.

Context {V : Type}.
Implicit Types (d : dict V) (k : str) (v : V).

Lemma dict_get_set_same d k v : dict_get (dict_set d k v) k = Some v.
Proof.
  induction d as [|[k' v'] d IH]; simpl.
  - now rewrite str_eqb_refl.
  - destruct (str_eqb k' k) eqn:E; simpl; rewrite E; auto.
Qed.

Lemma dict_get_set_other d k k' v :
  k' <> k -> dict_get (dict_set d k v) k' = dict_get d k'.
Proof.
  intros N. induction d as [|[k0 v0] d IH]; simpl.
  - assert (str_eqb k k' = false) as -> by (apply str_eqb_neq; congruence).
    reflexivity.
  - destruct (str_eqb k0 k) eqn:E; simpl.
    + apply str_eqb_eq in E; subst k0.
      assert (str_eqb k k' = false) as -> by (apply str_eqb_neq; congruence).
      reflexivity.
    + destruct (str_eqb k0 k'); auto.
Qed.

Lemma dict_get_update_same d k f :
  dict_get (dict_update d k f) k = option_map f (dict_get d k).
Proof.
  induction d as [|[k' v'] d IH]; simpl; auto.
  destruct (str_eqb k' k) eqn:E; simpl; rewrite E; auto.
Qed.

Lemma dict_get_update_other d k k' f :
  k' <> k -> dict_get (dict_update d k f) k' = dict_get d k'.
Proof.
  intros N. induction d as [|[k0 v0] d IH]; simpl; auto.
  destruct (str_eqb k0 k) eqn:E; simpl.
  - apply str_eqb_eq in E; subst k0.
    assert (str_eqb k k' = false) as -> by (apply str_eqb_neq; congruence).
    reflexivity.
  - destruct (str_eqb k0 k'); auto.
Qed.

Lemma dict_get_setdefault_same d k v :
  dict_get (dict_setdefault d k v) k
  = Some (match dict_get d k with Some x => x | None => v end).
Proof.
  unfold dict_setdefault, dict_mem.
  destruct (dict_get d k) eqn:E; auto using dict_get_set_same.
Qed.

Lemma dict_get_setdefault_other d k k' v :
  k' <> k -> dict_get (dict_setdefault d k v) k' = dict_get d k'.
Proof.
  intros N. unfold dict_setdefault.
  destruct (dict_mem d k); auto using dict_get_set_other.
Qed.

Lemma keys_update d k f : keys (dict_update d k f) = keys d.
Proof.
  induction d as [|[k' v'] d IH]; simpl; auto.
  destruct (str_eqb k' k); simpl; unfold keys in *; congruence.
Qed.

Lemma keys_set d k v :
  keys (dict_set d k v) = if dict_mem d k then keys d else keys d ++ [k].
Proof.
  unfold dict_mem.
  induction d as [|[k' v'] d IH]; simpl; auto.
  destruct (str_eqb k' k) eqn:E; simpl; auto.
  unfold keys in *. rewrite IH. now destruct (dict_get d k).
Qed.

Lemma keys_setdefault d k v :
  keys (dict_setdefault d k v) = if dict_mem d k then keys d else keys d ++ [k].
Proof.
  unfold dict_setdefault. destruct (dict_mem d k) eqn:E; auto.
  rewrite keys_set, E. reflexivity.
Qed.

Lemma dict_mem_In d k : dict_mem d k = true <-> In k (keys d).
Proof.
  unfold dict_mem. induction d as [|[k' v'] d IH]; simpl.
  - split; [discriminate | tauto].
  - destruct (str_eqb k' k) eqn:E.
    + apply str_eqb_eq in E. split; auto.
    + apply str_eqb_neq in E. rewrite IH. split; auto. intros [?|?]; congruence.
Qed.

End DictFacts.

(** ** Floats *)

Lemma float_neq (a b : float) :
  PrimFloat.eqb a a = true -> PrimFloat.eqb a b = false -> a <> b.
Proof. intros Ha Hab E. rewrite <- E in Hab. congruence. Qed.

(** ** The damage aggregator, one event at a time *)

Section DamageStep.

Variable fos : str -> option float.



Lemma stat_of_setdefault stats u :
  dict_get (dict_setdefault stats u (mkStat 0 0)) u = Some (stat_of stats u).
Proof. rewrite dict_get_setdefault_same. reflexivity. Qed.

End DamageStep.




(** ** The skill aggregator *)

Lemma skill_loop_app (ios : str -> option Z) (l1 l2 : list msg) :
  forall skills,
    skill_loop ios skills (l1 ++ l2)
    = (s1 <- skill_loop ios skills l1 ;; skill_loop ios s1 l2).
Proof.
  induction l1 as [|m l1 IH]; intros skills; simpl; [reflexivity|].
  destruct (skill_step ios skills m); simpl; auto.
Qed.

(** C7.  A skill event with a present actor [u], coming after any list
    of events on which the aggregator returns, adds its cast count,
    coerced by [int], to the total that the aggregator gives to [u], and
    changes no other total; the count is 1 when the field is absent.  A
    cast count that [int] rejects makes the whole call raise, whatever
    follows the event: there is such an event whose cast count is
    present and not a number. *)
Theorem skill_cast_count (ios : str -> option Z) (events : list msg)
    (m : msg) (u : str) :
  is_skill m = true ->
  truthy_user (i_user (get_info m)) = Some u ->
  (forall totals n,
     aggregate_team_skills ios events = Ok totals ->
     py_int ios (get_times (get_info m)) = Ok n ->
     exists totals',
       aggregate_team_skills ios (events ++ [m]) = Ok totals'
       /\ dict_get totals' u = Some (count_of totals u + n)%Z
       /\ forall k, k <> u -> dict_get totals' k = dict_get totals k)
  /\ (i_times (get_info m) = None ->
      py_int ios (get_times (get_info m)) = Ok 1%Z)
  /\ (forall totals e rest,
        aggregate_team_skills ios events = Ok totals ->
        py_int ios (get_times (get_info m)) = Raise e ->
        aggregate_team_skills ios (events ++ m :: rest) = Raise e)
  /\ (exists bad,
        is_skill bad = true
        /\ truthy_user (i_user (get_info bad)) = Some u
        /\ i_times (get_info bad) = Some (VList [])
        /\ aggregate_team_skills ios [bad] = Raise TypeError).
Proof.
  intros Hk Hu. unfold is_skill in Hk.
  assert (Hu' : truthy_user (Some u) = Some u).
  { destruct (i_user (get_info m)) as [[|c s]|]; simpl in Hu;
      try discriminate. injection Hu as <-. reflexivity. }
  split; [|split; [|split]].
  - intros totals n Ht Hn. unfold aggregate_team_skills in *.
    rewrite skill_loop_app, Ht. simpl.
    unfold skill_step. rewrite Hk, Hu, Hn. simpl.
    eexists; split; [reflexivity | split].
    + rewrite dict_get_update_same, dict_get_setdefault_same.
      unfold count_of. destruct (dict_get totals u); reflexivity.
    + intros k Hne.
      rewrite dict_get_update_other, dict_get_setdefault_other; auto.
  - intros Hn. unfold get_times. rewrite Hn. reflexivity.
  - intros totals e rest Ht He. unfold aggregate_team_skills in *.
    rewrite skill_loop_app, Ht. simpl. unfold skill_step.
    rewrite Hk, Hu, He. reflexivity.
  - exists (skill_event u (Some (VList []))).
    split; [reflexivity | split; [exact Hu' | split; [reflexivity|]]].
    unfold aggregate_team_skills, skill_loop, skill_step.
    change (get_info (skill_event u (Some (VList []))))
      with (mkInfo (Some spell_cast_party) (Some u) None None
              (Some (VList []))).
    cbn [i_type i_user i_times get_times].
    rewrite Hu'. reflexivity.
Qed.

Lemma skill_cast_count_witness :
  exists totals',
    aggregate_team_skills (fun _ => None)
      ([skill_event bob None; skill_event alice (Some (VInt 2))]
       ++ [skill_event alice (Some (VInt 3))])
    = Ok totals'
    /\ dict_get totals' alice
       = Some (count_of [(bob, 1%Z); (alice, 2%Z)] alice + 3)%Z
    /\ forall k, k <> alice ->
         dict_get totals' k = dict_get [(bob, 1%Z); (alice, 2%Z)] k.
Proof.
  apply (proj1 (skill_cast_count (fun _ => None)
                  [skill_event bob None; skill_event alice (Some (VInt 2))]
                  (skill_event alice (Some (VInt 3))) alice eq_refl eq_refl)
           [(bob, 1%Z); (alice, 2%Z)] 3%Z).
  - reflexivity.
  - reflexivity.
Defined.

Lemma skill_loop_filter (ios : str -> option Z) (messages : list msg) :
  forall skills,
    skill_loop ios skills messages
    = skill_loop ios skills (filter is_skill messages).
Proof.
  induction messages as [|m ms IH]; intros skills; simpl; auto.
  unfold is_skill at 1.
  destruct (opt_str_eqb (i_type (get_info m)) spell_cast_party) eqn:E.
  - simpl. destruct (skill_step ios skills m); simpl; auto.
  - unfold skill_step at 1. rewrite E. simpl. apply IH.
Qed.

(** C10.  The skill aggregator gives the same result, or raises the same
    exception, on a list of events and on its sub-list of the events of
    kind [spell_cast_party]. *)
Theorem aggregate_team_skills_ignores_other_kinds
    (ios : str -> option Z) (messages : list msg) :
  aggregate_team_skills ios messages
  = aggregate_team_skills ios (filter is_skill messages).
Proof. apply skill_loop_filter. Qed.

(** ** The event filter *)

Lemma selected_cases (conv : Z -> result datetime) (kind : str)
    (since : datetime) (m : msg) :
  match stamp_error conv kind m with
  | None => selected conv kind since m = Ok (in_window conv kind since m)
  | Some e => selected conv kind since m = Raise e
  end.
Proof.
  unfold stamp_error, selected, in_window, has_kind.
  destruct (opt_str_eqb (i_type (get_info m)) kind); simpl; auto.
  destruct (m_timestamp m) as [ts|]; auto.
  destruct (conv ts); reflexivity.
Qed.










(** C8 as stated fails: a boss-damage event without a timestamp makes the
    filter raise [KeyError]. *)
Lemma missing_timestamp_raises :
  filter_recent_boss_messages (fixed_offset 0) 1700000000000000%Z
    [untimed boss_damage] 7%Z
  = Raise KeyError.
Proof. reflexivity. Qed.

Lemma filter_since_app (conv : Z -> result datetime)
    (kind : str) (since : datetime)
    (l1 l2 : list msg) :
  filter_since conv kind since (l1 ++ l2)
  = (a <- filter_since conv kind since l1 ;;
     b <- filter_since conv kind since l2 ;;
     Ok (a ++ b)).
Proof.
  induction l1 as [|m l1 IH]; simpl.
  - destruct (filter_since conv kind since l2); reflexivity.
  - destruct (selected conv kind since m) as [b|e]; simpl; auto.
    rewrite IH.
    destruct (filter_since conv kind since l1); simpl; auto.
    destruct (filter_since conv kind since l2); simpl; auto.
    destruct b; reflexivity.
Qed.

(** C8, as the code has it.  An event without a timestamp is dropped
    without an exception when its kind is not the filtered one: the
    result is that of the list without it.  When its kind is the filtered
    one, the filter raises; the exception is [KeyError] when the event is
    the first to be examined. *)
Theorem missing_timestamp (conv : Z -> result datetime)
    (kind : str) (since : datetime) (m : msg) :
  m_timestamp m = None ->
  (has_kind kind m = false ->
   forall l1 l2,
     filter_since conv kind since (l1 ++ m :: l2)
     = filter_since conv kind since (l1 ++ l2))
  /\ (has_kind kind m = true ->
      (forall rest, filter_since conv kind since (m :: rest) = Raise KeyError)
      /\ forall chat, In m chat ->
           exists e, filter_since conv kind since chat = Raise e).
Proof.
  intros T. split.
  - intros K l1 l2. rewrite !filter_since_app. simpl.
    unfold selected. fold (has_kind kind m). rewrite K. simpl.
    destruct (filter_since conv kind since l1); simpl; auto.
    destruct (filter_since conv kind since l2); simpl; auto.
  - intros K.
    assert (R : forall rest,
               filter_since conv kind since (m :: rest) = Raise KeyError).
    { intros rest. simpl. unfold selected. fold (has_kind kind m).
      rewrite K, T. reflexivity. }
    split; [exact R|].
    intros chat I. apply in_split in I. destruct I as (l1 & l2 & ->).
    rewrite filter_since_app, R.
    destruct (filter_since conv kind since l1); simpl; eauto.
Qed.

Lemma missing_timestamp_witness :
  filter_since (fixed_offset 0) boss_damage 0%Z
    ([stamped_event boss_damage 1%Z] ++ untimed spell_cast_party :: [])
  = filter_since (fixed_offset 0) boss_damage 0%Z
      ([stamped_event boss_damage 1%Z] ++ []).
Proof.
  apply (proj1 (missing_timestamp (fixed_offset 0) boss_damage 0%Z
                  (untimed spell_cast_party)
                  eq_refl) eq_refl).
Defined.

(** ** Float addition of non-negative values

    The sum of two floats that are not negative is not below the first
    one: rounding to nearest cannot go under a representable lower
    bound.  Proved on the specification [SFadd] of the addition. *)

Section FloatAddition.

Local Open Scope Z_scope.

Lemma shr_1_m (r : shr_record) :
  0 <= shr_m r -> shr_m (shr_1 r) = shr_m r / 2.
Proof.
  destruct r as [m b s]. simpl. intros H.
  destruct m as [|p|p]; try lia; auto.
  destruct p as [p|p|]; simpl.
  - rewrite Pos2Z.inj_xI. apply Z.div_unique with 1; lia.
  - rewrite Pos2Z.inj_xO. apply Z.div_unique with 0; lia.
  - reflexivity.
Qed.

Lemma iter_shr_m (p : positive) :
  forall r, 0 <= shr_m r ->
    shr_m (iter_pos shr_1 p r) = shr_m r / 2 ^ Zpos p.
Proof.
  induction p as [p IH|p IH|]; intros r H; simpl iter_pos.
  - assert (H1 : 0 <= shr_m (shr_1 r)).
    { rewrite shr_1_m by auto. apply Z.div_pos; lia. }
    assert (H2 : 0 <= shr_m (iter_pos shr_1 p (shr_1 r))).
    { rewrite IH by auto. apply Z.div_pos; lia. }
    rewrite IH, IH, shr_1_m by auto.
    rewrite !Z.div_div by lia.
    f_equal. rewrite Pos2Z.inj_xI, Z.pow_add_r, Z.pow_mul_r by lia.
    change (2 ^ 2) with 4. change (2 ^ 1) with 2.
    rewrite <- Z.pow_twice_r. rewrite Z.pow_mul_r by lia.
    change (2^2) with 4. lia.
  - assert (H2 : 0 <= shr_m (iter_pos shr_1 p r)).
    { rewrite IH by auto. apply Z.div_pos; lia. }
    rewrite IH, IH by auto.
    rewrite !Z.div_div by lia.
    f_equal. rewrite Pos2Z.inj_xO. rewrite <- Z.pow_add_r by lia. f_equal. lia.
  - rewrite shr_1_m by auto. reflexivity.
Qed.

Lemma digits2_bounds (p : positive) :
  2 ^ (Zpos (digits2_pos p) - 1) <= Zpos p < 2 ^ Zpos (digits2_pos p).
Proof.
  induction p as [p IH|p IH|]; simpl digits2_pos.
  - rewrite Pos2Z.inj_succ. change (Z.pos p~1) with (2 * Z.pos p + 1).
    replace (Z.succ (Zpos (digits2_pos p)) - 1)
      with (Z.succ (Zpos (digits2_pos p) - 1)) by lia.
    rewrite !Z.pow_succ_r by lia. lia.
  - rewrite Pos2Z.inj_succ. change (Z.pos p~0) with (2 * Z.pos p).
    replace (Z.succ (Zpos (digits2_pos p)) - 1)
      with (Z.succ (Zpos (digits2_pos p) - 1)) by lia.
    rewrite !Z.pow_succ_r by lia. lia.
  - simpl. lia.
Qed.

Lemma digits2_ge (m1 M : positive) (k : Z) :
  0 <= k -> Zpos m1 * 2 ^ k <= Zpos M ->
  Zpos (digits2_pos m1) + k <= Zpos (digits2_pos M).
Proof.
  intros K H.
  pose proof (digits2_bounds m1) as B1. pose proof (digits2_bounds M) as B.
  assert (L : 2 ^ (Zpos (digits2_pos m1) - 1 + k) < 2 ^ Zpos (digits2_pos M)).
  { rewrite Z.pow_add_r by lia.
    apply Z.le_lt_trans with (Zpos M); [|lia].
    apply Z.le_trans with (Zpos m1 * 2 ^ k); [|lia].
    apply Z.mul_le_mono_nonneg_r; [apply Z.pow_nonneg|]; lia. }
  apply Z.pow_lt_mono_r_iff in L; lia.
Qed.

(** The exponent and the mantissa that [shr_fexp] gives for a positive
    mantissa. *)
Lemma shr_fexp_pos (m : positive) (e : Z) (l : location) :
  snd (shr_fexp prec emax (Zpos m) e l)
  = Z.max e (fexp prec emax (Zpos (digits2_pos m) + e))
  /\ shr_m (fst (shr_fexp prec emax (Zpos m) e l))
     = Zpos m / 2 ^ (snd (shr_fexp prec emax (Zpos m) e l) - e).
Proof.
  unfold shr_fexp, shr. simpl Zdigits2.
  set (F := fexp prec emax (Zpos (digits2_pos m) + e)) in *.
  assert (R : shr_m (shr_record_of_loc (Zpos m) l) = Zpos m).
  { destruct l as [|[]]; reflexivity. }
  destruct (F - e) as [|p|p] eqn:N; simpl fst; simpl snd.
  - rewrite Z.sub_diag, Z.div_1_r. split; auto. lia.
  - split; [lia|].
    rewrite iter_shr_m by (rewrite R; lia). rewrite R. f_equal. f_equal. lia.
  - rewrite Z.sub_diag, Z.div_1_r. split; auto. lia.
Qed.

Lemma round_nearest_even_bounds (m : Z) (l : location) :
  m <= round_nearest_even m l <= m + 1.
Proof.
  unfold round_nearest_even. destruct l as [|[]]; try lia.
  destruct (Z.even m); lia.
Qed.

Lemma div_pow2_lower (a : Z) (k j : Z) :
  0 <= j -> 0 <= k -> 2 ^ (k + j) <= a -> 2 ^ k <= a / 2 ^ j.
Proof.
  intros J K H. apply Z.div_le_lower_bound.
  - apply Z.pow_pos_nonneg; lia.
  - rewrite <- Z.pow_add_r by lia. rewrite Z.add_comm. exact H.
Qed.

Lemma binary_round_aux_ge (m1 : positive) (e1 : Z) (M : positive) (ez : Z) :
  bounded prec emax m1 e1 = true ->
  ez <= e1 -> Zpos m1 * 2 ^ (e1 - ez) <= Zpos M ->
  SFleb (S754_finite false m1 e1)
        (binary_round_aux prec emax false (Zpos M) ez loc_Exact) = true.
Proof.
  unfold bounded, canonical_mantissa. intros B Lz HM.
  apply andb_true_iff in B. destruct B as (C & Bd).
  apply Z.eqb_eq in C. apply Z.leb_le in Bd.
  pose proof (digits2_ge m1 M (e1 - ez) ltac:(lia) HM) as D.
  pose proof (digits2_bounds M) as BM.
  unfold binary_round_aux.
  pose proof (shr_fexp_pos M ez loc_Exact) as S1.
  destruct (shr_fexp prec emax (Zpos M) ez loc_Exact) as (r1, E1).
  simpl fst in S1; simpl snd in S1. destruct S1 as (HE1 & Hm1).
  set (m' := shr_m r1) in *.
  unfold fexp, emin, prec, emax in *.
  assert (GE1 : e1 <= E1) by lia.
  assert (Lo : -1074 <= e1) by lia.
  assert (P2 : forall j, 0 <= j -> 0 < 2 ^ j)
    by (intros; apply Z.pow_pos_nonneg; lia).
  assert (Hm'1 : E1 = e1 -> Zpos m1 <= m').
  { intros ->. rewrite Hm1. apply Z.div_le_lower_bound; [apply P2; lia|].
    rewrite Z.mul_comm. exact HM. }
  assert (Hm'pos : 1 <= m').
  { destruct (Z.eq_dec E1 e1) as [Q|Q]; [specialize (Hm'1 Q); lia|].
    assert (E1 = Zpos (digits2_pos M) + ez - 53) by lia.
    rewrite Hm1. change 1 with (2 ^ 0).
    apply div_pow2_lower; try lia.
    apply Z.le_trans with (2 ^ (Zpos (digits2_pos M) - 1)); [|lia].
    apply Z.pow_le_mono_r; lia. }
  pose proof (round_nearest_even_bounds m' (loc_of_shr_record r1)) as Rb.
  destruct (round_nearest_even m' (loc_of_shr_record r1)) as [|q|q] eqn:Rq;
    try lia.
  pose proof (shr_fexp_pos q E1 loc_Exact) as S2.
  unfold fexp, emin, prec, emax in S2.
  destruct (shr_fexp 53 1024 (Zpos q) E1 loc_Exact) as (r2, E2).
  simpl fst in S2; simpl snd in S2. destruct S2 as (HE2 & Hm2).
  pose proof (digits2_bounds q) as Bq.
  assert (Hm''pos : 1 <= shr_m r2).
  { rewrite Hm2. destruct (Z.eq_dec E2 E1) as [Q|Q].
    - rewrite Q, Z.sub_diag, Z.div_1_r. lia.
    - assert (E2 = Zpos (digits2_pos q) + E1 - 53) by lia.
      change 1 with (2 ^ 0). apply div_pow2_lower; try lia.
      apply Z.le_trans with (2 ^ (Zpos (digits2_pos q) - 1)); [|lia].
      apply Z.pow_le_mono_r; lia. }
  assert (Hm''1 : E2 = e1 -> Zpos m1 <= shr_m r2).
  { intros Q. assert (E1 = e1) as Q1 by lia. rewrite Hm2.
    replace (E2 - E1) with 0 by lia. rewrite Z.div_1_r.
    specialize (Hm'1 Q1). lia. }
  destruct (shr_m r2) as [|q2|q2]; try lia.
  destruct (E2 <=? 1024 - 53) eqn:Ov; [|reflexivity].
  unfold SFleb, SFcompare.
  destruct (Z.compare_spec e1 E2) as [Q|Q|Q]; try lia; auto.
  change (Pos.compare_cont Eq m1 q2) with (Pos.compare m1 q2).
  destruct (Pos.compare_spec m1 q2) as [P|P|P]; auto.
  specialize (Hm''1 (eq_sym Q)). lia.
Qed.

Lemma iter_xO (m d : positive) :
  Zpos (Pos.iter xO m d) = Zpos m * 2 ^ Zpos d.
Proof.
  induction d as [|d IH] using Pos.peano_ind.
  - simpl. lia.
  - rewrite Pos.iter_succ, Pos2Z.inj_succ, Z.pow_succ_r by lia.
    change (Z.pos (Pos.iter xO m d)~0) with (2 * Z.pos (Pos.iter xO m d)).
    rewrite IH. lia.
Qed.

Lemma shl_align_value (m : positive) (e ez : Z) :
  ez <= e -> Zpos (fst (shl_align m e ez)) = Zpos m * 2 ^ (e - ez).
Proof.
  intros L. unfold shl_align.
  destruct (ez - e) as [|p|p] eqn:N; simpl fst.
  - replace (e - ez) with 0 by lia. simpl. lia.
  - lia.
  - rewrite iter_xO. f_equal. f_equal. lia.
Qed.

Lemma binary_round_ge (m1 : positive) (e1 : Z) (M : positive) (ez : Z) :
  bounded prec emax m1 e1 = true ->
  ez <= e1 -> Zpos m1 * 2 ^ (e1 - ez) <= Zpos M ->
  SFleb (S754_finite false m1 e1) (binary_round prec emax false M ez) = true.
Proof.
  intros B Lz HM. unfold binary_round.
  assert (F : ez <= fexp prec emax (Zpos (digits2_pos M) + ez)).
  { pose proof (digits2_ge m1 M (e1 - ez) ltac:(lia) HM) as D.
    unfold bounded, canonical_mantissa in B.
    apply andb_true_iff in B. destruct B as (C & _). apply Z.eqb_eq in C.
    unfold fexp, emin, prec, emax in *. lia. }
  unfold shl_align.
  destruct (fexp prec emax (Zpos (digits2_pos M) + ez) - ez) eqn:N; try lia;
    apply binary_round_aux_ge; auto.
Qed.

Lemma SFleb_refl_finite (s : bool) (m : positive) (e : Z) :
  SFleb (S754_finite s m e) (S754_finite s m e) = true.
Proof.
  unfold SFleb, SFcompare. rewrite Z.compare_refl.
  change (Pos.compare_cont Eq m m) with (Pos.compare m m).
  rewrite Pos.compare_refl. destruct s; reflexivity.
Qed.

Lemma SFadd_nonneg_ge (A X : spec_float) :
  valid_binary A = true -> valid_binary X = true ->
  SFleb (S754_zero false) A = true -> SFleb (S754_zero false) X = true ->
  SFleb A (SFadd prec emax A X) = true.
Proof.
  intros VA VX PA PX.
  destruct A as [sa|sa| |sa ma ea]; try discriminate;
    destruct X as [sx|sx| |sx mx ex]; try discriminate;
    try (destruct sa; try discriminate); try (destruct sx; try discriminate);
    try reflexivity; try apply SFleb_refl_finite.
  unfold SFadd. cbn [cond_Zopp].
  rewrite <- Pos2Z.inj_add. cbn [binary_normalize].
  apply binary_round_ge; auto; try lia.
  rewrite Pos2Z.inj_add, <- shl_align_value by lia. lia.
Qed.

Lemma SFleb_trans (a b c : spec_float) :
  SFleb a b = true -> SFleb b c = true -> SFleb a c = true.
Proof.
  unfold SFleb, SFcompare.
  destruct a as [sa|sa| |sa ma ea], b as [sb|sb| |sb mb eb],
           c as [sc|sc| |sc mc ec];
    try destruct sa; try destruct sb; try destruct sc; simpl;
    try congruence;
    repeat match goal with
           | |- context [Pos.compare_cont Eq ?x ?y] =>
               change (Pos.compare_cont Eq x y) with (Pos.compare x y)
           end;
    repeat match goal with
           | |- context [Z.compare ?x ?y] => destruct (Z.compare_spec x y)
           | |- context [Pos.compare ?x ?y] => destruct (Pos.compare_spec x y)
           end; simpl; try congruence; try lia.
Qed.

End FloatAddition.

Lemma float_add_nonneg (a x : float) :
  PrimFloat.leb 0 a = true -> PrimFloat.leb 0 x = true ->
  PrimFloat.leb a (a + x) = true /\ PrimFloat.leb 0 (a + x) = true.
Proof.
  rewrite !leb_spec, add_spec.
  change (Prim2SF 0) with (S754_zero false).
  intros Pa Px.
  assert (H : SFleb (Prim2SF a) (SF64add (Prim2SF a) (Prim2SF x)) = true).
  { apply SFadd_nonneg_ge; auto using Prim2SF_valid. }
  split; auto. apply (SFleb_trans _ _ _ Pa H).
Qed.

Lemma float_leb_trans (a b c : float) :
  PrimFloat.leb a b = true -> PrimFloat.leb b c = true ->
  PrimFloat.leb a c = true.
Proof. rewrite !leb_spec. apply SFleb_trans. Qed.

Lemma float_leb_refl (a : float) :
  PrimFloat.leb 0 a = true -> PrimFloat.leb a a = true.
Proof.
  rewrite !leb_spec. change (Prim2SF 0) with (S754_zero false).
  destruct (Prim2SF a) as [s|s| |s m e]; try discriminate; intros _;
    try (destruct s; reflexivity).
  apply SFleb_refl_finite.
Qed.

(** ** The damage aggregator over a list of events *)

Lemma add_field_value (fos : str -> option float) add u v stats :
  add_field fos add u v stats
  = match field_value fos v with
    | Ok x => (add_opt add u x stats, None)
    | Raise e => (stats, Some e)
    end.
Proof.
  unfold add_field, field_value.
  destruct (not_none v); simpl; auto.
  destruct (py_float fos p); reflexivity.
Qed.

Lemma damage_step_effect (fos : str -> option float) stats m :
  damage_step fos stats m = apply_effect stats (event_effect fos m).
Proof.
  unfold damage_step, event_effect, try_block.
  destruct (truthy_user (i_user (get_info m))) as [u|]; simpl; auto.
  rewrite !add_field_value.
  destruct (field_value fos (i_userDamage (get_info m))) as [a|e].
  - rewrite add_field_value.
    destruct (field_value fos (i_bossDamage (get_info m))) as [b|e]; auto.
    destruct e; reflexivity.
  - destruct e; reflexivity.
Qed.

Section Contributions.

Variable fos : str -> option float.

Lemma stat_of_add (stats : dict dstat) (u : str) (a b : option float)
    (k : str) :
  stat_of (add_opt add_bossDamage u b
             (add_opt add_userDamage u a
                (dict_setdefault stats u (mkStat 0 0)))) k
  = if str_eqb u k
    then mkStat (fsum (match a with Some x => [x] | None => [] end)
                      (userDamage (stat_of stats k)))
                (fsum (match b with Some y => [y] | None => [] end)
                      (bossDamage (stat_of stats k)))
    else stat_of stats k.
Proof.
  unfold stat_of at 1.
  destruct (str_eqb u k) eqn:E.
  - apply str_eqb_eq in E; subst k.
    destruct a as [x|], b as [y|]; simpl;
      rewrite ?dict_get_update_same, stat_of_setdefault; simpl;
      destruct (stat_of stats u); reflexivity.
  - apply str_eqb_neq in E.
    assert (forall d, dict_get
               (add_opt add_bossDamage u b (add_opt add_userDamage u a d)) k
             = dict_get d k) as ->.
    { intros d. destruct a, b; simpl;
        rewrite ?dict_get_update_other; auto. }
    rewrite dict_get_setdefault_other by auto. reflexivity.
Qed.

Lemma mem_add (stats : dict dstat) (u : str) (a b : option float) (k : str) :
  dict_mem (add_opt add_bossDamage u b
              (add_opt add_userDamage u a
                 (dict_setdefault stats u (mkStat 0 0)))) k
  = dict_mem stats k || str_eqb u k.
Proof.
  apply eq_true_iff_eq. rewrite orb_true_iff, !dict_mem_In, str_eqb_eq.
  assert (forall d : dict dstat,
             keys (add_opt add_bossDamage u b (add_opt add_userDamage u a d))
             = keys d) as ->.
  { intros d. destruct a, b; simpl; rewrite ?keys_update; auto. }
  rewrite keys_setdefault.
  destruct (dict_mem stats u) eqn:M.
  - apply dict_mem_In in M. split; auto. intros [?| <-]; auto.
  - rewrite in_app_iff. simpl. tauto.
Qed.

Lemma damage_loop_fails (messages : list msg) :
  forall stats, fails fos messages = true ->
    exists e, damage_loop fos stats messages = Raise e.
Proof.
  induction messages as [|m ms IH]; intros stats F; simpl in *;
    try discriminate.
  rewrite damage_step_effect.
  destruct (event_effect fos m) as [|u a b|e]; simpl in *; eauto.
Qed.

Lemma damage_loop_totals (messages : list msg) :
  forall stats, fails fos messages = false ->
    exists stats',
      damage_loop fos stats messages = Ok stats'
      /\ forall k,
           userDamage (stat_of stats' k)
           = fsum (user_values fos k messages) (userDamage (stat_of stats k))
           /\ bossDamage (stat_of stats' k)
              = fsum (boss_values fos k messages) (bossDamage (stat_of stats k))
           /\ dict_mem stats' k = dict_mem stats k || seen fos k messages.
Proof.
  induction messages as [|m ms IH]; intros stats F; simpl in *.
  - exists stats. split; auto. intros k. now rewrite orb_false_r.
  - rewrite damage_step_effect.
    destruct (event_effect fos m) as [|u a b|e]; simpl in *;
      try discriminate.
    + destruct (IH stats F) as (s & E & H). exists s. split; auto.
    + destruct (IH (add_opt add_bossDamage u b
                      (add_opt add_userDamage u a
                         (dict_setdefault stats u (mkStat 0 0)))) F)
        as (s & E & H).
      exists s. split; auto. intros k.
      destruct (H k) as (H1 & H2 & H3).
      rewrite H1, H2, H3, stat_of_add, mem_add. unfold fsum.
      rewrite !fold_left_app.
      destruct (str_eqb u k); simpl;
        destruct a, b; simpl; rewrite ?orb_false_r, ?orb_true_r;
        repeat split; auto using orb_assoc.
Qed.

End Contributions.

Lemma existsb_Permutation {A : Type} (f : A -> bool) (l l' : list A) :
  Permutation l l' -> existsb f l = existsb f l'.
Proof.
  intros P. apply eq_true_iff_eq. rewrite !existsb_exists.
  split; intros (x & I & Fx); exists x; split; auto;
    [apply (Permutation_in _ P I)
    | apply (Permutation_in _ (Permutation_sym P) I)].
Qed.

Lemma aggregate_raises_iff (fos : str -> option float) (messages : list msg) :
  (exists e, aggregate_user_damage fos messages = Raise e)
  <-> fails fos messages = true.
Proof.
  unfold aggregate_user_damage. split.
  - intros (e & E). destruct (fails fos messages) eqn:F; auto.
    destruct (damage_loop_totals fos messages [] F) as (s & E' & _).
    congruence.
  - apply damage_loop_fails.
Qed.

Lemma aggregate_totals (fos : str -> option float) (messages : list msg)
    (stats : dict dstat) :
  aggregate_user_damage fos messages = Ok stats ->
  forall u,
    userDamage (stat_of stats u) = fsum (user_values fos u messages) 0
    /\ bossDamage (stat_of stats u) = fsum (boss_values fos u messages) 0
    /\ dict_mem stats u = seen fos u messages.
Proof.
  intros E u. unfold aggregate_user_damage in E.
  destruct (fails fos messages) eqn:F.
  - destruct (damage_loop_fails fos messages [] F); congruence.
  - destruct (damage_loop_totals fos messages [] F) as (s & E' & H).
    rewrite E in E'. injection E' as <-. apply (H u).
Qed.

(** C6, as the code has it.  Let [whole] hold the events of [part1] and
    [part2] in any order.  Aggregating [whole] raises exactly when
    aggregating one of the parts does.  Otherwise the actors of the result
    are those of the two parts, every total is the float sum, from 0.0 and
    in the order of the events, of the values that the events add to it,
    and the values added in [whole] are those added in the two parts, up
    to their order. *)
Theorem aggregation_up_to_order (fos : str -> option float)
    (whole part1 part2 : list msg) :
  Permutation whole (part1 ++ part2) ->
  ((exists e, aggregate_user_damage fos whole = Raise e) <->
   (exists e, aggregate_user_damage fos part1 = Raise e)
   \/ (exists e, aggregate_user_damage fos part2 = Raise e))
  /\ forall s s1 s2,
       aggregate_user_damage fos whole = Ok s ->
       aggregate_user_damage fos part1 = Ok s1 ->
       aggregate_user_damage fos part2 = Ok s2 ->
       forall u,
         dict_mem s u = dict_mem s1 u || dict_mem s2 u
         /\ userDamage (stat_of s u) = fsum (user_values fos u whole) 0
         /\ userDamage (stat_of s1 u) = fsum (user_values fos u part1) 0
         /\ userDamage (stat_of s2 u) = fsum (user_values fos u part2) 0
         /\ Permutation (user_values fos u whole)
                        (user_values fos u part1 ++ user_values fos u part2)
         /\ bossDamage (stat_of s u) = fsum (boss_values fos u whole) 0
         /\ bossDamage (stat_of s1 u) = fsum (boss_values fos u part1) 0
         /\ bossDamage (stat_of s2 u) = fsum (boss_values fos u part2) 0
         /\ Permutation (boss_values fos u whole)
                        (boss_values fos u part1 ++ boss_values fos u part2).
Proof.
  intros P. split.
  - rewrite !aggregate_raises_iff. unfold fails.
    rewrite (existsb_Permutation _ _ _ P), existsb_app, orb_true_iff. tauto.
  - intros s s1 s2 E E1 E2 u.
    destruct (aggregate_totals fos whole s E u) as (A & B & C).
    destruct (aggregate_totals fos part1 s1 E1 u) as (A1 & B1 & C1).
    destruct (aggregate_totals fos part2 s2 E2 u) as (A2 & B2 & C2).
    repeat split; auto.
    + rewrite C, C1, C2. unfold seen.
      rewrite (existsb_Permutation _ _ _ P), existsb_app. reflexivity.
    + unfold user_values. rewrite <- flat_map_app.
      apply Permutation_flat_map, P.
    + unfold boss_values. rewrite <- flat_map_app.
      apply Permutation_flat_map, P.
Qed.

Lemma aggregation_up_to_order_witness :
  Permutation [dmg bob 2; dmg alice 0.1; dmg alice 0.2]
              ([dmg alice 0.1; dmg bob 2] ++ [dmg alice 0.2])
  /\ dict_mem [(bob, mkStat (0 + 2) 0); (alice, mkStat (0 + 0.1 + 0.2) 0)] alice
     = dict_mem [(alice, mkStat (0 + 0.1) 0); (bob, mkStat (0 + 2) 0)] alice
       || dict_mem [(alice, mkStat (0 + 0.2) 0)] alice.
Proof.
  assert (P : Permutation [dmg bob 2; dmg alice 0.1; dmg alice 0.2]
                          ([dmg alice 0.1; dmg bob 2] ++ [dmg alice 0.2]))
    by (simpl; apply perm_swap).
  split; [exact P|].
  apply (proj2 (aggregation_up_to_order (fun _ => None) _ _ _ P)
               _ _ _ eq_refl eq_refl eq_refl alice).
Defined.

(** C6 as stated fails: float addition is not associative, so the total of
    an actor depends on the order of the events. *)
Lemma aggregation_depends_on_order :
  ~ (forall (fos : str -> option float) l1 l2 s1 s2,
        Permutation l1 l2 ->
        aggregate_user_damage fos l1 = Ok s1 ->
        aggregate_user_damage fos l2 = Ok s2 ->
        forall u, userDamage (stat_of s1 u) = userDamage (stat_of s2 u)).
Proof.
  intros H.
  pose (l1 := [dmg alice 0.1; dmg alice 0.2; dmg alice 0.3]).
  pose (l2 := [dmg alice 0.3; dmg alice 0.2; dmg alice 0.1]).
  assert (P : Permutation l1 l2).
  { unfold l1, l2. apply Permutation_rev. }
  specialize (H (fun _ => None) l1 l2
                [(alice, mkStat (0 + 0.1 + 0.2 + 0.3) 0)]
                [(alice, mkStat (0 + 0.3 + 0.2 + 0.1) 0)]
                P eq_refl eq_refl alice).
  vm_compute in H. revert H. apply float_neq; reflexivity.
Qed.

Lemma not_none_cases (v : pyval) :
  (v = VNone /\ not_none (Some v) = None)
  \/ (v <> VNone /\ not_none (Some v) = Some v).
Proof. destruct v; simpl; auto; right; split; congruence. Qed.

Lemma field_value_some (fos : str -> option float) (o : option pyval)
    (x : float) :
  field_value fos o = Ok (Some x) ->
  exists v, o = Some v /\ py_float fos v = Ok x.
Proof.
  unfold field_value. destruct o as [v|]; [|simpl; discriminate].
  destruct (not_none_cases v) as [(_ & ->) | (_ & ->)]; try discriminate.
  destruct (py_float fos v) eqn:E; simpl; try discriminate.
  intros H. exists v. split; congruence.
Qed.

Lemma field_value_non_numeric (fos : str -> option float) (v : pyval) :
  non_numeric fos v ->
  (v = VNone /\ field_value fos (Some v) = Ok None)
  \/ (v <> VNone
      /\ exists e, field_value fos (Some v) = Raise e /\ caught e = true).
Proof.
  intros H. unfold field_value.
  destruct (not_none_cases v) as [(N & ->) | (N & ->)]; auto.
  right. split; auto.
  destruct H as [-> | ->]; eexists; split; reflexivity.
Qed.

(** The totals of [k] after an event that adds [a] and [b] for [u]. *)
Lemma apply_effect_add (stats : dict dstat) (u : str) (a b : option float)
    (stats' : dict dstat) (k : str) :
  apply_effect stats (Add u a b) = Ok stats' ->
  (k <> u /\ stat_of stats' k = stat_of stats k)
  \/ (k = u
      /\ userDamage (stat_of stats' k)
         = match a with
           | Some x => (userDamage (stat_of stats k) + x)%float
           | None => userDamage (stat_of stats k)
           end
      /\ bossDamage (stat_of stats' k)
         = match b with
           | Some y => (bossDamage (stat_of stats k) + y)%float
           | None => bossDamage (stat_of stats k)
           end).
Proof.
  simpl. intros E. injection E as <-. rewrite stat_of_add.
  destruct (str_eqb u k) eqn:K.
  - apply str_eqb_eq in K. right. destruct a, b; simpl; auto.
  - apply str_eqb_neq in K. left. auto.
Qed.

Lemma damage_step_cases (fos : str -> option float) (stats : dict dstat)
    (m : msg) (stats' : dict dstat) :
  damage_step fos stats m = Ok stats' ->
  (truthy_user (i_user (get_info m)) = None /\ stats' = stats)
  \/ exists u a b,
       truthy_user (i_user (get_info m)) = Some u
       /\ apply_effect stats (Add u a b) = Ok stats'
       /\ (forall x, a = Some x ->
             exists v, i_userDamage (get_info m) = Some v
                       /\ py_float fos v = Ok x)
       /\ (forall y, b = Some y ->
             exists v, i_bossDamage (get_info m) = Some v
                       /\ py_float fos v = Ok y)
       /\ (forall v, i_userDamage (get_info m) = Some v -> non_numeric fos v ->
             a = None /\ (v <> VNone -> b = None))
       /\ (forall v, i_bossDamage (get_info m) = Some v -> non_numeric fos v ->
             b = None).
Proof.
  rewrite damage_step_effect. unfold event_effect.
  destruct (truthy_user (i_user (get_info m))) as [u|].
  2:{ simpl. intros E. left. split; congruence. }
  intros E. right.
  assert (NA : forall a v,
             field_value fos (i_userDamage (get_info m)) = Ok a ->
             i_userDamage (get_info m) = Some v -> non_numeric fos v ->
             a = None /\ v = VNone).
  { intros a v Ea Hv N. rewrite Hv in Ea.
    destruct (field_value_non_numeric fos v N) as [(? & F) | (_ & e & F & _)];
      split; congruence. }
  assert (NB : forall b v,
             field_value fos (i_bossDamage (get_info m)) = Ok b ->
             i_bossDamage (get_info m) = Some v -> non_numeric fos v ->
             b = None).
  { intros b v Eb Hv N. rewrite Hv in Eb.
    destruct (field_value_non_numeric fos v N) as [(? & F) | (_ & e & F & _)];
      congruence. }
  destruct (field_value fos (i_userDamage (get_info m))) as [a|ea] eqn:Ea.
  - destruct (field_value fos (i_bossDamage (get_info m))) as [b|eb] eqn:Eb.
    + exists u, a, b. split; [reflexivity | split; [exact E|]].
      split; [|split; [|split]].
      * intros x ->. apply (field_value_some fos _ _ Ea).
      * intros y ->. apply (field_value_some fos _ _ Eb).
      * intros v Hv N. destruct (NA a v eq_refl Hv N) as (-> & ->).
        split; congruence.
      * intros v Hv N. apply (NB b v eq_refl Hv N).
    + destruct (caught eb) eqn:C; [|discriminate].
      exists u, a, None. split; [reflexivity | split; [exact E|]].
      split; [|split; [|split]]; auto; try discriminate.
      * intros x ->. apply (field_value_some fos _ _ Ea).
      * intros v Hv N. destruct (NA a v eq_refl Hv N) as (-> & ->).
        split; congruence.
  - destruct (caught ea) eqn:C; [|discriminate].
    exists u, None, None. split; [reflexivity | split; [exact E|]].
    split; [|split; [|split]]; auto; discriminate.
Qed.

(** One event changes a total only by adding to it the float value of
    its own field; a value that the coercion rejects adds nothing. *)
Lemma damage_step_change (fos : str -> option float) (stats : dict dstat)
    (m : msg) (stats' : dict dstat) :
  damage_step fos stats m = Ok stats' ->
  forall k,
    (userDamage (stat_of stats' k) = userDamage (stat_of stats k)
     \/ exists v x,
          truthy_user (i_user (get_info m)) = Some k
          /\ i_userDamage (get_info m) = Some v /\ py_float fos v = Ok x
          /\ userDamage (stat_of stats' k)
             = (userDamage (stat_of stats k) + x)%float)
    /\ (bossDamage (stat_of stats' k) = bossDamage (stat_of stats k)
        \/ exists v x,
             truthy_user (i_user (get_info m)) = Some k
             /\ i_bossDamage (get_info m) = Some v /\ py_float fos v = Ok x
             /\ bossDamage (stat_of stats' k)
                = (bossDamage (stat_of stats k) + x)%float)
    /\ (forall v, i_userDamage (get_info m) = Some v -> non_numeric fos v ->
          userDamage (stat_of stats' k) = userDamage (stat_of stats k)
          /\ (v <> VNone ->
              bossDamage (stat_of stats' k) = bossDamage (stat_of stats k)))
    /\ (forall v, i_bossDamage (get_info m) = Some v -> non_numeric fos v ->
          bossDamage (stat_of stats' k) = bossDamage (stat_of stats k)).
Proof.
  intros E k.
  destruct (damage_step_cases fos stats m stats' E)
    as [(_ & ->) | (u & a & b & Hu & Ha & Sa & Sb & Na & Nb)].
  { repeat split; auto. }
  destruct (apply_effect_add stats u a b stats' k Ha)
    as [(_ & ->) | (-> & Ua & Ub)].
  { repeat split; auto. }
  rewrite Ua, Ub. split; [|split; [|split]].
  - destruct a as [x|]; auto.
    destruct (Sa x eq_refl) as (v & Hv & Hx). right. exists v, x. auto.
  - destruct b as [y|]; auto.
    destruct (Sb y eq_refl) as (v & Hv & Hy). right. exists v, y. auto.
  - intros v Hv N. destruct (Na v Hv N) as (-> & Hb).
    split; auto. intros NN. rewrite (Hb NN). reflexivity.
  - intros v Hv N. rewrite (Nb v Hv N). reflexivity.
Qed.

Lemma damage_step_monotone (fos : str -> option float) (stats : dict dstat)
    (m : msg) (stats' : dict dstat) :
  nonneg_totals stats -> nonneg_values fos m ->
  damage_step fos stats m = Ok stats' ->
  nonneg_totals stats'
  /\ forall k,
       PrimFloat.leb (userDamage (stat_of stats k))
                     (userDamage (stat_of stats' k)) = true
       /\ PrimFloat.leb (bossDamage (stat_of stats k))
                        (bossDamage (stat_of stats' k)) = true.
Proof.
  intros T V E.
  assert (H : forall k,
             (PrimFloat.leb (userDamage (stat_of stats k))
                            (userDamage (stat_of stats' k)) = true
              /\ PrimFloat.leb 0 (userDamage (stat_of stats' k)) = true)
             /\ (PrimFloat.leb (bossDamage (stat_of stats k))
                               (bossDamage (stat_of stats' k)) = true
                 /\ PrimFloat.leb 0 (bossDamage (stat_of stats' k)) = true)).
  { intros k. destruct (T k) as (Tu & Tb).
    destruct (damage_step_change fos stats m stats' E k)
      as (Cu & Cb & _).
    split.
    - destruct Cu as [-> | (v & x & _ & Hv & Hx & ->)].
      + split; auto using float_leb_refl.
      + apply float_add_nonneg; auto. apply (V v x); auto.
    - destruct Cb as [-> | (v & x & _ & Hv & Hx & ->)].
      + split; auto using float_leb_refl.
      + apply float_add_nonneg; auto. apply (V v x); auto. }
  split; intros k; destruct (H k) as ((? & ?) & (? & ?)); auto.
Qed.

Lemma damage_loop_monotone (fos : str -> option float) (messages : list msg) :
  forall stats stats',
    damage_loop fos stats messages = Ok stats' ->
    nonneg_totals stats ->
    (forall m, In m messages -> nonneg_values fos m) ->
    nonneg_totals stats'
    /\ forall k,
         PrimFloat.leb (userDamage (stat_of stats k))
                       (userDamage (stat_of stats' k)) = true
         /\ PrimFloat.leb (bossDamage (stat_of stats k))
                          (bossDamage (stat_of stats' k)) = true.
Proof.
  induction messages as [|m ms IH]; intros stats stats' E T V; simpl in E.
  - injection E as <-. split; auto.
    intros k. destruct (T k). split; auto using float_leb_refl.
  - destruct (damage_step fos stats m) as [s1|] eqn:S; simpl in E;
      [|discriminate].
    destruct (damage_step_monotone fos stats m s1 T (V m (or_introl eq_refl)) S)
      as (T1 & M1).
    destruct (IH s1 stats' E T1 (fun x Hx => V x (or_intror Hx))) as (T2 & M2).
    split; auto. intros k. destruct (M1 k), (M2 k).
    split; eapply float_leb_trans; eauto.
Qed.

Lemma damage_loop_app (fos : str -> option float) (l1 l2 : list msg) :
  forall stats,
    damage_loop fos stats (l1 ++ l2)
    = (s1 <- damage_loop fos stats l1 ;; damage_loop fos s1 l2).
Proof.
  induction l1 as [|m l1 IH]; intros stats; simpl; auto.
  destruct (damage_step fos stats m); simpl; auto.
Qed.

(** C9, as the code has it.  One event changes a total only by adding to
    it the float value of its own field: every total is either unchanged
    or the float sum of its old value and that number.  A value that the
    coercion rejects adds nothing: a malformed [userDamage] leaves every
    [userDamage] total as it was (and, unless it is [None], every
    [bossDamage] total too), a malformed [bossDamage] leaves every
    [bossDamage] total as it was.  When no event supplies a number below
    zero or a NaN, the totals after any prefix of the events are at most
    the totals after all of them, and no total is negative or NaN. *)
Theorem damage_totals (fos : str -> option float) :
  (forall stats m stats',
      damage_step fos stats m = Ok stats' ->
      forall k,
        (userDamage (stat_of stats' k) = userDamage (stat_of stats k)
         \/ exists v x,
              truthy_user (i_user (get_info m)) = Some k
              /\ i_userDamage (get_info m) = Some v /\ py_float fos v = Ok x
              /\ userDamage (stat_of stats' k)
                 = (userDamage (stat_of stats k) + x)%float)
        /\ (bossDamage (stat_of stats' k) = bossDamage (stat_of stats k)
            \/ exists v x,
                 truthy_user (i_user (get_info m)) = Some k
                 /\ i_bossDamage (get_info m) = Some v /\ py_float fos v = Ok x
                 /\ bossDamage (stat_of stats' k)
                    = (bossDamage (stat_of stats k) + x)%float)
        /\ (forall v, i_userDamage (get_info m) = Some v -> non_numeric fos v ->
              userDamage (stat_of stats' k) = userDamage (stat_of stats k)
              /\ (v <> VNone ->
                  bossDamage (stat_of stats' k) = bossDamage (stat_of stats k)))
        /\ (forall v, i_bossDamage (get_info m) = Some v -> non_numeric fos v ->
              bossDamage (stat_of stats' k) = bossDamage (stat_of stats k)))
  /\ (forall before_ after s1 s2,
        (forall m, In m (before_ ++ after) -> nonneg_values fos m) ->
        aggregate_user_damage fos before_ = Ok s1 ->
        aggregate_user_damage fos (before_ ++ after) = Ok s2 ->
        forall k,
          PrimFloat.leb (userDamage (stat_of s1 k))
                        (userDamage (stat_of s2 k)) = true
          /\ PrimFloat.leb (bossDamage (stat_of s1 k))
                           (bossDamage (stat_of s2 k)) = true
          /\ PrimFloat.leb 0 (userDamage (stat_of s2 k)) = true
          /\ PrimFloat.leb 0 (bossDamage (stat_of s2 k)) = true).
Proof.
  split; [apply damage_step_change|].
  intros l1 l2 s1 s2 V E1 E2 k.
  unfold aggregate_user_damage in *. rewrite damage_loop_app, E1 in E2.
  simpl in E2.
  assert (T0 : nonneg_totals []) by (intros x; split; reflexivity).
  destruct (damage_loop_monotone fos l1 [] s1 E1 T0
              (fun m Hm => V m (in_or_app _ _ _ (or_introl Hm))))
    as (T1 & _).
  destruct (damage_loop_monotone fos l2 s1 s2 E2 T1
              (fun m Hm => V m (in_or_app _ _ _ (or_intror Hm))))
    as (T2 & M).
  destruct (M k), (T2 k). auto.
Qed.

Lemma nonneg_values_dmg (fos : str -> option float) (u : str) (f : float) :
  PrimFloat.leb 0 f = true -> nonneg_values fos (dmg u f).
Proof.
  intros L v x [Hv | Hv] Hx; simpl in Hv; [|discriminate].
  assert (E : v = VFloat f) by congruence. subst v. simpl in Hx.
  assert (E : x = f) by congruence. subst x. exact L.
Qed.

Lemma damage_totals_witness :
  PrimFloat.leb (userDamage (stat_of [(alice, mkStat (0 + 10) 0)] alice))
                (userDamage (stat_of [(alice, mkStat (0 + 10 + 0.5) 0)] alice))
  = true.
Proof.
  assert (V : forall m, In m ([dmg alice 10] ++ [dmg alice 0.5]) ->
                        nonneg_values (fun _ => None) m).
  { intros m [<- | [<- | []]]; apply nonneg_values_dmg; reflexivity. }
  apply (proj2 (damage_totals (fun _ => None))
               [dmg alice 10] [dmg alice 0.5]
               [(alice, mkStat (0 + 10) 0)] [(alice, mkStat (0 + 10 + 0.5) 0)]
               V eq_refl eq_refl alice).
Defined.

(** C9 as stated fails: a negative value lowers a total, and the totals
    it leaves are negative. *)
Lemma totals_can_decrease :
  ~ (forall (fos : str -> option float) stats m stats' u,
        damage_step fos stats m = Ok stats' ->
        PrimFloat.leb (userDamage (stat_of stats u))
                      (userDamage (stat_of stats' u)) = true
        /\ PrimFloat.leb 0 (userDamage (stat_of stats' u)) = true).
Proof.
  intros H.
  destruct (H (fun _ => None) [] (dmg alice (-5)) [(alice, mkStat (0 + -5) 0)]
              alice eq_refl) as (M & _).
  vm_compute in M. discriminate.
Qed.

(** ** Stability of the ranking *)

Lemma before_cons {A : Type} (x y z : A) (l : list A) :
  before x y l -> before x y (z :: l).
Proof. intros (a & b & c & ->). exists (z :: a), b, c. reflexivity. Qed.

Lemma before_head {A : Type} (x y : A) (l : list A) :
  In y l -> before x y (x :: l).
Proof.
  intros I. apply in_split in I. destruct I as (b & c & ->).
  exists [], b, c. reflexivity.
Qed.

Lemma before_inv {A : Type} (x y z : A) (l : list A) :
  before x y (z :: l) -> (z = x /\ In y l) \/ before x y l.
Proof.
  intros ([|z' a] & b & c & E); simpl in E; injection E as -> ->.
  - left. split; auto. apply in_or_app. right. left. reflexivity.
  - right. exists a, b, c. reflexivity.
Qed.

Lemma before_app_l {A : Type} (x y : A) (l l' : list A) :
  before x y l -> before x y (l ++ l').
Proof.
  intros (a & b & c & ->). exists a, b, (c ++ l').
  repeat (rewrite <- app_assoc; simpl). reflexivity.
Qed.

Lemma before_app_r {A : Type} (x y : A) (l l' : list A) :
  before x y l' -> before x y (l ++ l').
Proof.
  intros (a & b & c & ->). exists (l ++ a), b, c.
  rewrite <- app_assoc. reflexivity.
Qed.

Lemma before_app_mid {A : Type} (x y : A) (l l' : list A) :
  In x l -> In y l' -> before x y (l ++ l').
Proof.
  intros Ix Iy. apply in_split in Ix. destruct Ix as (a & b & ->).
  apply in_split in Iy. destruct Iy as (c & d & ->).
  exists a, (b ++ c), d. repeat (rewrite <- app_assoc; simpl). reflexivity.
Qed.

Lemma before_In {A : Type} (x y : A) (l : list A) :
  before x y l -> In x l /\ In y l.
Proof.
  intros (a & b & c & ->). split; apply in_or_app; right.
  - left; reflexivity.
  - right. apply in_or_app. right. left. reflexivity.
Qed.

Lemma before_map {A B : Type} (f : A -> B) (x y : A) (l : list A) :
  before x y l -> before (f x) (f y) (map f l).
Proof.
  intros (a & b & c & ->). exists (map f a), (map f b), (map f c).
  rewrite !map_app. simpl. rewrite map_app. reflexivity.
Qed.

Lemma before_firstn {A : Type} (n : nat) (x y : A) (l : list A) :
  before x y l -> NoDup l -> In y (firstn n l) -> before x y (firstn n l).
Proof.
  revert l. induction n as [|n IH]; intros l B N I; simpl in *; [tauto|].
  destruct l as [|z l]; simpl in *; [tauto|].
  inversion N as [|? ? Nz Nl]; subst.
  apply before_inv in B. destruct B as [(-> & Iy) | B].
  - destruct I as [-> | I]; [contradiction|]. apply before_head, I.
  - destruct I as [-> | I].
    + apply before_In in B. tauto.
    + apply before_cons, IH; auto.
Qed.

Lemma before_insert {A : Type} (a b x : A) (p q : list A) :
  before a b (p ++ q) -> before a b (p ++ x :: q).
Proof.
  induction p as [|z p IH]; simpl; intros B.
  - apply before_cons, B.
  - apply before_inv in B. destruct B as [(-> & I) | B].
    + apply before_head. apply in_app_or in I. apply in_or_app.
      simpl. tauto.
    + apply before_cons, IH, B.
Qed.

Lemma before_insert_inv {A : Type} (a b x : A) (p q : list A) :
  before a b (p ++ x :: q) ->
  before a b (p ++ q) \/ (a = x /\ In b q) \/ (b = x /\ In a p).
Proof.
  induction p as [|z p IH]; simpl; intros B.
  - apply before_inv in B. destruct B as [(-> & I) | B]; auto.
  - apply before_inv in B. destruct B as [(-> & I) | B].
    + apply in_app_or in I. destruct I as [I | [<- | I]].
      * left. apply before_head, in_or_app. auto.
      * right. right. auto.
      * left. apply before_head, in_or_app. auto.
    + destruct (IH B) as [B' | [(-> & I) | (-> & I)]].
      * left. apply before_cons, B'.
      * right. left. auto.
      * right. right. auto.
Qed.

Lemma before_nil {A : Type} (x y : A) : ~ before x y [].
Proof. intros (a & b & c & H). now destruct a. Qed.

Lemma before_app_inv {A : Type} (x y : A) (l1 l2 : list A) :
  before x y (l1 ++ l2) ->
  before x y l1 \/ (In x l1 /\ In y l2) \/ before x y l2.
Proof.
  induction l1 as [|z l1 IH]; simpl; intros B; auto.
  apply before_inv in B. destruct B as [(-> & I) | B].
  - apply in_app_or in I. destruct I as [I|I].
    + left. now apply before_head.
    + right. left. auto.
  - destruct (IH B) as [H|[(H1 & H2)|H]]; auto.
    left. now apply before_cons.
Qed.

Lemma before_rev {A : Type} (x y : A) (l : list A) :
  before x y l -> before y x (rev l).
Proof.
  intros (a & b & c & ->).
  exists (rev c), (rev b), (rev a).
  rewrite !rev_app_distr. simpl. rewrite !rev_app_distr. simpl.
  repeat (rewrite <- app_assoc; simpl). reflexivity.
Qed.

Section SortPermutation.

Context {A K : Type}.
Variables (key : A -> K) (lt : K -> K -> bool).

Lemma run_asc_spec (l : list A) :
  forall prev r rest, run_asc key lt prev l = (r, rest) ->
    l = r ++ rest /\ asc_chain key lt prev r.
Proof.
  induction l as [|x l IH]; simpl; intros prev r rest E.
  - assert (r = []) by congruence. assert (rest = []) by congruence.
    subst. simpl. auto.
  - destruct (lt (key x) (key prev)) eqn:L.
    + assert (r = []) by congruence. assert (rest = x :: l) by congruence.
      subst. simpl. auto.
    + destruct (run_asc key lt x l) as [r' rest'] eqn:R.
      destruct (IH x r' rest' R) as [-> C].
      assert (r = x :: r') by congruence. assert (rest = rest') by congruence.
      subst. simpl. auto.
Qed.

Lemma run_desc_spec (l : list A) :
  forall prev r rest, run_desc key lt prev l = (r, rest) ->
    l = r ++ rest /\ desc_chain key lt prev r.
Proof.
  induction l as [|x l IH]; simpl; intros prev r rest E.
  - assert (r = []) by congruence. assert (rest = []) by congruence.
    subst. simpl. auto.
  - destruct (lt (key x) (key prev)) eqn:L.
    + destruct (run_desc key lt x l) as [r' rest'] eqn:R.
      destruct (IH x r' rest' R) as [-> C].
      assert (r = x :: r') by congruence. assert (rest = rest') by congruence.
      subst. simpl. auto.
    + assert (r = []) by congruence. assert (rest = x :: l) by congruence.
      subst. simpl. auto.
Qed.

(** The run and the rest are the list, cut in two; the run is kept as it
    is when it ascends and reversed when it descends. *)
Lemma first_run_spec (l : list A) (run rest : list A) :
  first_run key lt l = (run, rest) ->
  exists pre,
    l = pre ++ rest
    /\ ((run = pre
         /\ match pre with
            | [] => True
            | x :: r => asc_chain key lt x r
            end)
        \/ (run = rev pre
            /\ match pre with
               | [] => True
               | x :: r => desc_chain key lt x r
               end)).
Proof.
  unfold first_run. destruct l as [|x [|y l]]; intros E.
  - exists []. assert (run = []) by congruence.
    assert (rest = []) by congruence. subst. simpl. auto.
  - exists [x]. assert (run = [x]) by congruence.
    assert (rest = []) by congruence. subst. simpl. auto.
  - destruct (lt (key y) (key x)) eqn:L.
    + destruct (run_desc key lt y l) as [r rest'] eqn:R.
      destruct (run_desc_spec l y r rest' R) as [-> C].
      exists (x :: y :: r).
      assert (run = rev (x :: y :: r)) by congruence.
      assert (rest = rest') by congruence. subst.
      split; [reflexivity|]. right. simpl. auto.
    + destruct (run_asc key lt y l) as [r rest'] eqn:R.
      destruct (run_asc_spec l y r rest' R) as [-> C].
      exists (x :: y :: r).
      assert (run = x :: y :: r) by congruence.
      assert (rest = rest') by congruence. subst.
      split; [reflexivity|]. left. simpl. auto.
Qed.

Lemma bisect_insert_Permutation (fuel : nat) :
  forall pivot p, Permutation (bisect_insert key lt fuel pivot p) (pivot :: p).
Proof.
  induction fuel as [|f IH]; intros pivot p; simpl; [reflexivity|].
  destruct p as [|z p']; [reflexivity|].
  set (p := z :: p'). set (m := Nat.div2 (List.length p)).
  destruct (skipn m p) as [|x b] eqn:S.
  - apply Permutation_sym, Permutation_cons_append.
  - assert (E : p = firstn m p ++ x :: b)
      by (rewrite <- S; symmetry; apply firstn_skipn).
    transitivity (pivot :: firstn m p ++ x :: b);
      [|apply perm_skip; rewrite <- E; reflexivity].
    destruct (lt (key pivot) (key x)).
    + rewrite IH. reflexivity.
    + transitivity (firstn m p ++ x :: pivot :: b).
      * apply Permutation_app_head, perm_skip, IH.
      * change (firstn m p ++ x :: pivot :: b)
          with (firstn m p ++ [x] ++ pivot :: b).
        change (pivot :: firstn m p ++ x :: b)
          with (pivot :: firstn m p ++ [x] ++ b).
        rewrite !app_assoc.
        apply Permutation_sym, Permutation_middle.
Qed.

Lemma binarysort_Permutation (rest : list A) :
  forall run, Permutation (binarysort key lt run rest) (run ++ rest).
Proof.
  unfold binarysort. induction rest as [|x rest IH]; intros run; simpl.
  - now rewrite app_nil_r.
  - rewrite IH. unfold binary_insert. rewrite bisect_insert_Permutation.
    simpl. apply Permutation_middle.
Qed.

Lemma list_sort_Permutation (l : list A) :
  Permutation (list_sort key lt l) l.
Proof.
  unfold list_sort. destruct (first_run key lt l) as [run rest] eqn:R.
  destruct (first_run_spec l run rest R) as (pre & -> & [[-> _]|[-> _]]);
    rewrite binarysort_Permutation.
  - reflexivity.
  - apply Permutation_app_tail, Permutation_sym, Permutation_rev.
Qed.

(** [sorted] rearranges its input, whatever the comparison answers. *)
Lemma sorted_reverse_Permutation (l : list A) :
  Permutation (sorted_reverse key lt l) l.
Proof.
  unfold sorted_reverse.
  rewrite <- Permutation_rev, list_sort_Permutation.
  apply Permutation_sym, Permutation_rev.
Qed.

End SortPermutation.

Section SortStable.

Context {A K : Type}.
Variables (key : A -> K) (lt : K -> K -> bool).

(** The elements whose keys the comparison orders totally. *)
Variable good : A -> Prop.

Hypothesis lt_irrefl : forall k, lt k k = false.
Hypothesis lt_trans :
  forall a b c, lt a b = true -> lt b c = true -> lt a c = true.
Hypothesis lt_total :
  forall x y z, good x -> good y -> good z ->
    lt (key x) (key y) = false -> lt (key y) (key z) = false ->
    lt (key x) (key z) = false.

Lemma lt_asym (a b : K) : lt a b = true -> lt b a = false.
Proof.
  intros H. destruct (lt b a) eqn:E; [|reflexivity].
  pose proof (lt_trans _ _ _ H E) as T. now rewrite lt_irrefl in T.
Qed.

Lemma ascending_app_l (l1 l2 : list A) :
  ascending key lt (l1 ++ l2) -> ascending key lt l1.
Proof. intros H x y B. apply H. now apply before_app_l. Qed.

Lemma ascending_app_r (l1 l2 : list A) :
  ascending key lt (l1 ++ l2) -> ascending key lt l2.
Proof. intros H x y B. apply H. now apply before_app_r. Qed.

Lemma bisect_insert_split (fuel : nat) :
  forall pivot p,
    (List.length p < fuel)%nat -> good pivot ->
    (forall y, In y p -> good y) -> ascending key lt p ->
    exists a b,
      p = a ++ b /\ bisect_insert key lt fuel pivot p = a ++ pivot :: b
      /\ (forall y, In y a -> lt (key pivot) (key y) = false)
      /\ (forall y, In y b -> lt (key pivot) (key y) = true).
Proof.
  induction fuel as [|f IH]; intros pivot p L Gp G S; [lia|].
  cbn [bisect_insert]. destruct p as [|z p'].
  - exists [], []. simpl. tauto.
  - remember (z :: p') as p eqn:Ep.
    assert (Lp : (0 < List.length p)%nat) by (rewrite Ep; simpl; lia).
    clear Ep z p'.
    remember (Nat.div2 (List.length p)) as m eqn:Em.
    assert (Lm : (m < List.length p)%nat)
      by (rewrite Em; apply Nat.lt_div2, Lp).
    clear Em.
    destruct (skipn m p) as [|x b] eqn:Sk.
    { apply (f_equal (@List.length A)) in Sk. rewrite length_skipn in Sk.
      cbn [List.length] in Sk. lia. }
    assert (E : p = firstn m p ++ x :: b)
      by (rewrite <- Sk; symmetry; apply firstn_skipn).
    assert (La : (List.length (firstn m p) < f)%nat)
      by (rewrite length_firstn; lia).
    assert (Lb : (List.length b < f)%nat).
    { apply (f_equal (@List.length A)) in Sk. rewrite length_skipn in Sk.
      cbn [List.length] in Sk. lia. }
    assert (Gx : good x) by (apply G; rewrite E; apply in_elt).
    assert (Ga : forall y, In y (firstn m p) -> good y)
      by (intros y I; apply G; rewrite E; apply in_or_app; auto).
    assert (Gb : forall y, In y b -> good y)
      by (intros y I; apply G; rewrite E; apply in_or_app; simpl; auto).
    assert (Sa : ascending key lt (firstn m p))
      by (apply (ascending_app_l _ (x :: b)); rewrite <- E; exact S).
    assert (Sb : ascending key lt b).
    { apply (ascending_app_r (firstn m p ++ [x])).
      rewrite <- app_assoc. simpl. rewrite <- E. exact S. }
    destruct (lt (key pivot) (key x)) eqn:C.
    + destruct (IH pivot (firstn m p) La Gp Ga Sa)
        as (a & b' & Ea & -> & Ha & Hb).
      exists a, (b' ++ x :: b). split; [|split; [|split]].
      * rewrite E at 1. rewrite Ea at 1. now rewrite <- app_assoc.
      * now rewrite <- app_assoc.
      * exact Ha.
      * intros y I. apply in_app_or in I.
        destruct I as [I|[<-|I]]; auto.
        destruct (lt (key pivot) (key y)) eqn:Cy; [reflexivity|].
        assert (Yx : lt (key y) (key x) = false).
        { apply S. rewrite E. apply before_app_r. now apply before_head. }
        rewrite (lt_total pivot y x Gp (Gb y I) Gx Cy Yx) in C.
        discriminate.
    + destruct (IH pivot b Lb Gp Gb Sb) as (a' & b' & Eb & -> & Ha & Hb).
      exists (firstn m p ++ x :: a'), b'. split; [|split; [|split]].
      * rewrite E at 1. rewrite Eb at 1. rewrite <- app_assoc. reflexivity.
      * rewrite <- app_assoc. reflexivity.
      * intros y I. apply in_app_or in I.
        destruct I as [I|[<-|I]]; auto.
        assert (Xy : lt (key x) (key y) = false).
        { apply S. rewrite E. apply before_app_mid; simpl; auto. }
        exact (lt_total pivot x y Gp Gx (Ga y I) C Xy).
      * exact Hb.
Qed.

Lemma binary_insert_split (pivot : A) (p : list A) :
  good pivot -> (forall y, In y p -> good y) -> ascending key lt p ->
  exists a b,
    p = a ++ b /\ binary_insert key lt pivot p = a ++ pivot :: b
    /\ (forall y, In y a -> lt (key pivot) (key y) = false)
    /\ (forall y, In y b -> lt (key pivot) (key y) = true).
Proof. intros. apply bisect_insert_split; auto. Qed.

Lemma binary_insert_ascending (pivot : A) (p : list A) :
  good pivot -> (forall y, In y p -> good y) -> ascending key lt p ->
  ascending key lt (binary_insert key lt pivot p).
Proof.
  intros Gp G S.
  destruct (binary_insert_split pivot p Gp G S) as (a & b & -> & -> & Ha & Hb).
  intros x y B. apply before_insert_inv in B.
  destruct B as [B | [(-> & I) | (-> & I)]]; auto.
  apply lt_asym, Hb, I.
Qed.

Lemma binary_insert_stable (a pivot : A) (p : list A) :
  good pivot -> (forall y, In y p -> good y) -> ascending key lt p ->
  In a p -> same_key key lt a pivot ->
  before a pivot (binary_insert key lt pivot p).
Proof.
  intros Gp G S I E.
  destruct (binary_insert_split pivot p Gp G S) as (l & r & -> & -> & Hl & Hr).
  apply in_app_or in I. destruct I as [I|I].
  - apply before_app_mid; simpl; auto.
  - exfalso. pose proof (Hr a I) as H.
    rewrite (E (key pivot)), lt_irrefl in H. discriminate.
Qed.

Lemma binary_insert_keeps (a b pivot : A) (p : list A) :
  good pivot -> (forall y, In y p -> good y) -> ascending key lt p ->
  before a b p -> before a b (binary_insert key lt pivot p).
Proof.
  intros Gp G S B.
  destruct (binary_insert_split pivot p Gp G S) as (l & r & E & -> & _).
  apply before_insert. rewrite <- E. exact B.
Qed.

Lemma binarysort_spec (rest : list A) :
  forall acc,
    (forall y, In y acc -> good y) -> (forall y, In y rest -> good y) ->
    ascending key lt acc ->
    let r := binarysort key lt acc rest in
    ascending key lt r
    /\ (forall a b, before a b acc -> before a b r)
    /\ (forall a x, In a acc -> In x rest -> same_key key lt a x ->
                    before a x r)
    /\ (forall a b, before a b rest -> same_key key lt a b -> before a b r).
Proof.
  unfold binarysort.
  induction rest as [|x rest IH]; intros acc Ga Gr S; simpl.
  - repeat split; auto.
    + intros a x _ [].
    + intros a b B. now apply before_nil in B.
  - assert (Gx : good x) by (apply Gr; now left).
    assert (Ga' : forall y, In y (binary_insert key lt x acc) -> good y).
    { intros y I.
      apply (Permutation_in _ (bisect_insert_Permutation key lt _ x acc)) in I.
      destruct I as [<-|I]; auto. }
    destruct (IH (binary_insert key lt x acc) Ga'
                (fun y I => Gr y (or_intror I))
                (binary_insert_ascending x acc Gx Ga S))
      as (S' & B1 & B2 & B3).
    assert (In' : forall a, In a acc -> In a (binary_insert key lt x acc)).
    { intros a I.
      apply (Permutation_in _
               (Permutation_sym (bisect_insert_Permutation key lt _ x acc))).
      now right. }
    assert (Ix : In x (binary_insert key lt x acc)).
    { apply (Permutation_in _
               (Permutation_sym (bisect_insert_Permutation key lt _ x acc))).
      now left. }
    split; [exact S'|split; [|split]].
    + intros a b B. apply B1. now apply binary_insert_keeps.
    + intros a y Ia [<-|Iy] E.
      * apply B1. now apply binary_insert_stable.
      * apply B2; auto.
    + intros a b B E. apply before_inv in B. destruct B as [(-> & I)|B].
      * apply B2; auto.
      * apply B3; auto.
Qed.

Lemma asc_chain_ascending (r : list A) :
  forall prev, good prev -> (forall y, In y r -> good y) ->
    asc_chain key lt prev r ->
    (forall y, In y r -> lt (key y) (key prev) = false)
    /\ ascending key lt (prev :: r).
Proof.
  induction r as [|x r IH]; intros prev Gp G C.
  - split; [intros y []|].
    intros a b B. apply before_inv in B.
    destruct B as [(_ & [])|B]. now apply before_nil in B.
  - destruct C as [L C].
    assert (Gx : good x) by (apply G; now left).
    destruct (IH x Gx (fun y I => G y (or_intror I)) C) as [H S].
    assert (H' : forall y, In y (x :: r) -> lt (key y) (key prev) = false).
    { intros y [<-|I]; auto.
      apply (lt_total y x prev); auto. apply G. now right. }
    split; [exact H'|].
    intros a b B. apply before_inv in B.
    destruct B as [(-> & I)|B]; auto.
Qed.

Lemma desc_chain_descending (r : list A) :
  forall prev, desc_chain key lt prev r ->
    (forall y, In y r -> lt (key y) (key prev) = true)
    /\ forall a b, before a b (prev :: r) -> lt (key b) (key a) = true.
Proof.
  induction r as [|x r IH]; intros prev C.
  - split; [intros y []|].
    intros a b B. apply before_inv in B.
    destruct B as [(_ & [])|B]. now apply before_nil in B.
  - destruct C as [L C]. destruct (IH x C) as [H S].
    assert (H' : forall y, In y (x :: r) -> lt (key y) (key prev) = true).
    { intros y [<-|I]; auto. apply (lt_trans _ (key x)); auto. }
    split; [exact H'|].
    intros a b B. apply before_inv in B.
    destruct B as [(-> & I)|B]; auto.
Qed.

Lemma list_sort_spec (l : list A) :
  (forall y, In y l -> good y) ->
  ascending key lt (list_sort key lt l)
  /\ forall a b, before a b l -> same_key key lt a b ->
       before a b (list_sort key lt l).
Proof.
  intros G. unfold list_sort.
  destruct (first_run key lt l) as [run rest] eqn:R.
  destruct (first_run_spec key lt l run rest R) as (pre & -> & H).
  assert (Gpre : forall y, In y pre -> good y)
    by (intros y I; apply G, in_or_app; auto).
  assert (Grest : forall y, In y rest -> good y)
    by (intros y I; apply G, in_or_app; auto).
  assert (Hrun : (forall y, In y run <-> In y pre)
                 /\ ascending key lt run
                 /\ forall a b, before a b pre -> same_key key lt a b ->
                      before a b run).
  { destruct H as [[-> C]|[-> C]].
    - split; [tauto|]. split; [|auto].
      destruct pre as [|x r]; [intros a b B; now apply before_nil in B|].
      apply (asc_chain_ascending r x); auto.
      + apply Gpre. now left.
      + intros y I. apply Gpre. now right.
    - split; [intros y; rewrite <- in_rev; tauto|].
      destruct pre as [|x r].
      + split; intros a b B; now apply before_nil in B.
      + destruct (desc_chain_descending r x C) as [_ D]. split.
        * intros a b B. apply before_rev in B. rewrite rev_involutive in B.
          apply lt_asym. rewrite <- (D b a B). reflexivity.
        * intros a b B E. exfalso. pose proof (D a b B) as T.
          rewrite (E (key b)), lt_irrefl in T. discriminate. }
  destruct Hrun as (Irun & Srun & Brun).
  destruct (binarysort_spec rest run
              (fun y I => Gpre y (proj1 (Irun y) I)) Grest Srun)
    as (S & B1 & B2 & B3).
  split; [exact S|].
  intros a b B E. apply before_app_inv in B.
  destruct B as [B|[(Ia & Ib)|B]].
  - apply B1, Brun; auto.
  - apply B2; auto. now apply Irun.
  - apply B3; auto.
Qed.

Lemma same_key_sym (a b : A) : same_key key lt a b -> same_key key lt b a.
Proof. intros E k. symmetry. apply E. Qed.

(** On elements that the comparison orders totally, [sorted] with
    [reverse=True] gives a descending list and is stable: two elements
    with the same key keep the order they have in the input. *)
Lemma sorted_reverse_descending (l : list A) :
  (forall y, In y l -> good y) ->
  descending key lt (sorted_reverse key lt l).
Proof.
  intros G x y B. unfold sorted_reverse in B.
  apply before_rev in B. rewrite rev_involutive in B.
  destruct (list_sort_spec (rev l)) as [S _].
  - intros z I. apply G. now apply in_rev.
  - exact (S y x B).
Qed.

Lemma sorted_reverse_stable (l : list A) (a b : A) :
  (forall y, In y l -> good y) ->
  before a b l -> same_key key lt a b ->
  before a b (sorted_reverse key lt l).
Proof.
  intros G B E. unfold sorted_reverse.
  destruct (list_sort_spec (rev l)) as [_ S].
  - intros z I. apply G. now apply in_rev.
  - rewrite <- (rev_involutive (rev (list_sort key lt (rev l)))).
    apply before_rev. rewrite rev_involutive.
    apply S; [now apply before_rev | now apply same_key_sym].
Qed.

End SortStable.

Lemma SFltb_irrefl (a : spec_float) : SFltb a a = false.
Proof.
  unfold SFltb, SFcompare.
  destruct a as [s|s| |s m e]; try destruct s; simpl; auto;
    rewrite Z.compare_refl;
    change (Pos.compare_cont Eq m m) with (Pos.compare m m);
    rewrite Pos.compare_refl; reflexivity.
Qed.

Lemma SFltb_trans (a b c : spec_float) :
  SFltb a b = true -> SFltb b c = true -> SFltb a c = true.
Proof.
  unfold SFltb, SFcompare.
  destruct a as [sa|sa| |sa ma ea], b as [sb|sb| |sb mb eb],
           c as [sc|sc| |sc mc ec];
    try destruct sa; try destruct sb; try destruct sc; simpl;
    try congruence;
    repeat match goal with
           | |- context [Pos.compare_cont Eq ?x ?y] =>
               change (Pos.compare_cont Eq x y) with (Pos.compare x y)
           end;
    repeat match goal with
           | |- context [Z.compare ?x ?y] => destruct (Z.compare_spec x y)
           | |- context [Pos.compare ?x ?y] => destruct (Pos.compare_spec x y)
           end; simpl; try congruence; try lia.
Qed.

Lemma float_ltb_irrefl (a : float) : PrimFloat.ltb a a = false.
Proof. rewrite ltb_spec. apply SFltb_irrefl. Qed.

Lemma float_ltb_trans (a b c : float) :
  PrimFloat.ltb a b = true -> PrimFloat.ltb b c = true ->
  PrimFloat.ltb a c = true.
Proof. rewrite !ltb_spec. apply SFltb_trans. Qed.

Lemma SFltb_total (a b c : spec_float) :
  SFeqb a a = true -> SFeqb b b = true -> SFeqb c c = true ->
  SFltb a b = false -> SFltb b c = false -> SFltb a c = false.
Proof.
  unfold SFltb, SFeqb, SFcompare.
  destruct a as [sa|sa| |sa ma ea], b as [sb|sb| |sb mb eb],
           c as [sc|sc| |sc mc ec];
    try destruct sa; try destruct sb; try destruct sc; simpl;
    try congruence;
    repeat match goal with
           | |- context [Pos.compare_cont Eq ?x ?y] =>
               change (Pos.compare_cont Eq x y) with (Pos.compare x y)
           end;
    repeat match goal with
           | |- context [Z.compare ?x ?y] => destruct (Z.compare_spec x y)
           | |- context [Pos.compare ?x ?y] => destruct (Pos.compare_spec x y)
           end; simpl; try congruence; try lia.
Qed.

(** On floats other than NaN, [<] is a total order up to equality. *)
Lemma float_ltb_total (a b c : float) :
  is_nan a = false -> is_nan b = false -> is_nan c = false ->
  PrimFloat.ltb a b = false -> PrimFloat.ltb b c = false ->
  PrimFloat.ltb a c = false.
Proof.
  unfold is_nan. rewrite !negb_false_iff, !eqb_spec, !ltb_spec.
  apply SFltb_total.
Qed.

Lemma Z_ltb_total (a b c : Z) :
  Z.ltb a b = false -> Z.ltb b c = false -> Z.ltb a c = false.
Proof. rewrite !Z.ltb_ge. lia. Qed.

Lemma Z_ltb_trans (a b c : Z) :
  Z.ltb a b = true -> Z.ltb b c = true -> Z.ltb a c = true.
Proof. rewrite !Z.ltb_lt. lia. Qed.

(** *** The order of the keys of an aggregate *)

Section FirstSeen.

Context {V : Type}.

(** A loop body that, when it does not raise, makes sure that the actor
    of the event has an entry and changes no other key. *)
Variables (step : dict V -> msg -> result (dict V)) (actor : msg -> option str).

Hypothesis step_keys :
  forall s m s', step s m = Ok s' ->
    keys s' = match actor m with
              | Some u => if dict_mem s u then keys s else keys s ++ [u]
              | None => keys s
              end.

Lemma for_each_app (l1 l2 : list msg) :
  forall s,
    for_each step s (l1 ++ l2)
    = (s1 <- for_each step s l1 ;; for_each step s1 l2).
Proof.
  induction l1 as [|m l1 IH]; intros s; simpl; auto.
  destruct (step s m); simpl; auto.
Qed.

Lemma for_each_keys (messages : list msg) :
  forall s s', for_each step s messages = Ok s' ->
    NoDup (keys s) ->
    NoDup (keys s')
    /\ exists extra,
         keys s' = keys s ++ extra
         /\ forall k, In k extra ->
              exists m, In m messages /\ actor m = Some k.
Proof.
  induction messages as [|m ms IH]; intros s s' E N; simpl in E.
  - injection E as <-. split; auto. exists []. rewrite app_nil_r.
    split; auto. intros k [].
  - destruct (step s m) as [s1|] eqn:S; simpl in E; [|discriminate].
    pose proof (step_keys s m s1 S) as K.
    assert (N1 : NoDup (keys s1)).
    { rewrite K. destruct (actor m) as [u|]; auto.
      destruct (dict_mem s u) eqn:M; auto.
      apply NoDup_app; auto.
      - constructor; [intros [] | constructor].
      - intros x Ix [<- | []]. apply dict_mem_In in Ix. congruence. }
    destruct (IH s1 s' E N1) as (N' & extra & Ek & Hx).
    split; auto.
    destruct (actor m) as [u|] eqn:Am.
    + destruct (dict_mem s u) eqn:M.
      * exists extra. rewrite Ek, K. split; auto.
        intros k Ik. destruct (Hx k Ik) as (m' & I & Hm). exists m'.
        simpl; auto.
      * exists (u :: extra). rewrite Ek, K, <- app_assoc. split; auto.
        intros k [<- | Ik].
        -- exists m. simpl; auto.
        -- destruct (Hx k Ik) as (m' & I & Hm). exists m'. simpl; auto.
    + exists extra. rewrite Ek, K. split; auto.
      intros k Ik. destruct (Hx k Ik) as (m' & I & Hm). exists m'.
      simpl; auto.
Qed.

Lemma first_seen_keys (messages : list msg) (s : dict V) (u v : str) :
  for_each step [] messages = Ok s ->
  first_seen_before actor u v messages ->
  In v (keys s) ->
  before u v (keys s).
Proof.
  intros E (Huv & l1 & mu & l2 & -> & Au & Nv) Iv.
  rewrite for_each_app in E.
  destruct (for_each step [] l1) as [s1|] eqn:E1; simpl in E; [|discriminate].
  destruct (step s1 mu) as [s2|] eqn:E2; simpl in E; [|discriminate].
  destruct (for_each_keys l1 [] s1 E1 (NoDup_nil _)) as (N1 & x1 & K1 & H1).
  assert (Nv1 : ~ In v (keys s1)).
  { rewrite K1. simpl. intros I. destruct (H1 v I) as (m & Im & Am).
    apply (Nv m Im Am). }
  pose proof (step_keys s1 mu s2 E2) as K2. rewrite Au in K2.
  assert (Iu : In u (keys s2)).
  { rewrite K2. destruct (dict_mem s1 u) eqn:M.
    - apply dict_mem_In, M.
    - apply in_or_app. simpl. auto. }
  assert (Nv2 : ~ In v (keys s2)).
  { rewrite K2. destruct (dict_mem s1 u); auto.
    intros I. apply in_app_or in I. destruct I as [I | [I | []]]; auto. }
  assert (N2 : NoDup (keys s2)).
  { apply (for_each_keys [mu] s1 s2); auto. simpl. rewrite E2. reflexivity. }
  destruct (for_each_keys l2 s2 s E N2) as (N & x2 & K & H2).
  rewrite K in *. apply in_app_or in Iv. destruct Iv as [Iv | Iv]; [tauto|].
  apply before_app_mid; auto.
Qed.

End FirstSeen.

Lemma damage_loop_for_each (fos : str -> option float) (messages : list msg) :
  forall stats,
    damage_loop fos stats messages = for_each (damage_step fos) stats messages.
Proof.
  induction messages as [|m ms IH]; intros stats; simpl; [reflexivity|].
  destruct (damage_step fos stats m); simpl; auto.
Qed.

Lemma skill_loop_for_each (ios : str -> option Z) (messages : list msg) :
  forall skills,
    skill_loop ios skills messages = for_each (skill_step ios) skills messages.
Proof.
  induction messages as [|m ms IH]; intros skills; simpl; [reflexivity|].
  destruct (skill_step ios skills m); simpl; auto.
Qed.

Lemma damage_step_keys (fos : str -> option float) (s : dict dstat) (m : msg)
    (s' : dict dstat) :
  damage_step fos s m = Ok s' ->
  keys s' = match actor_of m with
            | Some u => if dict_mem s u then keys s else keys s ++ [u]
            | None => keys s
            end.
Proof.
  unfold damage_step, actor_of.
  destruct (truthy_user (i_user (get_info m))) as [u|].
  2:{ intros E. injection E as <-. reflexivity. }
  rewrite <- (keys_setdefault s u (mkStat 0 0)).
  unfold try_block, add_field.
  destruct (not_none (i_userDamage (get_info m))) as [x|];
    [destruct (py_float fos x) as [f|[]]|];
    try (intros E; injection E as <-; reflexivity);
    try discriminate;
    (destruct (not_none (i_bossDamage (get_info m))) as [y|];
     [destruct (py_float fos y) as [g|[]]|]);
    try (intros E; injection E as <-; rewrite ?keys_update; reflexivity);
    try discriminate.
Qed.

Lemma skill_step_keys (ios : str -> option Z) (s : dict Z) (m : msg)
    (s' : dict Z) :
  skill_step ios s m = Ok s' ->
  keys s' = match skill_actor_of m with
            | Some u => if dict_mem s u then keys s else keys s ++ [u]
            | None => keys s
            end.
Proof.
  unfold skill_step, skill_actor_of, actor_of, is_skill.
  destruct (opt_str_eqb (i_type (get_info m)) spell_cast_party); simpl.
  2:{ intros E. injection E as <-. reflexivity. }
  destruct (truthy_user (i_user (get_info m))) as [u|].
  2:{ intros E. injection E as <-. reflexivity. }
  destruct (py_int ios (get_times (get_info m))); simpl; [|discriminate].
  intros E. injection E as <-.
  rewrite keys_update. apply keys_setdefault.
Qed.

Lemma before_keys_items {V : Type} (d : dict V) (u v : str) :
  before u v (keys d) -> exists su sv, before (u, su) (v, sv) d.
Proof.
  intros (a & b & c & E). unfold keys in E.
  apply map_eq_app in E. destruct E as (a' & r & -> & Ha & E).
  apply map_eq_cons in E. destruct E as ([u' su] & r' & -> & Hu & E).
  apply map_eq_app in E. destruct E as (b' & r & -> & Hb & E).
  apply map_eq_cons in E. destruct E as ([v' sv] & c' & -> & Hv & E).
  simpl in Hu, Hv. subst u' v'.
  exists su, sv, a', b', c'. reflexivity.
Qed.

Lemma NoDup_keys_unique {V : Type} (d : dict V) (k : str) (x y : V) :
  NoDup (keys d) -> In (k, x) d -> In (k, y) d -> x = y.
Proof.
  induction d as [|[k' z] d IH]; simpl; intros N Ix Iy; [tauto|].
  inversion N as [|? ? Nk Nd]; subst.
  destruct Ix as [Ex | Ix], Iy as [Ey | Iy].
  - congruence.
  - injection Ex as -> ->. exfalso. apply Nk.
    apply (in_map fst) in Iy. exact Iy.
  - injection Ey as -> ->. exfalso. apply Nk.
    apply (in_map fst) in Ix. exact Ix.
  - auto.
Qed.

Lemma before_nth_error {A : Type} (x y : A) (l : list A) :
  before x y l ->
  exists i j, (i < j)%nat /\ nth_error l i = Some x /\ nth_error l j = Some y.
Proof.
  intros (a & b & c & ->).
  exists (List.length a), (List.length a + S (List.length b))%nat.
  split; [lia | split].
  - rewrite nth_error_app2 by lia. rewrite Nat.sub_diag. reflexivity.
  - rewrite nth_error_app2 by lia.
    replace (List.length a + S (List.length b) - List.length a)%nat
      with (S (List.length b)) by lia.
    simpl. rewrite nth_error_app2 by lia. rewrite Nat.sub_diag. reflexivity.
Qed.

Lemma nth_error_enumerate {A : Type} (l : list A) :
  forall (k : Z) (i : nat) (x : A),
    nth_error l i = Some x ->
    nth_error (enumerate k l) i = Some ((k + Z.of_nat i)%Z, x).
Proof.
  induction l as [|y l IH]; intros k [|i] x E; simpl in *; try discriminate.
  - injection E as <-. rewrite Z.add_0_r. reflexivity.
  - rewrite (IH (k + 1)%Z i x E). f_equal. f_equal. lia.
Qed.

Lemma enumerate_length {A : Type} (l : list A) :
  forall k, List.length (enumerate k l) = List.length l.
Proof. induction l; intros k; simpl; auto. Qed.

Lemma SFeqb_ltb (k a b : spec_float) :
  SFeqb a b = true -> SFltb k a = SFltb k b.
Proof.
  unfold SFeqb, SFltb, SFcompare.
  destruct a as [sa|sa| |sa ma ea], b as [sb|sb| |sb mb eb],
           k as [sk|sk| |sk mk ek];
    try destruct sa; try destruct sb; try destruct sk; simpl;
    try congruence;
    repeat match goal with
           | |- context [Pos.compare_cont Eq ?x ?y] =>
               change (Pos.compare_cont Eq x y) with (Pos.compare x y)
           end;
    destruct (Z.compare_spec ea eb); try discriminate;
    destruct (Pos.compare_spec ma mb); try discriminate;
    subst; reflexivity.
Qed.

Lemma float_eqb_ltb (k a b : float) :
  PrimFloat.eqb a b = true -> PrimFloat.ltb k a = PrimFloat.ltb k b.
Proof. rewrite eqb_spec, !ltb_spec. apply SFeqb_ltb. Qed.

Lemma slice_to_firstn {A : Type} (n : Z) (l : list A) :
  exists k, slice_to n l = firstn k l.
Proof. unfold slice_to. destruct (0 <=? n)%Z; eauto. Qed.

Section Ranking.

Context {V K : Type}.
Variables (key : str * V -> K) (lt : K -> K -> bool).
Variable good : str * V -> Prop.
Hypothesis lt_irrefl : forall k, lt k k = false.
Hypothesis lt_trans :
  forall a b c, lt a b = true -> lt b c = true -> lt a c = true.
Hypothesis lt_total :
  forall x y z, good x -> good y -> good z ->
    lt (key x) (key y) = false -> lt (key y) (key z) = false ->
    lt (key x) (key z) = false.

(** Of two entries with equal keys, the one that comes first in the
    dictionary has the smaller rank among the first [top_n] entries of
    the ranking, whenever the other one is among them. *)
Lemma ranked_in_order (d : dict V) (top_n : Z) (x y : str * V) :
  (forall e, In e d -> good e) ->
  NoDup (keys d) -> before x y d -> same_key key lt x y ->
  In y (slice_to top_n (sorted_reverse key lt d)) ->
  exists i j,
    (i < j)%nat
    /\ nth_error (slice_to top_n (sorted_reverse key lt d)) i = Some x
    /\ nth_error (slice_to top_n (sorted_reverse key lt d)) j = Some y.
Proof.
  intros G N B E I.
  destruct (slice_to_firstn top_n (sorted_reverse key lt d)) as (k & Hk).
  rewrite Hk in *. apply before_nth_error, before_firstn; auto.
  - apply (sorted_reverse_stable key lt good lt_irrefl lt_trans lt_total);
      auto.
  - apply (Permutation_NoDup
             (Permutation_sym (sorted_reverse_Permutation key lt d))).
    apply (NoDup_map_inv fst), N.
Qed.

End Ranking.

Lemma nth_error_ranked {A : Type} (line : Z * A -> str) (l : list A) (i : nat)
    (x : A) (pre post : list str) :
  nth_error l i = Some x ->
  nth_error (pre ++ map line (enumerate 1 l) ++ post) (List.length pre + i)
  = Some (line (Z.of_nat (S i), x)).
Proof.
  intros E.
  rewrite nth_error_app2 by lia.
  replace (List.length pre + i - List.length pre)%nat with i by lia.
  rewrite nth_error_app1.
  - rewrite nth_error_map, (nth_error_enumerate l 1 i x E).
    cbn [option_map]. do 3 f_equal. lia.
  - rewrite length_map, enumerate_length. apply nth_error_Some. congruence.
Qed.

Section ReportLines.

Variable strftime_ymd : datetime -> str.
Variables (user_stats : dict dstat) (period_start period_end : datetime).
Variables (top_n : Z) (team_skills : option (dict Z)).

Lemma nth_error_dealt (i : nat) (x : str * dstat) :
  nth_error (top_user_damage user_stats top_n) i = Some x ->
  nth_error (report_lines strftime_ymd user_stats period_start period_end top_n
               team_skills) (4 + i) = Some (dealt_line (Z.of_nat (S i), x)).
Proof.
  intros E. unfold report_lines.
  apply (nth_error_ranked dealt_line _ i x [_; _; _; _] _ E).
Qed.

Lemma nth_error_taken (i : nat) (x : str * dstat) :
  nth_error (top_boss_damage user_stats top_n) i = Some x ->
  nth_error (report_lines strftime_ymd user_stats period_start period_end top_n
               team_skills)
    (6 + List.length (top_user_damage user_stats top_n) + i)
  = Some (taken_line (Z.of_nat (S i), x)).
Proof.
  intros E. unfold report_lines.
  rewrite !app_assoc. rewrite <- (app_assoc _ (map taken_line _)).
  match goal with
  | |- nth_error (?pre ++ _ ++ _) _ = _ =>
      replace (6 + List.length (top_user_damage user_stats top_n) + i)%nat
        with (List.length pre + i)%nat
  end.
  - apply nth_error_ranked, E.
  - rewrite !length_app, length_map, enumerate_length. simpl. lia.
Qed.

Lemma nth_error_cast (skills : dict Z) (i : nat) (x : str * Z) :
  team_skills = Some skills ->
  nth_error (slice_to top_n (sorted_skills skills)) i = Some x ->
  nth_error (report_lines strftime_ymd user_stats period_start period_end top_n
               team_skills)
    (8 + List.length (top_user_damage user_stats top_n)
     + List.length (top_boss_damage user_stats top_n) + i)
  = Some (skill_line (Z.of_nat (S i), x)).
Proof.
  intros T E. unfold report_lines. rewrite T.
  destruct skills as [|e skills].
  { destruct (slice_to_firstn top_n (sorted_skills [])) as (k & Hk).
    rewrite Hk in E. change (sorted_skills []) with (@nil (str * Z)) in E.
    rewrite firstn_nil in E.
    destruct i; discriminate. }
  rewrite !app_assoc.
  rewrite <- (app_nil_r (map skill_line _)).
  match goal with
  | |- nth_error (?pre ++ _ ++ _) _ = _ =>
      replace (8 + List.length (top_user_damage user_stats top_n)
               + List.length (top_boss_damage user_stats top_n) + i)%nat
        with (List.length pre + i)%nat
  end.
  - apply nth_error_ranked, E.
  - rewrite !length_app, !length_map, !enumerate_length. simpl. lia.
Qed.

End ReportLines.

Lemma aggregate_keys_order (fos : str -> option float) (messages : list msg)
    (stats : dict dstat) (u v : str) (sv : dstat) :
  aggregate_user_damage fos messages = Ok stats ->
  first_seen_before actor_of u v messages ->
  In (v, sv) stats ->
  NoDup (keys stats)
  /\ exists su, before (u, su) (v, sv) stats.
Proof.
  unfold aggregate_user_damage. rewrite damage_loop_for_each.
  intros E F I.
  destruct (for_each_keys (damage_step fos) actor_of (damage_step_keys fos)
              messages [] stats E (NoDup_nil _)) as (N & _).
  split; auto.
  assert (B : before u v (keys stats)).
  { apply (first_seen_keys (damage_step fos) actor_of (damage_step_keys fos)
             messages); auto.
    apply (in_map fst) in I. exact I. }
  apply before_keys_items in B. destruct B as (su & sv' & B).
  assert (sv' = sv) as ->.
  { apply (NoDup_keys_unique stats v); auto. apply before_In in B. tauto. }
  eauto.
Qed.

Lemma skills_keys_order (ios : str -> option Z) (messages : list msg)
    (skills : dict Z) (u v : str) (cv : Z) :
  aggregate_team_skills ios messages = Ok skills ->
  first_seen_before skill_actor_of u v messages ->
  In (v, cv) skills ->
  NoDup (keys skills)
  /\ exists cu, before (u, cu) (v, cv) skills.
Proof.
  unfold aggregate_team_skills. rewrite skill_loop_for_each.
  intros E F I.
  destruct (for_each_keys (skill_step ios) skill_actor_of (skill_step_keys ios)
              messages [] skills E (NoDup_nil _)) as (N & _).
  split; auto.
  assert (B : before u v (keys skills)).
  { apply (first_seen_keys (skill_step ios) skill_actor_of
             (skill_step_keys ios) messages); auto.
    apply (in_map fst) in I. exact I. }
  apply before_keys_items in B. destruct B as (cu & cv' & B).
  assert (cv' = cv) as ->.
  { apply (NoDup_keys_unique skills v); auto. apply before_In in B. tauto. }
  eauto.
Qed.

Lemma in_slice_sorted {A K : Type} (key : A -> K) (lt : K -> K -> bool)
    (n : Z) (l : list A) (x : A) :
  In x (slice_to n (sorted_reverse key lt l)) -> In x l.
Proof.
  destruct (slice_to_firstn n (sorted_reverse key lt l)) as (k & ->).
  intros I.
  assert (I' : In x (sorted_reverse key lt l)).
  { rewrite <- (firstn_skipn k). apply in_or_app. auto. }
  clear I. rename I' into I.
  apply (Permutation_in _ (sorted_reverse_Permutation key lt l) I).
Qed.

(** C5, as the code has it.  Let [u] have an event before the first
    event of [v] in the list of events given to an aggregator, and let no
    damage total be a NaN.  If the two have equal values of the metric of
    a ranked subsection of the report and [v] is listed there, then [u]
    is listed there too, on an earlier line and with a smaller rank.
    This holds for the damage dealt, for the damage taken and for the
    skills cast. *)
Theorem ranking_stability
    (fos : str -> option float) (ios : str -> option Z)
    (strftime_ymd : datetime -> str)
    (messages skill_messages : list msg)
    (stats : dict dstat) (skills : dict Z)
    (period_start period_end : datetime) (top_n : Z) (u v : str) :
  aggregate_user_damage fos messages = Ok stats ->
  aggregate_team_skills ios skill_messages = Ok skills ->
  let lines := report_lines strftime_ymd stats period_start period_end top_n
                 (Some skills) in
  let dealt := top_user_damage stats top_n in
  let taken := top_boss_damage stats top_n in
  let cast := slice_to top_n (sorted_skills skills) in
  (first_seen_before actor_of u v messages ->
   (forall k st, In (k, st) stats ->
      is_nan (userDamage st) = false /\ is_nan (bossDamage st) = false) ->
   forall su sv, In (u, su) stats ->
     (PrimFloat.eqb (userDamage su) (userDamage sv) = true ->
      In (v, sv) dealt ->
      exists i j,
        (i < j)%nat
        /\ nth_error lines (4 + i)
           = Some (dealt_line (Z.of_nat (S i), (u, su)))
        /\ nth_error lines (4 + j)
           = Some (dealt_line (Z.of_nat (S j), (v, sv))))
     /\ (PrimFloat.eqb (bossDamage su) (bossDamage sv) = true ->
         In (v, sv) taken ->
         exists i j,
           (i < j)%nat
           /\ nth_error lines (6 + List.length dealt + i)
              = Some (taken_line (Z.of_nat (S i), (u, su)))
           /\ nth_error lines (6 + List.length dealt + j)
              = Some (taken_line (Z.of_nat (S j), (v, sv)))))
  /\ (first_seen_before skill_actor_of u v skill_messages ->
      forall c, In (u, c) skills -> In (v, c) cast ->
        exists i j,
          (i < j)%nat
          /\ nth_error lines (8 + List.length dealt + List.length taken + i)
             = Some (skill_line (Z.of_nat (S i), (u, c)))
          /\ nth_error lines (8 + List.length dealt + List.length taken + j)
             = Some (skill_line (Z.of_nat (S j), (v, c)))).
Proof.
  intros E Es lines dealt taken cast. split.
  - intros F Hnan su sv Iu.
    assert (O : forall key : str * dstat -> float,
               In (v, sv)
                  (slice_to top_n (sorted_reverse key PrimFloat.ltb stats)) ->
               NoDup (keys stats) /\ before (u, su) (v, sv) stats).
    { intros key I.
      apply (in_slice_sorted key PrimFloat.ltb) in I.
      destruct (aggregate_keys_order fos messages stats u v sv E F I)
        as (N & su' & B).
      split; auto.
      assert (su' = su) as ->; auto.
      apply (NoDup_keys_unique stats u); auto. apply before_In in B. tauto. }
    split; intros Q I; destruct (O _ I) as (N & B).
    + destruct (ranked_in_order
                  (fun x : str * dstat => userDamage (snd x)) PrimFloat.ltb
                  (fun x => is_nan (userDamage (snd x)) = false)
                  float_ltb_irrefl float_ltb_trans
                  (fun x y z => float_ltb_total _ _ _) stats top_n
                  (u, su) (v, sv)) as (i & j & L & Hi & Hj); auto.
      { intros [k st] Ie. apply (Hnan k st Ie). }
      { intros k. simpl. apply float_eqb_ltb, Q. }
      exists i, j. split; auto. split; apply nth_error_dealt; auto.
    + destruct (ranked_in_order
                  (fun x : str * dstat => bossDamage (snd x)) PrimFloat.ltb
                  (fun x => is_nan (bossDamage (snd x)) = false)
                  float_ltb_irrefl float_ltb_trans
                  (fun x y z => float_ltb_total _ _ _) stats top_n
                  (u, su) (v, sv)) as (i & j & L & Hi & Hj); auto.
      { intros [k st] Ie. apply (Hnan k st Ie). }
      { intros k. simpl. apply float_eqb_ltb, Q. }
      exists i, j. split; auto. split; apply nth_error_taken; auto.
  - intros F c Iu I.
    pose proof (in_slice_sorted (fun x : str * Z => snd x) Z.ltb
                  top_n skills (v, c) I) as Iv.
    destruct (skills_keys_order ios skill_messages skills u v c Es F Iv)
      as (N & c' & B).
    assert (c' = c) as ->.
    { apply (NoDup_keys_unique skills u); auto. apply before_In in B. tauto. }
    destruct (ranked_in_order (fun x : str * Z => snd x) Z.ltb
                (fun _ => True) Z.ltb_irrefl Z_ltb_trans
                (fun x y z _ _ _ => Z_ltb_total _ _ _) skills top_n
                (u, c) (v, c)) as (i & j & L & Hi & Hj); auto.
    { intros k. reflexivity. }
    exists i, j. split; auto.
    split; apply (nth_error_cast strftime_ymd stats period_start period_end
                    top_n (Some skills) skills); auto.
Qed.

Lemma ranking_stability_witness :
  exists i j,
    (i < j)%nat
    /\ nth_error
         (report_lines (fun _ => lit "2024-01-01")
            [(alice, mkStat (0 + 10) 0); (bob, mkStat (0 + 10) 0)]
            0%Z 0%Z 5%Z (Some []))
         (4 + i)
       = Some (dealt_line (Z.of_nat (S i), (alice, mkStat (0 + 10) 0)))
    /\ nth_error
         (report_lines (fun _ => lit "2024-01-01")
            [(alice, mkStat (0 + 10) 0); (bob, mkStat (0 + 10) 0)]
            0%Z 0%Z 5%Z (Some []))
         (4 + j)
       = Some (dealt_line (Z.of_nat (S j), (bob, mkStat (0 + 10) 0))).
Proof.
  assert (F : first_seen_before actor_of alice bob
                [dmg alice 10; dmg bob 10]).
  { split; [discriminate|].
    exists [], (dmg alice 10), [dmg bob 10].
    split; [reflexivity | split; [reflexivity | intros m []]]. }
  assert (NN : forall k st,
             In (k, st)
                [(alice, mkStat (0 + 10) 0); (bob, mkStat (0 + 10) 0)] ->
             is_nan (userDamage st) = false /\ is_nan (bossDamage st) = false).
  { intros k st [E | [E | []]]; apply (f_equal snd) in E; simpl in E;
      subst st; split; reflexivity. }
  apply (proj1 (proj1 (ranking_stability (fun _ => None) (fun _ => None)
                         (fun _ => lit "2024-01-01")
                         [dmg alice 10; dmg bob 10] []
                         [(alice, mkStat (0 + 10) 0); (bob, mkStat (0 + 10) 0)]
                         [] 0%Z 0%Z 5%Z alice bob eq_refl eq_refl)
                      F NN (mkStat (0 + 10) 0) (mkStat (0 + 10) 0)
                      (or_introl eq_refl))
               eq_refl).
  right. left. reflexivity.
Defined.

(** C5 as stated fails: with a NaN among the totals the comparisons of
    the sort contradict one another and equal totals do not keep their
    order.  On the seven events of [nan_chat] the first player and the
    second both total 1, the first was seen first, and the ranking of
    the damage dealt lists the second player first and the first player
    fourth. *)
Lemma ranking_unstable_with_nan :
  aggregate_user_damage (fun _ => None) nan_chat = Ok nan_stats
  /\ map fst (top_user_damage nan_stats 5)
     = [player 1; player 4; player 6; player 0; player 2]
  /\ ~ (forall (fos : str -> option float) messages stats u v su sv top_n,
          aggregate_user_damage fos messages = Ok stats ->
          first_seen_before actor_of u v messages ->
          In (u, su) stats ->
          PrimFloat.eqb (userDamage su) (userDamage sv) = true ->
          In (v, sv) (top_user_damage stats top_n) ->
          before (u, su) (v, sv) (top_user_damage stats top_n)).
Proof.
  assert (R : map fst (top_user_damage nan_stats 5)
              = [player 1; player 4; player 6; player 0; player 2])
    by reflexivity.
  split; [reflexivity|]. split; [exact R|].
  intros H.
  assert (B : before (player 0, mkStat (0 + 1) 0) (player 1, mkStat (0 + 1) 0)
                (top_user_damage nan_stats 5)).
  { apply (H (fun _ => None) nan_chat nan_stats).
    - reflexivity.
    - split; [discriminate|].
      exists [], (dmg (player 0) 1), (tl nan_chat).
      split; [reflexivity | split; [reflexivity | intros m []]].
    - left. reflexivity.
    - reflexivity.
    - left. reflexivity. }
  apply (before_map fst) in B. rewrite R in B. simpl in B.
  apply before_nth_error in B. destruct B as (i & j & L & Hi & Hj).
  destruct j as [|[|[|[|[|j]]]]]; try lia;
    try (cbv in Hj; discriminate Hj).
  destruct j; discriminate Hj.
Qed.

(** ** The section merge *)

(** *** Prefixes and trimming *)

Lemma starts_with_app (p r : str) : starts_with p (p ++ r) = true.
Proof. induction p as [|x p IH]; simpl; auto. now rewrite N.eqb_refl. Qed.

Lemma starts_with_iff (p s : str) :
  starts_with p s = true <-> exists r, s = p ++ r.
Proof.
  split.
  - revert s. induction p as [|x p IH]; intros s E; simpl in *; eauto.
    destruct s as [|y s]; [discriminate|].
    apply andb_true_iff in E. destruct E as (E1 & E2).
    apply N.eqb_eq in E1. subst y.
    destruct (IH s E2) as (r & ->). eauto.
  - intros (r & ->). apply starts_with_app.
Qed.

(** The test [starts_with p] reads at most [length p] characters. *)
Lemma starts_with_local (p a z z' : str) :
  (List.length p <= List.length a)%nat ->
  starts_with p (a ++ z) = starts_with p (a ++ z').
Proof.
  revert a. induction p as [|x p IH]; intros a L; simpl; auto.
  destruct a as [|y a]; simpl in *; [lia|].
  rewrite (IH a) by lia. reflexivity.
Qed.

Lemma starts_with_skipn (p s : str) :
  starts_with p s = true -> s = p ++ skipn (List.length p) s.
Proof.
  intros E. apply starts_with_iff in E. destruct E as (r & ->).
  rewrite skipn_app, skipn_all, Nat.sub_diag. reflexivity.
Qed.

Lemma lstrip_nonspace (c : char) (s : str) :
  isspace c = false -> lstrip (c :: s) = c :: s.
Proof. intros E. simpl. now rewrite E. Qed.

Lemma lstrip_app_nonempty (x y : str) :
  lstrip x <> [] -> lstrip (x ++ y) = lstrip x ++ y.
Proof.
  induction x as [|c x IH]; simpl; intros N; [congruence|].
  destruct (isspace c); auto.
Qed.

Lemma lstrip_app_space (x y : str) :
  lstrip x = [] -> lstrip (x ++ y) = lstrip y.
Proof.
  induction x as [|c x IH]; simpl; intros N; auto.
  destruct (isspace c); auto. discriminate.
Qed.

Lemma rstrip_app_nonempty (x y : str) :
  rstrip y <> [] -> rstrip (x ++ y) = x ++ rstrip y.
Proof.
  unfold rstrip. intros N. rewrite rev_app_distr.
  rewrite lstrip_app_nonempty.
  - rewrite rev_app_distr, rev_involutive. reflexivity.
  - intros E. apply N. rewrite E. reflexivity.
Qed.

Lemma rstrip_app_space (x y : str) :
  rstrip y = [] -> rstrip (x ++ y) = rstrip x.
Proof.
  unfold rstrip. intros N. rewrite rev_app_distr.
  rewrite lstrip_app_space; auto.
  apply (f_equal (@rev char)) in N. rewrite rev_involutive in N. exact N.
Qed.

Lemma rstrip_snoc_nonspace (s : str) (c : char) :
  isspace c = false -> rstrip (s ++ [c]) = s ++ [c].
Proof.
  intros E. unfold rstrip. rewrite rev_app_distr. simpl. rewrite E.
  simpl. rewrite rev_involutive. reflexivity.
Qed.

Lemma lstrip_head (s : str) :
  match lstrip s with
  | [] => True
  | c :: _ => isspace c = false
  end.
Proof.
  induction s as [|c s IH]; simpl; auto.
  destruct (isspace c) eqn:E; auto.
Qed.

Lemma lstrip_suffix (s : str) : exists w, s = w ++ lstrip s.
Proof.
  induction s as [|c s (w & IH)]; simpl.
  - exists []. reflexivity.
  - destruct (isspace c).
    + exists (c :: w). simpl. congruence.
    + exists []. reflexivity.
Qed.

Lemma rstrip_last (s : str) (d : char) :
  rstrip s <> [] -> isspace (last (rstrip s) d) = false.
Proof.
  unfold rstrip. intros N.
  pose proof (lstrip_head (rev s)) as H.
  destruct (lstrip (rev s)) as [|c l]; [simpl in N; congruence|].
  simpl. rewrite last_last. exact H.
Qed.

Lemma last_lstrip (s : str) (d : char) :
  lstrip s <> [] -> last (lstrip s) d = last s d.
Proof.
  intros N. destruct (lstrip_suffix s) as (w & E).
  rewrite E at 2. clear E.
  induction w as [|c w IH]; simpl; auto.
  destruct (w ++ lstrip s) eqn:E; auto.
  destruct w; simpl in E; congruence.
Qed.

Lemma strip_trimmed (s : str) : trimmed (strip s).
Proof.
  unfold strip, trimmed.
  pose proof (lstrip_head (rstrip s)) as H.
  destruct (lstrip (rstrip s)) as [|c l] eqn:E; auto.
  split; auto.
  rewrite <- E, last_lstrip by congruence.
  apply rstrip_last. intros Z. rewrite Z in E. discriminate.
Qed.

(** *** Matches of the pattern *)

Lemma no_start_cons (p : str) (n : nat) (c : char) (s : str) :
  no_start p (S n) (c :: s) <->
  starts_with p (c :: s) = false /\ no_start p n s.
Proof.
  split.
  - intros H. split.
    + apply (H 0%nat). lia.
    + intros j L. apply (H (S j)). lia.
  - intros (H0 & H) [|j] L; simpl; auto. apply H. lia.
Qed.

Lemma lazy_span_app (s : str) :
  forall u r, lazy_span s = (u, r) -> s = u ++ r.
Proof.
  induction s as [|c s IH]; intros u r E.
  - simpl in E. injection E as <- <-. reflexivity.
  - cbn [lazy_span] in E.
    destruct (starts_with next_header (c :: s)).
    + injection E as <- <-. reflexivity.
    + destruct (lazy_span s) as (u', r'). injection E as <- <-.
      simpl. f_equal. apply IH. reflexivity.
Qed.

Lemma lazy_span_rest (s : str) :
  forall u r, lazy_span s = (u, r) ->
    r = [] \/ starts_with next_header r = true.
Proof.
  induction s as [|c s IH]; intros u r E.
  - simpl in E. injection E as <- <-. auto.
  - cbn [lazy_span] in E.
    destruct (starts_with next_header (c :: s)) eqn:N.
    + injection E as <- <-. auto.
    + destruct (lazy_span s) as (u', r'). injection E as <- <-.
      apply (IH u' r'). reflexivity.
Qed.

Lemma lazy_span_spec (u r : str) :
  no_start next_header (List.length u) (u ++ r) ->
  r = [] \/ starts_with next_header r = true ->
  lazy_span (u ++ r) = (u, r).
Proof.
  induction u as [|c u IH]; intros N R.
  - destruct R as [-> | R]; [reflexivity|].
    destruct r as [|c r]; [reflexivity|].
    cbn [app lazy_span]. rewrite R. reflexivity.
  - cbn [app List.length] in *. apply no_start_cons in N.
    destruct N as (N0 & N). cbn [lazy_span]. rewrite N0.
    rewrite (IH N R). reflexivity.
Qed.

Lemma lazy_span_no_start (s : str) :
  forall u r, lazy_span s = (u, r) ->
    no_start next_header (List.length u) s.
Proof.
  induction s as [|c s IH]; intros u r E.
  - simpl in E. injection E as <- <-. intros j L. simpl in L. lia.
  - cbn [lazy_span] in E.
    destruct (starts_with next_header (c :: s)) eqn:N.
    + injection E as <- <-. intros j L. simpl in L. lia.
    + destruct (lazy_span s) as (u', r') eqn:E'. injection E as <- <-.
      cbn [List.length]. apply no_start_cons. split; auto.
      apply (IH u' r'). reflexivity.
Qed.

Lemma match_here_None (s : str) :
  match_here s = None <-> starts_with podium_header s = false.
Proof.
  unfold match_here. destruct (starts_with podium_header s).
  - destruct (lazy_span _). split; discriminate.
  - tauto.
Qed.

Lemma match_here_Some (s m r : str) :
  match_here s = Some (m, r) <->
  exists u, s = podium_header ++ u ++ r /\ m = podium_header ++ u
            /\ lazy_span (u ++ r) = (u, r).
Proof.
  unfold match_here. split.
  - destruct (starts_with podium_header s) eqn:E; [|discriminate].
    apply starts_with_skipn in E.
    destruct (lazy_span (skipn (List.length podium_header) s)) as (u, r') eqn:L.
    intros Q. injection Q as <- <-. exists u.
    pose proof (lazy_span_app _ _ _ L) as A.
    rewrite <- A. auto.
  - intros (u & -> & -> & L).
    rewrite starts_with_app, skipn_app, skipn_all, Nat.sub_diag.
    cbn [skipn app]. rewrite L. reflexivity.
Qed.

Lemma match_here_shorter (s m r : str) :
  match_here s = Some (m, r) -> (List.length r < List.length s)%nat.
Proof.
  intros E. apply match_here_Some in E. destruct E as (u & -> & _).
  rewrite !length_app. unfold podium_header. simpl. lia.
Qed.

(** *** The scan of [re.sub] *)

Lemma sub_fuel_scan (t : list titem) (fuel : nat) :
  forall s, sub_fuel fuel t s = scan_fuel fuel (fun m _ => expand t m) s.
Proof.
  induction fuel as [|f IH]; intros s; simpl; auto.
  destruct (match_here s) as [[m r]|].
  - rewrite IH. reflexivity.
  - destruct s; auto. rewrite IH. reflexivity.
Qed.

Lemma scan_fuel_indep (emit : str -> str -> str) (n : nat) :
  forall m s, (List.length s < n)%nat -> (List.length s < m)%nat ->
    scan_fuel n emit s = scan_fuel m emit s.
Proof.
  induction n as [|n IH]; intros m s Ln Lm; [lia|].
  destruct m as [|m]; [lia|]. simpl.
  destruct (match_here s) as [[x r]|] eqn:E.
  - apply match_here_shorter in E. rewrite (IH m r) by lia. reflexivity.
  - destruct s as [|c s]; auto. simpl in *. rewrite (IH m s) by lia.
    reflexivity.
Qed.

Lemma scan_nil (emit : str -> str -> str) : scan emit [] = [].
Proof. reflexivity. Qed.

Lemma scan_match (emit : str -> str -> str) (s m r : str) :
  match_here s = Some (m, r) -> scan emit s = emit m r ++ scan emit r.
Proof.
  intros E. unfold scan. cbn [scan_fuel]. rewrite E.
  apply match_here_shorter in E.
  rewrite (scan_fuel_indep emit (List.length s) (S (List.length r)) r)
    by lia.
  reflexivity.
Qed.

Lemma scan_cons (emit : str -> str -> str) (c : char) (s : str) :
  match_here (c :: s) = None -> scan emit (c :: s) = c :: scan emit s.
Proof.
  intros E. unfold scan. cbn [scan_fuel]. rewrite E. reflexivity.
Qed.

(** Induction along the scan. *)
Lemma scan_ind (P : str -> Prop) :
  P [] ->
  (forall s m r, match_here s = Some (m, r) -> P r -> P s) ->
  (forall c s, match_here (c :: s) = None -> P s -> P (c :: s)) ->
  forall s, P s.
Proof.
  intros Pn Pm Pc s.
  remember (List.length s) as n eqn:L.
  revert s L. induction n as [n IH] using lt_wf_ind. intros s L.
  destruct (match_here s) as [[m r]|] eqn:E.
  - apply (Pm s m r E). apply (IH (List.length r)); auto.
    apply match_here_shorter in E. lia.
  - destruct s as [|c s]; auto.
    apply (Pc c s E). apply (IH (List.length s)); auto. simpl in L. lia.
Qed.

(** Text in which the header does not begin is copied. *)
Lemma scan_text (emit : str -> str -> str) (p s : str) :
  no_start podium_header (List.length p) (p ++ s) ->
  scan emit (p ++ s) = p ++ scan emit s.
Proof.
  induction p as [|c p IH]; intros N; auto.
  cbn [app List.length] in *. apply no_start_cons in N.
  destruct N as (N0 & N).
  rewrite scan_cons by (apply match_here_None, N0).
  rewrite (IH N). reflexivity.
Qed.

Lemma re_sub_scan (repl s : str) (t : list titem) :
  parse_template repl = Ok t ->
  re_sub repl s = Ok (scan (fun m _ => expand t m) s).
Proof.
  intros E. unfold re_sub, scan. rewrite E. cbn [bind].
  rewrite sub_fuel_scan. reflexivity.
Qed.

(** *** Templates without escapes *)

Lemma parse_template_literal (n : nat) :
  forall s, (List.length s < n)%nat -> no_backslash s = true ->
    parse_template_fuel n s = Ok (map TLit s).
Proof.
  induction n as [|n IH]; intros s L B; [lia|].
  destruct s as [|c s]; auto.
  cbn [no_backslash forallb] in B. apply andb_true_iff in B.
  destruct B as (Bc & B). cbn [parse_template_fuel]. rewrite Bc.
  simpl in L. unfold add_lit. rewrite (IH s) by (auto; lia). reflexivity.
Qed.

Lemma expand_literal (s m : str) : expand (map TLit s) m = s.
Proof.
  unfold expand. induction s as [|c s IH]; simpl; auto. now rewrite IH.
Qed.

Lemma no_backslash_app (a b : str) :
  no_backslash (a ++ b) = no_backslash a && no_backslash b.
Proof. apply forallb_app. Qed.

Lemma new_podium_section_literal (podium_md : str) :
  no_backslash (strip podium_md) = true ->
  parse_template (new_podium_section podium_md)
  = Ok (map TLit (new_podium_section podium_md)).
Proof.
  intros B. apply parse_template_literal; [lia|].
  unfold new_podium_section. rewrite !no_backslash_app, B. reflexivity.
Qed.

(** *** Occurrences of the header *)

Lemma re_search_unfold (s : str) :
  re_search s = match match_here s with
                | Some _ => true
                | None => match s with
                          | [] => false
                          | _ :: s' => re_search s'
                          end
                end.
Proof. destruct s; reflexivity. Qed.

Lemma re_search_app (a b : str) : re_search (a ++ podium_header ++ b) = true.
Proof.
  induction a as [|c a IH].
  - cbn [app]. rewrite re_search_unfold.
    destruct (match_here (podium_header ++ b)) eqn:E; auto.
    apply match_here_None in E. rewrite starts_with_app in E. discriminate.
  - cbn [app]. rewrite re_search_unfold, IH.
    destruct (match_here _); reflexivity.
Qed.

Lemma contains_no_start (p s : str) :
  contains p s = false -> forall j, starts_with p (skipn j s) = false.
Proof.
  revert s. induction s as [|c s IH]; intros E j.
  - simpl in E. apply orb_false_iff in E. rewrite skipn_nil. tauto.
  - cbn [contains] in E. apply orb_false_iff in E. destruct E as (E0 & E).
    destruct j; simpl; auto.
Qed.

(** C2, as the code has it.  Let the trimmed document be
    [pre ++ header ++ u ++ post], where the header first occurs after
    [pre] and its span ends before [post].  The merge keeps [pre]
    character for character and puts the expanded replacement in the place
    of the span.  The text [post] is kept as it is when the header does not
    occur in it again; otherwise every further span in it is replaced in
    the same way.  The replacement is the new section itself when the new
    body has no backslash. *)
Theorem merge_locality (description podium_md pre u post : str)
    (t : list titem) :
  strip description = pre ++ podium_header ++ u ++ post ->
  no_start podium_header (List.length pre) (strip description) ->
  lazy_span (u ++ post) = (u, post) ->
  parse_template (new_podium_section podium_md) = Ok t ->
  exists post',
    replace_podium_section description podium_md
    = Ok (pre ++ expand t (podium_header ++ u) ++ post')
    /\ post' = scan (fun m _ => expand t m) post
    /\ (contains podium_header post = false -> post' = post)
    /\ (no_backslash (strip podium_md) = true ->
        expand t (podium_header ++ u) = new_podium_section podium_md).
Proof.
  intros D N L T.
  exists (scan (fun m _ => expand t m) post).
  split; [|split; [reflexivity | split]].
  - unfold replace_podium_section. rewrite D at 1.
    rewrite re_search_app, (re_sub_scan _ _ t T).
    rewrite D in *. rewrite scan_text by exact N.
    rewrite (scan_match _ (podium_header ++ u ++ post)
               (podium_header ++ u) post).
    + reflexivity.
    + apply match_here_Some. exists u. auto.
  - intros C. rewrite <- (app_nil_r post) at 1.
    rewrite scan_text, scan_nil, app_nil_r; auto.
    intros j _. rewrite app_nil_r. apply contains_no_start, C.
  - intros B. pose proof (new_podium_section_literal _ B) as T'.
    assert (E : t = map TLit (new_podium_section podium_md)) by congruence.
    rewrite E. apply expand_literal.
Qed.

Lemma merge_locality_witness :
  exists post',
    replace_podium_section doc_with_podium (lit "new")
    = Ok ((lit "intro" ++ [NL; NL])
          ++ expand (map TLit (new_podium_section (lit "new")))
               (podium_header ++ ([NL] ++ lit "old" ++ [NL]))
          ++ post')
    /\ post' = scan (fun m _ =>
                       expand (map TLit (new_podium_section (lit "new"))) m)
                 ([NL] ++ lit "## Next" ++ [NL] ++ lit "keep")
    /\ (contains podium_header ([NL] ++ lit "## Next" ++ [NL] ++ lit "keep")
        = false ->
        post' = [NL] ++ lit "## Next" ++ [NL] ++ lit "keep")
    /\ (no_backslash (strip (lit "new")) = true ->
        expand (map TLit (new_podium_section (lit "new")))
          (podium_header ++ ([NL] ++ lit "old" ++ [NL]))
        = new_podium_section (lit "new")).
Proof.
  apply (merge_locality doc_with_podium (lit "new")
           (lit "intro" ++ [NL; NL]) ([NL] ++ lit "old" ++ [NL])
           ([NL] ++ lit "## Next" ++ [NL] ++ lit "keep")).
  - reflexivity.
  - intros j Lj. simpl in Lj.
    do 7 (destruct j as [|j]; [reflexivity|]). lia.
  - reflexivity.
  - reflexivity.
Defined.

(** The example of the specification. *)
Example merge_example :
  replace_podium_section doc_with_podium (lit "new")
  = Ok (lit "intro" ++ [NL; NL] ++ podium_header ++ [NL; NL] ++ lit "new"
        ++ [NL; NL] ++ lit "## Next" ++ [NL] ++ lit "keep").
Proof. reflexivity. Qed.

(** C2 as stated fails: when the header occurs again after the first
    span, the text after the first span is not kept. *)
Lemma merge_replaces_every_span :
  ~ (forall description podium_md pre u post,
        strip description = pre ++ podium_header ++ u ++ post ->
        no_start podium_header (List.length pre) (strip description) ->
        lazy_span (u ++ post) = (u, post) ->
        exists new,
          replace_podium_section description podium_md
          = Ok (pre ++ new ++ post)).
Proof.
  intros H.
  destruct (H doc_with_two_podiums (lit "new")
              (lit "a" ++ [NL]) ([NL] ++ lit "x")
              ([NL] ++ lit "## B" ++ [NL] ++ podium_header ++ [NL] ++ lit "y"))
    as (new & E).
  - reflexivity.
  - intros j Lj. simpl in Lj. do 2 (destruct j as [|j]; [reflexivity|]). lia.
  - reflexivity.
  - vm_compute in E. injection E as E.
    apply (f_equal (@rev char)) in E.
    rewrite !rev_app_distr in E. simpl in E. discriminate.
Qed.

(** *** The rebuilt section *)

(** A pattern without a line feed does not match across a line feed. *)
Lemma starts_with_across (p x : str) (c : char) (y : str) :
  ~ In c p -> (List.length x < List.length p)%nat ->
  starts_with p (x ++ c :: y) = false.
Proof.
  revert x. induction p as [|a p IH]; intros x Nc L; simpl in L; [lia|].
  destruct x as [|b x]; simpl.
  - destruct (N.eqb_spec a c) as [->|]; auto. exfalso. apply Nc. left. auto.
  - rewrite IH; [apply andb_false_r | | simpl in L; lia].
    intros I. apply Nc. right. exact I.
Qed.

Lemma header_no_NL : ~ In NL podium_header.
Proof.
  unfold podium_header, NL, TROPHY. simpl. intuition discriminate.
Qed.

(** Appending a line feed to a text creates no ["\n## "] in it. *)
Lemma next_header_across (x y : str) :
  x <> [] -> starts_with next_header x = false ->
  starts_with next_header (x ++ NL :: y) = false.
Proof.
  intros Nx E.
  destruct (Nat.le_gt_cases (List.length next_header) (List.length x)) as [L|L].
  - rewrite (starts_with_local next_header x (NL :: y) []) by exact L.
    rewrite app_nil_r. exact E.
  - clear E. unfold next_header in *. simpl in L.
    destruct x as [|a [|b [|c [|d x]]]]; simpl in *; try congruence; try lia;
      repeat match goal with
             | |- context [N.eqb ?u ?v] => destruct (N.eqb_spec u v); simpl
             end; auto; subst; try discriminate.
Qed.

Lemma section_span (b rest : str) :
  contains next_header (NL :: b) = false ->
  rest = [] \/ starts_with next_header rest = true ->
  match_here (section_of b ++ rest) = Some (section_of b, rest).
Proof.
  intros C R. apply match_here_Some. exists ([NL; NL] ++ b ++ [NL]).
  split; [|split; [reflexivity|]].
  { unfold section_of. repeat (rewrite <- app_assoc; simpl). reflexivity. }
  apply lazy_span_spec; auto.
  assert (T : starts_with next_header (NL :: rest) = false).
  { destruct R as [-> | R]; [reflexivity|].
    apply starts_with_iff in R. destruct R as (r & ->). reflexivity. }
  intros j L. rewrite !length_app in L. simpl in L.
  destruct j as [|j]; [reflexivity|].
  replace (([NL; NL] ++ b ++ [NL]) ++ rest)
    with (NL :: (NL :: b) ++ NL :: rest)
    by (repeat (rewrite <- app_assoc; simpl); reflexivity).
  cbn [skipn].
  destruct (Nat.eq_dec j (S (List.length b))) as [->|Nj].
  - rewrite skipn_app, skipn_all2 by (simpl; lia).
    simpl List.length. rewrite Nat.sub_diag. exact T.
  - rewrite skipn_app.
    assert (Z0 : (j - List.length (NL :: b) = 0)%nat).
    { simpl. lia. }
    rewrite Z0.
    cbn [skipn]. apply next_header_across.
    + intros Z. apply (f_equal (@List.length char)) in Z.
      rewrite length_skipn in Z. cbn [List.length] in Z. lia.
    + apply contains_no_start, C.
Qed.

Lemma section_trimmed_span (b : str) :
  contains next_header (NL :: b) = false ->
  match_here (section_trimmed b) = Some (section_trimmed b, []).
Proof.
  intros C. destruct b as [|c b]; [reflexivity|].
  apply match_here_Some. exists ([NL; NL] ++ c :: b).
  split; [|split; [reflexivity|]].
  { unfold section_trimmed. rewrite !app_nil_r. reflexivity. }
  apply lazy_span_spec; auto.
  intros j L. destruct j as [|j]; [reflexivity|].
  rewrite app_nil_r. cbn [app skipn]. apply contains_no_start, C.
Qed.

Lemma rstrip_nonspace_end (s : str) (d : char) :
  s <> [] -> isspace (last s d) = false -> rstrip s = s.
Proof.
  intros N E. destruct (exists_last N) as (s' & c & ->).
  rewrite last_last in E. apply rstrip_snoc_nonspace, E.
Qed.

Lemma trimmed_last (s : str) (d : char) :
  trimmed s -> s <> [] -> isspace (last s d) = false.
Proof.
  destruct s as [|c s]; [congruence|]. intros (_ & E) _.
  destruct (exists_last (l := c :: s)) as (s' & x & Ex); [discriminate|].
  rewrite Ex in *. rewrite last_last in *. exact E.
Qed.

Lemma rstrip_section (b : str) (w : str) :
  trimmed b -> rstrip w = [] ->
  rstrip (section_of b ++ w) = section_trimmed b.
Proof.
  intros T W. rewrite (rstrip_app_space _ _ W).
  unfold section_of, section_trimmed.
  destruct b as [|c b].
  - rewrite (rstrip_app_space podium_header ([NL; NL] ++ [] ++ [NL]));
      reflexivity.
  - assert (E : isspace (last (c :: b) c) = false)
      by (apply trimmed_last; auto; discriminate).
    destruct (exists_last (l := c :: b)) as (b' & x & Ex); [discriminate|].
    rewrite Ex in *. rewrite last_last in E.
    replace (podium_header ++ [NL; NL] ++ (b' ++ [x]) ++ [NL])
      with ((podium_header ++ [NL; NL] ++ b' ++ [x]) ++ [NL])
      by (repeat (rewrite <- app_assoc; simpl); reflexivity).
    rewrite rstrip_app_space by reflexivity.
    replace (podium_header ++ [NL; NL] ++ b' ++ [x])
      with ((podium_header ++ [NL; NL] ++ b') ++ [x])
      by (repeat (rewrite <- app_assoc; simpl); reflexivity).
    apply rstrip_snoc_nonspace, E.
Qed.

Section Emit.

(** What is written in the place of a match begins with the header. *)
Variable emit : str -> str -> str.
Hypothesis emit_header : forall m r, exists y, emit m r = podium_header ++ y.

Lemma scan_next_header (rest : str) :
  starts_with next_header rest = true ->
  starts_with next_header (scan emit rest) = true.
Proof.
  intros E. apply starts_with_iff in E. destruct E as (r & ->).
  unfold next_header. cbn [app lit map list_ascii_of_string].
  rewrite scan_cons by reflexivity.
  destruct (match_here (ord "#" :: ord "#" :: ord " " :: r))
    as [[m x]|] eqn:M.
  - rewrite (scan_match emit _ m x M).
    destruct (emit_header m x) as (y & ->). reflexivity.
  - rewrite scan_cons by exact M.
    rewrite scan_cons by reflexivity. rewrite scan_cons by reflexivity.
    reflexivity.
Qed.

Lemma scan_header_test (d : str) :
  forall q, q <> [] ->
    starts_with podium_header (q ++ scan emit d)
    = starts_with podium_header (q ++ d).
Proof.
  induction d as [| s m r M IH | c s M IH] using scan_ind; intros q Nq.
  - reflexivity.
  - rewrite (scan_match emit s m r M).
    destruct (emit_header m r) as (y & ->).
    apply match_here_Some in M. destruct M as (u & -> & _).
    rewrite <- !app_assoc, !(app_assoc q podium_header).
    apply starts_with_local. rewrite length_app. lia.
  - rewrite (scan_cons emit c s M).
    change (q ++ c :: scan emit s) with (q ++ [c] ++ scan emit s).
    change (q ++ c :: s) with (q ++ [c] ++ s).
    rewrite !app_assoc. apply IH. destruct q; discriminate.
Qed.

Lemma scan_nonempty (d : str) : d <> [] -> scan emit d <> [].
Proof.
  intros N. destruct (match_here d) as [[m r]|] eqn:M.
  - rewrite (scan_match emit d m r M).
    destruct (emit_header m r) as (y & ->). discriminate.
  - destruct d as [|c d]; [congruence|].
    rewrite (scan_cons emit c d M). discriminate.
Qed.

Lemma re_search_scan (d : str) :
  re_search d = true -> re_search (scan emit d) = true.
Proof.
  induction d as [| s m r M IH | c s M IH] using scan_ind; intros E.
  - discriminate.
  - rewrite (scan_match emit s m r M).
    destruct (emit_header m r) as (y & ->).
    rewrite <- app_assoc. apply (re_search_app []).
  - rewrite (scan_cons emit c s M).
    rewrite re_search_unfold in E. rewrite M in E.
    rewrite re_search_unfold. rewrite (IH E).
    destruct (match_here (c :: scan emit s)); reflexivity.
Qed.

End Emit.

(** *** Merging twice *)

Lemma emit_section_header (b : str) :
  forall m r, exists y, emit_section b m r = podium_header ++ y.
Proof. intros m r. unfold emit_section, section_of. eauto. Qed.

Lemma emit_trimmed_header (b : str) :
  forall m r, exists y, emit_trimmed b m r = podium_header ++ y.
Proof.
  intros m r. unfold emit_trimmed, section_trimmed, section_of.
  destruct r; [destruct b|]; eauto. exists []. now rewrite app_nil_r.
Qed.

(** The scan of the trimmed result of a scan gives the result again. *)
Lemma scan_scan_trimmed (b d : str) :
  contains next_header (NL :: b) = false ->
  scan (emit_section b) (scan (emit_trimmed b) d) = scan (emit_section b) d.
Proof.
  intros C.
  induction d as [| s m r M IH | c s M IH] using scan_ind.
  - reflexivity.
  - rewrite (scan_match (emit_trimmed b) s m r M).
    rewrite (scan_match (emit_section b) s m r M).
    assert (R : r = [] \/ starts_with next_header r = true).
    { apply match_here_Some in M. destruct M as (u & _ & _ & L).
      apply (lazy_span_rest _ _ _ L). }
    unfold emit_trimmed, emit_section at 2.
    destruct R as [-> | R].
    + rewrite !scan_nil, !app_nil_r.
      rewrite (scan_match _ _ _ _ (section_trimmed_span b C)).
      rewrite scan_nil, app_nil_r. reflexivity.
    + destruct r as [|x r]; [discriminate|].
      rewrite (scan_match (emit_section b) _ (section_of b)
                 (scan (emit_trimmed b) (x :: r))).
      * rewrite IH. reflexivity.
      * apply section_span; auto. right.
        apply scan_next_header; auto. apply emit_trimmed_header.
  - rewrite (scan_cons (emit_trimmed b) c s M).
    rewrite (scan_cons (emit_section b) c s M).
    rewrite scan_cons.
    + rewrite IH. reflexivity.
    + apply match_here_None.
      change (c :: scan (emit_trimmed b) s)
        with ([c] ++ scan (emit_trimmed b) s).
      rewrite (scan_header_test (emit_trimmed b) (emit_trimmed_header b)
                 s [c]) by discriminate.
      apply match_here_None, M.
Qed.

Lemma last_cons_nonempty (c : char) (s : str) (d : char) :
  s <> [] -> last (c :: s) d = last s d.
Proof. destruct s; [congruence | reflexivity]. Qed.

Lemma last_app_nonempty (l l' : str) (d : char) :
  l' <> [] -> last (l ++ l') d = last l' d.
Proof.
  intros N. induction l as [|c l IH]; auto.
  cbn [app]. rewrite last_cons_nonempty; auto.
  destruct l; simpl; auto. discriminate.
Qed.

(** Trimming the end of the result of a scan. *)
Lemma rstrip_scan (b d : str) :
  trimmed b ->
  (d <> [] -> isspace (last d 0%N) = false) ->
  rstrip (scan (emit_section b) d) = scan (emit_trimmed b) d.
Proof.
  intros T.
  induction d as [| s m r M IH | c s M IH] using scan_ind; intros E.
  - reflexivity.
  - rewrite (scan_match (emit_trimmed b) s m r M).
    rewrite (scan_match (emit_section b) s m r M).
    unfold emit_trimmed, emit_section at 1.
    destruct r as [|x r].
    + rewrite !scan_nil, (app_nil_r (section_trimmed b)).
      apply rstrip_section; auto.
    + assert (Er : x :: r <> [] -> isspace (last (x :: r) 0%N) = false).
      { intros _. apply match_here_Some in M.
        destruct M as (u & -> & _ & _).
        rewrite app_assoc, last_app_nonempty in E by discriminate.
        apply E. discriminate. }
      rewrite rstrip_app_nonempty; rewrite (IH Er); auto.
      apply scan_nonempty; [apply emit_trimmed_header | discriminate].
  - rewrite (scan_cons (emit_trimmed b) c s M).
    rewrite (scan_cons (emit_section b) c s M).
    destruct s as [|x s].
    + rewrite !scan_nil. apply (rstrip_snoc_nonspace [] c).
      apply E. discriminate.
    + assert (Es : x :: s <> [] -> isspace (last (x :: s) 0%N) = false).
      { intros _. rewrite <- (last_cons_nonempty c) by discriminate.
        apply E. discriminate. }
      change (c :: scan (emit_section b) (x :: s))
        with ([c] ++ scan (emit_section b) (x :: s)).
      rewrite rstrip_app_nonempty; rewrite (IH Es); auto.
      apply scan_nonempty; [apply emit_trimmed_header | discriminate].
Qed.

Lemma lstrip_scan (emit : str -> str -> str) (d : str) :
  (forall m r, exists y, emit m r = podium_header ++ y) ->
  trimmed d -> lstrip (scan emit d) = scan emit d.
Proof.
  intros Hd T. destruct (match_here d) as [[m r]|] eqn:M.
  - rewrite (scan_match emit d m r M).
    destruct (Hd m r) as (y & ->). reflexivity.
  - destruct d as [|c d]; [reflexivity|].
    rewrite (scan_cons emit c d M).
    apply lstrip_nonspace. apply T.
Qed.

Lemma scan_ext (e1 e2 : str -> str -> str) :
  (forall m r, e1 m r = e2 m r) -> forall s, scan e1 s = scan e2 s.
Proof.
  intros Ext s.
  induction s as [| s m r M IH | c s M IH] using scan_ind.
  - reflexivity.
  - rewrite (scan_match e1 s m r M), (scan_match e2 s m r M), Ext, IH.
    reflexivity.
  - rewrite (scan_cons e1 c s M), (scan_cons e2 c s M), IH. reflexivity.
Qed.

Lemma re_search_false_no_start (s : str) :
  re_search s = false ->
  forall j, starts_with podium_header (skipn j s) = false.
Proof.
  induction s as [|c s IH]; intros E j.
  - rewrite skipn_nil. reflexivity.
  - rewrite re_search_unfold in E.
    destruct (match_here (c :: s)) eqn:M; [discriminate|].
    destruct j as [|j]; cbn [skipn]; auto.
    apply match_here_None, M.
Qed.

(** The merge of a document in which the header occurs. *)
Lemma replace_found (description podium_md : str) :
  no_backslash (strip podium_md) = true ->
  re_search (strip description) = true ->
  replace_podium_section description podium_md
  = Ok (scan (emit_section (strip podium_md)) (strip description)).
Proof.
  intros B F. unfold replace_podium_section. rewrite F.
  rewrite (re_sub_scan _ _ _ (new_podium_section_literal _ B)).
  f_equal. apply scan_ext. intros m r. apply expand_literal.
Qed.

Lemma strip_scan (b d : str) :
  trimmed b -> trimmed d ->
  strip (scan (emit_section b) d) = scan (emit_trimmed b) d.
Proof.
  intros Tb Td. unfold strip. rewrite rstrip_scan; auto.
  - apply lstrip_scan; auto. apply emit_trimmed_header.
  - intros N. apply trimmed_last; auto.
Qed.

Lemma strip_with_section (d b w : str) :
  trimmed d -> trimmed b -> rstrip w = [] ->
  strip (d ++ [NL; NL] ++ section_of b ++ w)
  = with_section d (section_trimmed b).
Proof.
  intros Td Tb W. unfold strip.
  assert (Ns : section_trimmed b <> []).
  { unfold section_trimmed. destruct b; discriminate. }
  rewrite (app_assoc d), rstrip_app_nonempty;
    rewrite (rstrip_section b w Tb W); auto.
  rewrite <- app_assoc.
  destruct d as [|c d]; cbn [app with_section].
  - unfold section_trimmed. destruct b; reflexivity.
  - apply lstrip_nonspace, Td.
Qed.

Lemma scan_with_section (d b : str) :
  re_search d = false ->
  contains next_header (NL :: b) = false ->
  scan (emit_section b) (with_section d (section_trimmed b))
  = with_section d (section_of b).
Proof.
  intros F C.
  assert (E : scan (emit_section b) (section_trimmed b) = section_of b).
  { rewrite (scan_match _ _ _ _ (section_trimmed_span b C)).
    rewrite scan_nil. apply app_nil_r. }
  destruct d as [|c d]; [exact E|].
  cbn [with_section]. rewrite !(app_assoc (c :: d)).
  rewrite scan_text, E; auto.
  intros j L. rewrite length_app in L. simpl in L.
  rewrite <- app_assoc. cbn [app].
  change (c :: d ++ NL :: NL :: section_trimmed b)
    with ((c :: d) ++ NL :: NL :: section_trimmed b).
  destruct (Nat.le_gt_cases j (List.length (c :: d))) as [Lj|Lj].
  - rewrite skipn_app.
    replace (j - List.length (c :: d))%nat with 0%nat by lia.
    cbn [skipn].
    destruct (Nat.le_gt_cases (List.length podium_header)
                (List.length (skipn j (c :: d)))) as [Lh|Lh].
    + rewrite (starts_with_local podium_header _ _ []) by exact Lh.
      rewrite app_nil_r. apply re_search_false_no_start, F.
    + apply starts_with_across; [apply header_no_NL | exact Lh].
  - rewrite skipn_app, skipn_all2 by lia.
    replace (j - List.length (c :: d))%nat with 1%nat
      by (simpl in *; lia).
    reflexivity.
Qed.

Lemma rstrip_trimmed (d : str) : trimmed d -> rstrip d = d.
Proof.
  intros T. destruct d as [|c d]; [reflexivity|].
  apply (rstrip_nonspace_end (c :: d) c); [discriminate|].
  apply trimmed_last; auto. discriminate.
Qed.

Lemma strip_with_section_of (d b : str) :
  trimmed d -> trimmed b ->
  strip (with_section d (section_of b)) = with_section d (section_trimmed b).
Proof.
  intros Td Tb. destruct d as [|c d].
  - cbn [with_section]. unfold strip.
    rewrite <- (app_nil_r (section_of b)).
    rewrite (rstrip_section b [] Tb eq_refl).
    unfold section_trimmed. destruct b; reflexivity.
  - cbn [with_section].
    rewrite <- (app_nil_r (section_of b)).
    apply (strip_with_section (c :: d) b []); auto.
Qed.

Lemma re_search_with_section (d b : str) :
  re_search (with_section d (section_trimmed b)) = true.
Proof.
  assert (E : exists y, section_trimmed b = podium_header ++ y).
  { unfold section_trimmed. destruct b; eauto. exists [].
    now rewrite app_nil_r. }
  destruct E as (y & ->).
  destruct d as [|c d]; cbn [with_section].
  - apply (re_search_app []).
  - rewrite (app_assoc (c :: d)). apply re_search_app.
Qed.

Lemma with_section_length (d b : str) :
  (List.length (with_section d (section_of b))
   < List.length (d ++ [NL; NL] ++ section_of b ++ [NL]))%nat.
Proof.
  destruct d; cbn [with_section]; rewrite !length_app; simpl; lia.
Qed.

(** C1, as the code has it.  Let the trimmed new body have no backslash
    and no line that begins with ["## "].  If the
    header occurs in the document, the merge of the merged document is
    the merged document, character for character.  If it does not, the
    first merge appends the section and a blank line, and the second merge
    gives a shorter text, without the last line feed; that text is equal
    to the first result after trimming, and merging it again changes
    nothing. *)
Theorem merge_twice (description podium_md : str) :
  body_ok (strip podium_md) ->
  exists r r',
    replace_podium_section description podium_md = Ok r
    /\ replace_podium_section r podium_md = Ok r'
    /\ replace_podium_section r' podium_md = Ok r'
    /\ strip r' = strip r
    /\ (re_search (strip description) = true -> r' = r)
    /\ (re_search (strip description) = false ->
        r = strip description ++ [NL; NL]
            ++ new_podium_section podium_md ++ [NL]
        /\ r' = with_section (strip description)
                  (new_podium_section podium_md)
        /\ (List.length r' < List.length r)%nat).
Proof.
  intros (B & C).
  set (b := strip podium_md) in *.
  set (d := strip description).
  assert (Tb : trimmed b) by apply strip_trimmed.
  assert (Td : trimmed d) by apply strip_trimmed.
  destruct (re_search d) eqn:F.
  - exists (scan (emit_section b) d), (scan (emit_section b) d).
    assert (R : replace_podium_section (scan (emit_section b) d) podium_md
                = Ok (scan (emit_section b) d)).
    { rewrite replace_found; fold b; auto.
      - rewrite strip_scan, scan_scan_trimmed; auto.
      - rewrite strip_scan by auto.
        apply re_search_scan; auto. apply emit_trimmed_header. }
    repeat split; auto; try discriminate.
    apply replace_found; auto.
  - exists (d ++ [NL; NL] ++ section_of b ++ [NL]),
           (with_section d (section_of b)).
    assert (R : forall x,
               strip x = with_section d (section_trimmed b) ->
               replace_podium_section x podium_md
               = Ok (with_section d (section_of b))).
    { intros x Ex. rewrite replace_found; fold b; auto.
      - rewrite Ex, scan_with_section; auto.
      - rewrite Ex. apply re_search_with_section. }
    assert (S1 : strip (d ++ [NL; NL] ++ section_of b ++ [NL])
                 = with_section d (section_trimmed b))
      by (apply strip_with_section; auto).
    assert (S2 : strip (with_section d (section_of b))
                 = with_section d (section_trimmed b))
      by (apply strip_with_section_of; auto).
    split; [|split; [|split; [|split; [|split]]]]; auto.
    + unfold replace_podium_section. fold d. rewrite F.
      rewrite (rstrip_trimmed d Td). reflexivity.
    + congruence.
    + discriminate.
    + intros _. split; [reflexivity | split; [reflexivity|]].
      apply with_section_length.
Qed.

Lemma merge_twice_witness :
  exists r r',
    replace_podium_section doc_with_podium (lit "new") = Ok r
    /\ replace_podium_section r (lit "new") = Ok r'
    /\ replace_podium_section r' (lit "new") = Ok r'
    /\ strip r' = strip r
    /\ (re_search (strip doc_with_podium) = true -> r' = r)
    /\ (re_search (strip doc_with_podium) = false ->
        r = strip doc_with_podium ++ [NL; NL]
            ++ new_podium_section (lit "new") ++ [NL]
        /\ r' = with_section (strip doc_with_podium)
                  (new_podium_section (lit "new"))
        /\ (List.length r' < List.length r)%nat).
Proof.
  apply (merge_twice doc_with_podium (lit "new")).
  split; reflexivity.
Defined.

(** C1 as stated fails on the append path: the second merge drops the
    line feed that the first one put at the end. *)
Lemma merge_not_idempotent :
  ~ (forall description podium_md r,
        replace_podium_section description podium_md = Ok r ->
        replace_podium_section r podium_md = Ok r).
Proof.
  intros H.
  specialize (H (lit "intro") (lit "new")
                (lit "intro" ++ [NL; NL] ++ podium_header ++ [NL; NL]
                 ++ lit "new" ++ [NL; NL])
                eq_refl).
  vm_compute in H. discriminate.
Qed.

(** * Further properties of the pipeline *)

(** ** The event filter: errors and composition *)

Lemma filter_since_cases (conv : Z -> result datetime) (kind : str)
    (since : datetime) (chat : list msg) :
  (existsb (bad_stamp conv kind) chat = false
   /\ filter_since conv kind since chat
      = Ok (filter (in_window conv kind since) chat))
  \/ (existsb (bad_stamp conv kind) chat = true
      /\ exists l1 m l2 e,
           chat = l1 ++ m :: l2
           /\ existsb (bad_stamp conv kind) l1 = false
           /\ stamp_error conv kind m = Some e
           /\ filter_since conv kind since chat = Raise e).
Proof.
  induction chat as [|m ms IH]; simpl; [now left|].
  pose proof (selected_cases conv kind since m) as C.
  unfold bad_stamp at 1 3.
  destruct (stamp_error conv kind m) as [e|] eqn:S; rewrite C; simpl.
  - right. split; [reflexivity|].
    exists [], m, ms, e. repeat split; auto.
  - destruct IH as [[Hx Hf]|[Hx (l1 & x & l2 & e & -> & H1 & Hs & Hf)]];
      rewrite Hf; simpl.
    + left. split; [exact Hx|]. now destruct (in_window conv kind since m).
    + right. split; [exact Hx|].
      exists (m :: l1), x, l2, e. repeat split; auto.
      simpl. unfold bad_stamp at 1. now rewrite S.
Qed.

Lemma filter_since_Ok (conv : Z -> result datetime) (kind : str)
    (since : datetime) (chat sel : list msg) :
  filter_since conv kind since chat = Ok sel ->
  sel = filter (in_window conv kind since) chat
  /\ existsb (bad_stamp conv kind) chat = false.
Proof.
  intros H.
  destruct (filter_since_cases conv kind since chat)
    as [[Hx Hf]|[_ (l1 & m & l2 & e & _ & _ & _ & Hf)]];
    rewrite Hf in H; [|discriminate].
  split; [congruence|exact Hx].
Qed.

(** X1 ([filter_recent_boss_messages], and the skill filter of [main]).
    The comprehension raises exactly when the chat holds an event of the
    filtered kind whose timestamp is absent or is refused by
    [datetime.fromtimestamp(timestamp / 1000)].  Nothing is caught: the
    exception is that of the first such event, [KeyError] for an absent
    timestamp and otherwise the exception of the conversion. *)
Theorem filter_since_raises_iff (conv : Z -> result datetime) (kind : str)
    (since : datetime) (chat : list msg) :
  ((exists e, filter_since conv kind since chat = Raise e)
   <-> exists m, In m chat /\ bad_stamp conv kind m = true)
  /\ forall l1 m l2 e,
       chat = l1 ++ m :: l2 ->
       (forall x, In x l1 -> bad_stamp conv kind x = false) ->
       has_kind kind m = true ->
       (m_timestamp m = None /\ e = KeyError
        \/ exists ts, m_timestamp m = Some ts /\ conv ts = Raise e) ->
       filter_since conv kind since chat = Raise e.
Proof.
  split.
  - destruct (filter_since_cases conv kind since chat)
      as [[Hx Hf]|[Hx (l1 & m & l2 & e & _ & _ & _ & Hf)]]; rewrite Hf.
    + split.
      * intros [e He]. discriminate.
      * intros Hm. apply existsb_exists in Hm. congruence.
    + split.
      * intros _. apply existsb_exists. exact Hx.
      * eauto.
  - intros l1 m l2 e -> H1 K Hm.
    rewrite filter_since_app.
    destruct (filter_since_cases conv kind since l1)
      as [[_ Hf]|[Hx _]].
    + rewrite Hf. simpl.
      pose proof (selected_cases conv kind since m) as C.
      unfold stamp_error in C. rewrite K in C.
      destruct Hm as [[T ->]|(ts & T & E)]; rewrite T in C.
      * now rewrite C.
      * rewrite E in C. now rewrite C.
    + apply existsb_exists in Hx. destruct Hx as (x & Ix & Bx).
      rewrite (H1 x Ix) in Bx. discriminate.
Qed.

Lemma filter_since_raises_iff_witness :
  filter_since (fun ts => if (ts <? 0)%Z then Raise OSError
                          else fixed_offset 0 ts)
    boss_damage 0%Z
    [stamped_event boss_damage 1%Z; stamped_event spell_cast_party (-5)%Z;
     stamped_event boss_damage (-1)%Z; untimed boss_damage]
  = Raise OSError.
Proof.
  apply (proj2 (filter_since_raises_iff _ boss_damage 0%Z _)
           [stamped_event boss_damage 1%Z;
            stamped_event spell_cast_party (-5)%Z]
           (stamped_event boss_damage (-1)%Z) [untimed boss_damage] OSError).
  - reflexivity.
  - intros x [<-|[<-|[]]]; reflexivity.
  - reflexivity.
  - right. exists (-1)%Z. split; reflexivity.
Defined.

Lemma filter_filter_imp {A : Type} (f g : A -> bool) (l : list A) :
  (forall x, f x = true -> g x = true) ->
  filter f (filter g l) = filter f l.
Proof.
  intros Hfg. induction l as [|x l IH]; simpl; [reflexivity|].
  destruct (g x) eqn:Eg; simpl.
  - now rewrite IH.
  - destruct (f x) eqn:Ef; [|exact IH].
    apply Hfg in Ef. congruence.
Qed.

Lemma filter_since_of_filter (conv : Z -> result datetime) (kind : str)
    (since since' : datetime) (chat : list msg) :
  existsb (bad_stamp conv kind) chat = false ->
  filter_since conv kind since' (filter (in_window conv kind since) chat)
  = Ok (filter (in_window conv kind since')
          (filter (in_window conv kind since) chat)).
Proof.
  intros Hx.
  destruct (filter_since_cases conv kind since'
              (filter (in_window conv kind since) chat))
    as [[_ Hf]|[Hb _]]; [exact Hf|].
  apply existsb_exists in Hb. destruct Hb as (m & Hm & Hb).
  apply filter_In in Hm. destruct Hm as [Hm _].
  assert (existsb (bad_stamp conv kind) chat = true)
    by (apply existsb_exists; eauto).
  congruence.
Qed.

Lemma minus_days_Ok (now : datetime) (days : Z) (since : datetime) :
  minus_days now days = Ok since -> since = (now - days * US_PER_DAY)%Z.
Proof.
  unfold minus_days.
  destruct (Z.abs days <=? MAX_DELTA_DAYS)%Z; [|discriminate].
  destruct (in_datetime_range (now - days * US_PER_DAY)); [|discriminate].
  congruence.
Qed.

Lemma in_window_earlier (conv : Z -> result datetime) (kind : str)
    (since since' : datetime) (m : msg) :
  (since' <= since)%Z ->
  in_window conv kind since m = true -> in_window conv kind since' m = true.
Proof.
  unfold in_window. intros Hle H.
  apply andb_true_iff in H. destruct H as [Hk Ht].
  rewrite Hk. simpl. destruct (m_timestamp m) as [ts|]; [|discriminate].
  destruct (conv ts) as [d|]; [|discriminate].
  apply Z.leb_le in Ht. apply Z.leb_le. lia.
Qed.

(** X4 ([filter_recent_boss_messages]).  A longer period never loses an
    event: what the filter selects for [days1] days is selected for every
    [days2 >= days1], and filtering the wider selection for [days1] days
    gives the narrower one. *)
Theorem filter_window_widening (conv : Z -> result datetime)
    (now : datetime) (chat : list msg)
    (days1 days2 : Z) (sel1 sel2 : list msg) :
  (days1 <= days2)%Z ->
  filter_recent_boss_messages conv now chat days1 = Ok sel1 ->
  filter_recent_boss_messages conv now chat days2 = Ok sel2 ->
  (forall m, In m sel1 -> In m sel2)
  /\ filter_recent_boss_messages conv now sel2 days1 = Ok sel1.
Proof.
  unfold filter_recent_boss_messages. intros Hd H1 H2.
  destruct (minus_days now days1) as [since1|] eqn:E1; [|discriminate].
  destruct (minus_days now days2) as [since2|] eqn:E2; [|discriminate].
  simpl in *.
  apply minus_days_Ok in E1. apply minus_days_Ok in E2.
  assert (Hle : (since2 <= since1)%Z)
    by (subst; unfold US_PER_DAY; nia).
  apply filter_since_Ok in H1. destruct H1 as [-> Hx].
  apply filter_since_Ok in H2. destruct H2 as [-> _].
  split.
  - intros m Hm. apply filter_In in Hm. destruct Hm as [Hm Hw].
    apply filter_In. split; [exact Hm|].
    now apply in_window_earlier with (since := since1).
  - rewrite filter_since_of_filter by exact Hx.
    f_equal. apply filter_filter_imp.
    intros m. now apply in_window_earlier.
Qed.

Lemma filter_window_widening_witness :
  (forall m, In m [stamped_event boss_damage 86400001%Z] ->
             In m [stamped_event boss_damage 1%Z;
                   stamped_event boss_damage 86400001%Z])
  /\ filter_recent_boss_messages (fixed_offset 0) 172800000000%Z
       [stamped_event boss_damage 1%Z; stamped_event boss_damage 86400001%Z]
       1%Z
     = Ok [stamped_event boss_damage 86400001%Z].
Proof.
  apply (filter_window_widening (fixed_offset 0) 172800000000%Z
           [stamped_event boss_damage 1%Z;
            stamped_event boss_damage 86400001%Z] 1%Z 2%Z).
  - lia.
  - reflexivity.
  - reflexivity.
Defined.

(** ** The aggregators: who gets an entry, and when they raise *)

Section Actors.

Context {V : Type}.
Variables (step : dict V -> msg -> result (dict V)) (actor : msg -> option str).

Hypothesis step_keys :
  forall s m s', step s m = Ok s' ->
    keys s' = match actor m with
              | Some u => if dict_mem s u then keys s else keys s ++ [u]
              | None => keys s
              end.

Lemma step_keys_In (s : dict V) (m : msg) (s' : dict V) (k : str) :
  step s m = Ok s' ->
  In k (keys s') <-> In k (keys s) \/ actor m = Some k.
Proof.
  intros E. rewrite (step_keys s m s' E).
  destruct (actor m) as [u|].
  - destruct (dict_mem s u) eqn:M.
    + apply dict_mem_In in M. split; auto.
      intros [?|Hk]; auto. congruence.
    + rewrite in_app_iff. simpl. split.
      * intros [?|[->|[]]]; auto.
      * intros [?|Hk]; auto. right. left. congruence.
  - split; auto. intros [?|?]; [auto|discriminate].
Qed.

Lemma for_each_keys_In (messages : list msg) :
  forall s s' k, for_each step s messages = Ok s' ->
    In k (keys s') <->
    In k (keys s) \/ exists m, In m messages /\ actor m = Some k.
Proof.
  induction messages as [|m ms IH]; simpl; intros s s' k E.
  - assert (s' = s) as -> by congruence.
    split; auto. intros [?|(m & [] & _)]; auto.
  - destruct (step s m) as [s1|] eqn:E1; [|discriminate]. simpl in E.
    rewrite (IH s1 s' k E), (step_keys_In s m s1 k E1).
    split.
    + intros [[?|?]|(m' & ? & ?)]; eauto.
    + intros [?|(m' & [<-|?] & ?)]; eauto.
Qed.

End Actors.

(** X5 ([aggregate_user_damage]).  The result has one entry for each
    actor of the events and no other: its keys are distinct, and a name
    is a key exactly when some event carries it as a non-empty user. *)
Theorem aggregate_user_damage_actors (fos : str -> option float)
    (messages : list msg) (stats : dict dstat) :
  aggregate_user_damage fos messages = Ok stats ->
  NoDup (keys stats)
  /\ forall u, In u (keys stats) <->
               exists m, In m messages /\ actor_of m = Some u.
Proof.
  unfold aggregate_user_damage. rewrite damage_loop_for_each. intros E.
  split.
  - apply (for_each_keys (damage_step fos) actor_of (damage_step_keys fos)
             messages [] stats E (NoDup_nil _)).
  - intros u.
    rewrite (for_each_keys_In (damage_step fos) actor_of
               (damage_step_keys fos) messages [] stats u E).
    simpl. tauto.
Qed.

Lemma aggregate_user_damage_actors_witness :
  NoDup (keys [(alice, mkStat (0 + 1) 0); (bob, mkStat (0 + 2) 0)])
  /\ forall u,
       In u (keys [(alice, mkStat (0 + 1) 0); (bob, mkStat (0 + 2) 0)]) <->
       exists m, In m [dmg alice 1; dmg bob 2] /\ actor_of m = Some u.
Proof.
  apply (aggregate_user_damage_actors (fun _ => None)).
  reflexivity.
Defined.

(** X6 ([aggregate_team_skills]).  The result has one entry for each
    caster and no other: its keys are distinct, and a name is a key
    exactly when some [spell_cast_party] event carries it as a non-empty
    user. *)
Theorem aggregate_team_skills_actors (ios : str -> option Z)
    (messages : list msg) (skills : dict Z) :
  aggregate_team_skills ios messages = Ok skills ->
  NoDup (keys skills)
  /\ forall u, In u (keys skills) <->
               exists m, In m messages /\ skill_actor_of m = Some u.
Proof.
  unfold aggregate_team_skills. rewrite skill_loop_for_each. intros E.
  split.
  - apply (for_each_keys (skill_step ios) skill_actor_of (skill_step_keys ios)
             messages [] skills E (NoDup_nil _)).
  - intros u.
    rewrite (for_each_keys_In (skill_step ios) skill_actor_of
               (skill_step_keys ios) messages [] skills u E).
    simpl. tauto.
Qed.

Lemma aggregate_team_skills_actors_witness :
  NoDup (keys [(alice, 4%Z); (bob, 2%Z)])
  /\ forall u,
       In u (keys [(alice, 4%Z); (bob, 2%Z)]) <->
       exists m,
         In m [skill_event alice (Some (VInt 3));
               skill_event bob (Some (VInt 2));
               skill_event alice None]
         /\ skill_actor_of m = Some u.
Proof.
  apply (aggregate_team_skills_actors (fun _ => None)).
  reflexivity.
Defined.

Lemma py_float_uncaught (fos : str -> option float) (v : pyval) (e : exn) :
  py_float fos v = Raise e -> caught e = false ->
  e = OverflowError /\ too_large (Some v) = true.
Proof.
  destruct v as [|b|z|f|s|l|d]; simpl; intros H C;
    try (assert (e = TypeError) by congruence; subst e; discriminate);
    try discriminate.
  - destruct (is_infinity (float_of_Z z)); [|discriminate].
    split; [congruence|reflexivity].
  - destruct (fos s); [discriminate|].
    assert (e = ValueError) by congruence. subst e. discriminate.
Qed.

Lemma field_value_uncaught (fos : str -> option float) (o : option pyval)
    (e : exn) :
  field_value fos o = Raise e -> caught e = false ->
  e = OverflowError /\ too_large o = true.
Proof.
  unfold field_value. intros H C.
  destruct o as [v|]; [|discriminate].
  destruct (not_none_cases v) as [[-> Hn]|[Hv Hn]]; rewrite Hn in H;
    [discriminate|].
  destruct (py_float fos v) as [x|e'] eqn:E; [discriminate|].
  simpl in H. assert (e' = e) by congruence. subst e'.
  exact (py_float_uncaught fos v e E C).
Qed.

Lemma event_effect_Fail (fos : str -> option float) (m : msg) (e : exn) :
  event_effect fos m = Fail e ->
  e = OverflowError /\ actor_of m <> None
  /\ too_large (i_userDamage (get_info m))
     || too_large (i_bossDamage (get_info m)) = true.
Proof.
  unfold event_effect, actor_of.
  destruct (truthy_user (i_user (get_info m))) as [u|]; [|discriminate].
  destruct (field_value fos (i_userDamage (get_info m))) as [a|e1] eqn:E1.
  - destruct (field_value fos (i_bossDamage (get_info m))) as [b|e2] eqn:E2;
      [discriminate|].
    destruct (caught e2) eqn:C; [discriminate|]. intros H.
    assert (e2 = e) by congruence. subst e2.
    destruct (field_value_uncaught fos _ e E2 C) as [-> T].
    rewrite T, orb_true_r. repeat split; congruence.
  - destruct (caught e1) eqn:C; [discriminate|]. intros H.
    assert (e1 = e) by congruence. subst e1.
    destruct (field_value_uncaught fos _ e E1 C) as [-> T].
    rewrite T. repeat split; congruence.
Qed.

Lemma damage_loop_Raise (fos : str -> option float) (messages : list msg) :
  forall stats e, damage_loop fos stats messages = Raise e ->
    e = OverflowError
    /\ exists m, In m messages /\ actor_of m <> None
                 /\ too_large (i_userDamage (get_info m))
                    || too_large (i_bossDamage (get_info m)) = true.
Proof.
  induction messages as [|m ms IH]; simpl; intros stats e H; [discriminate|].
  rewrite damage_step_effect in H.
  destruct (event_effect fos m) as [|u a b|e'] eqn:E; simpl in H.
  - destruct (IH _ _ H) as (-> & m' & ? & ?). eauto.
  - destruct (IH _ _ H) as (-> & m' & ? & ?). eauto.
  - assert (e' = e) by congruence. subst e'.
    destruct (event_effect_Fail fos m e E) as (-> & ? & ?). eauto 6.
Qed.

(** X7 ([aggregate_user_damage]).  The aggregator never raises
    [ValueError] or [TypeError]: the only exception that leaves it is the
    [OverflowError] of [float] on an integer too large for a float, in an
    event with a non-empty user.  Without such an integer it returns. *)
Theorem aggregate_user_damage_raises (fos : str -> option float)
    (messages : list msg) :
  (forall e, aggregate_user_damage fos messages = Raise e ->
     e = OverflowError
     /\ exists m, In m messages /\ actor_of m <> None
                  /\ too_large (i_userDamage (get_info m))
                     || too_large (i_bossDamage (get_info m)) = true)
  /\ ((forall m, In m messages ->
         too_large (i_userDamage (get_info m)) = false
         /\ too_large (i_bossDamage (get_info m)) = false) ->
      exists stats, aggregate_user_damage fos messages = Ok stats).
Proof.
  split.
  - intros e. apply damage_loop_Raise.
  - intros Hall.
    destruct (aggregate_user_damage fos messages) as [stats|e] eqn:E; eauto.
    apply damage_loop_Raise in E. destruct E as (_ & m & Hm & _ & T).
    destruct (Hall m Hm) as [T1 T2]. rewrite T1, T2 in T. discriminate.
Qed.

(** X8 ([aggregate_user_damage]).  An event without a user, or with the
    empty string as user, is skipped before its damage fields are read:
    deleting it changes neither the result nor the exception, whatever
    the fields hold. *)
Theorem aggregate_user_damage_skips_anonymous (fos : str -> option float)
    (m : msg) (l1 l2 : list msg) :
  actor_of m = None ->
  aggregate_user_damage fos (l1 ++ m :: l2)
  = aggregate_user_damage fos (l1 ++ l2).
Proof.
  intros H. unfold aggregate_user_damage. rewrite !damage_loop_app.
  destruct (damage_loop fos [] l1) as [s1|e]; simpl; [|reflexivity].
  unfold damage_step. unfold actor_of in H. rewrite H. reflexivity.
Qed.

Lemma aggregate_user_damage_skips_anonymous_witness :
  aggregate_user_damage (fun _ => None)
    ([dmg alice 1]
     ++ damage_event [] (Some (VInt (2 ^ 2000))) None :: [dmg bob 2])
  = aggregate_user_damage (fun _ => None) ([dmg alice 1] ++ [dmg bob 2]).
Proof.
  apply (aggregate_user_damage_skips_anonymous (fun _ => None)).
  reflexivity.
Defined.

Lemma aggregate_user_damage_raises_witness :
  exists stats,
    aggregate_user_damage (fun _ => None) [dmg alice 1; dmg bob 2] = Ok stats.
Proof.
  apply (proj2 (aggregate_user_damage_raises (fun _ => None)
                  [dmg alice 1; dmg bob 2])).
  intros m [<-|[<-|[]]]; split; reflexivity.
Defined.

(** ** The skill aggregator: integer sums *)

Lemma skill_step_cast (ios : str -> option Z) (skills : dict Z) (m : msg) :
  skill_step ios skills m
  = match cast_of ios m with
    | None => Ok skills
    | Some (u, Ok n) =>
        Ok (dict_update (dict_setdefault skills u 0%Z) u (fun c => (c + n)%Z))
    | Some (_, Raise e) => Raise e
    end.
Proof.
  unfold skill_step, cast_of, skill_actor_of, is_skill, actor_of.
  destruct (opt_str_eqb (i_type (get_info m)) spell_cast_party); simpl; auto.
  destruct (truthy_user (i_user (get_info m))); reflexivity.
Qed.

Lemma count_of_cast (skills : dict Z) (u : str) (n : Z) (k : str) :
  count_of (dict_update (dict_setdefault skills u 0%Z) u (fun c => (c + n)%Z)) k
  = if str_eqb u k then (count_of skills k + n)%Z else count_of skills k.
Proof.
  unfold count_of. destruct (str_eqb u k) eqn:E.
  - apply str_eqb_eq in E. subst k.
    rewrite dict_get_update_same, dict_get_setdefault_same. reflexivity.
  - apply str_eqb_neq in E.
    rewrite dict_get_update_other, dict_get_setdefault_other by auto.
    reflexivity.
Qed.

Lemma mem_cast (skills : dict Z) (u : str) (n : Z) (k : str) :
  dict_mem (dict_update (dict_setdefault skills u 0%Z) u (fun c => (c + n)%Z)) k
  = dict_mem skills k || str_eqb u k.
Proof.
  apply eq_true_iff_eq. rewrite orb_true_iff, !dict_mem_In, str_eqb_eq.
  rewrite keys_update, keys_setdefault.
  destruct (dict_mem skills u) eqn:M.
  - apply dict_mem_In in M. split; auto. intros [?| <-]; auto.
  - rewrite in_app_iff. simpl. tauto.
Qed.

Lemma skill_loop_fails (ios : str -> option Z) (messages : list msg) :
  forall skills, cast_fails ios messages = true ->
    exists e, skill_loop ios skills messages = Raise e.
Proof.
  induction messages as [|m ms IH]; intros skills F; simpl in *;
    [discriminate|].
  rewrite skill_step_cast.
  destruct (cast_of ios m) as [[u [n|e]]|]; simpl in *; eauto.
Qed.

Lemma skill_loop_totals (ios : str -> option Z) (messages : list msg) :
  forall skills, cast_fails ios messages = false ->
    exists skills',
      skill_loop ios skills messages = Ok skills'
      /\ forall k,
           count_of skills' k
           = (count_of skills k + zsum (cast_values ios k messages))%Z
           /\ dict_mem skills' k = dict_mem skills k || cast_seen k messages.
Proof.
  induction messages as [|m ms IH]; intros skills F; simpl in *.
  - exists skills. split; auto. intros k.
    rewrite orb_false_r. split; [lia|reflexivity].
  - rewrite skill_step_cast. unfold cast_of in *.
    destruct (skill_actor_of m) as [u|]; simpl in *.
    + destruct (py_int ios (get_times (get_info m))) as [n|e]; simpl in *;
        [|discriminate].
      destruct (IH (dict_update (dict_setdefault skills u 0%Z) u
                      (fun c => (c + n)%Z)) F) as (s & E & H).
      exists s. split; auto. intros k. destruct (H k) as [H1 H2].
      rewrite H1, H2, count_of_cast, mem_cast.
      unfold zsum. rewrite fold_right_app. fold zsum.
      destruct (str_eqb u k); simpl; rewrite ?orb_false_r, ?orb_true_r;
        split; auto; try lia.
    + destruct (IH skills F) as (s & E & H). exists s. split; auto.
Qed.

Lemma dict_get_count_mem (skills : dict Z) (u : str) :
  dict_get skills u
  = if dict_mem skills u then Some (count_of skills u) else None.
Proof. unfold dict_mem, count_of. now destruct (dict_get skills u). Qed.

Lemma skill_totals (ios : str -> option Z)
    (messages : list msg) (skills : dict Z) :
  aggregate_team_skills ios messages = Ok skills ->
  forall u,
    dict_get skills u
    = if cast_seen u messages
      then Some (zsum (cast_values ios u messages))
      else None.
Proof.
  unfold aggregate_team_skills. intros E u.
  destruct (cast_fails ios messages) eqn:F.
  - destruct (skill_loop_fails ios messages [] F) as [e E']. congruence.
  - destruct (skill_loop_totals ios messages [] F) as (s & E' & H).
    assert (s = skills) by congruence. subst s.
    destruct (H u) as [H1 H2].
    rewrite dict_get_count_mem, H1, H2. reflexivity.
Qed.

(** X9 ([aggregate_team_skills]).  When the aggregator returns, the count
    of a caster is the exact integer sum of [int(times)] over its
    [spell_cast_party] events, [times] being 1 where the key is absent;
    a name without such an event has no entry. *)
Theorem aggregate_team_skills_totals (ios : str -> option Z)
    (messages : list msg) (skills : dict Z) :
  aggregate_team_skills ios messages = Ok skills ->
  forall u,
    dict_get skills u
    = if cast_seen u messages
      then Some (zsum (cast_values ios u messages))
      else None.
Proof. apply skill_totals. Qed.

Lemma aggregate_team_skills_totals_witness :
  dict_get [(alice, 4%Z); (bob, 2%Z)] alice
  = if cast_seen alice
         [skill_event alice (Some (VInt 3)); skill_event bob (Some (VInt 2));
          skill_event alice None]
    then Some (zsum (cast_values (fun _ => None) alice
                       [skill_event alice (Some (VInt 3));
                        skill_event bob (Some (VInt 2));
                        skill_event alice None]))
    else None.
Proof.
  apply (aggregate_team_skills_totals (fun _ => None)).
  reflexivity.
Defined.

Lemma zsum_Permutation (l l' : list Z) :
  Permutation l l' -> zsum l = zsum l'.
Proof. induction 1; simpl; lia. Qed.

Lemma aggregate_team_skills_raises (ios : str -> option Z)
    (messages : list msg) :
  (exists e, aggregate_team_skills ios messages = Raise e)
  <-> cast_fails ios messages = true.
Proof.
  unfold aggregate_team_skills. split.
  - intros (e & E). destruct (cast_fails ios messages) eqn:F; auto.
    destruct (skill_loop_totals ios messages [] F) as (s & E' & _).
    congruence.
  - apply skill_loop_fails.
Qed.

(** X10 ([aggregate_team_skills]).  The skill counts do not depend on
    the order of the events: two orderings of the same events raise
    together or give every name the same count (integer addition, unlike
    the float totals of the damage aggregator). *)
Theorem aggregate_team_skills_order_free (ios : str -> option Z)
    (l1 l2 : list msg) :
  Permutation l1 l2 ->
  ((exists e, aggregate_team_skills ios l1 = Raise e)
   <-> (exists e, aggregate_team_skills ios l2 = Raise e))
  /\ forall s1 s2,
       aggregate_team_skills ios l1 = Ok s1 ->
       aggregate_team_skills ios l2 = Ok s2 ->
       forall u, dict_get s1 u = dict_get s2 u.
Proof.
  intros P. split.
  - rewrite !aggregate_team_skills_raises. unfold cast_fails.
    now rewrite (existsb_Permutation _ l1 l2 P).
  - intros s1 s2 E1 E2 u.
    rewrite (skill_totals ios l1 s1 E1 u),
            (skill_totals ios l2 s2 E2 u).
    unfold cast_seen. rewrite (existsb_Permutation _ l1 l2 P).
    destruct (existsb _ l2); [|reflexivity].
    f_equal. apply zsum_Permutation.
    unfold cast_values. now apply Permutation_flat_map.
Qed.

Lemma aggregate_team_skills_order_free_witness :
  dict_get [(alice, 4%Z); (bob, 2%Z)] alice
  = dict_get [(bob, 2%Z); (alice, 4%Z)] alice.
Proof.
  apply (proj2 (aggregate_team_skills_order_free (fun _ => None)
                  [skill_event alice (Some (VInt 3));
                   skill_event bob (Some (VInt 2)); skill_event alice None]
                  [skill_event bob (Some (VInt 2)); skill_event alice None;
                   skill_event alice (Some (VInt 3))]
                  (Permutation_cons_append _ _))
           [(alice, 4%Z); (bob, 2%Z)] [(bob, 2%Z); (alice, 4%Z)]);
    reflexivity.
Defined.

(** X11 ([aggregate_team_skills]).  The aggregator raises exactly when
    some [spell_cast_party] event with a non-empty user has a [times]
    that [int] rejects; nothing is caught, so the exception of the first
    such event leaves the function. *)
Theorem aggregate_team_skills_raises_iff (ios : str -> option Z)
    (messages : list msg) :
  ((exists e, aggregate_team_skills ios messages = Raise e)
   <-> exists m u e,
         In m messages /\ skill_actor_of m = Some u
         /\ py_int ios (get_times (get_info m)) = Raise e)
  /\ forall l1 m l2 u e,
       messages = l1 ++ m :: l2 ->
       cast_fails ios l1 = false ->
       skill_actor_of m = Some u ->
       py_int ios (get_times (get_info m)) = Raise e ->
       aggregate_team_skills ios messages = Raise e.
Proof.
  split.
  - rewrite aggregate_team_skills_raises. unfold cast_fails.
    rewrite existsb_exists. unfold cast_of. split.
    + intros (m & Hm & H).
      destruct (skill_actor_of m) as [u|] eqn:A; [|discriminate].
      destruct (py_int ios (get_times (get_info m))) as [n|e] eqn:E;
        [discriminate|].
      exists m, u, e. auto.
    + intros (m & u & e & Hm & A & E). exists m. split; auto.
      now rewrite A, E.
  - intros l1 m l2 u e -> F A E. unfold aggregate_team_skills.
    rewrite skill_loop_for_each,
      (for_each_app (skill_step ios) l1 (m :: l2)),
      <- skill_loop_for_each.
    destruct (skill_loop_totals ios l1 [] F) as (s & -> & _). simpl.
    rewrite skill_step_cast. unfold cast_of. now rewrite A, E.
Qed.

Lemma aggregate_team_skills_raises_iff_witness :
  aggregate_team_skills (fun _ => None)
    [skill_event alice None; skill_event bob (Some (VStr (lit "x")));
     skill_event alice (Some (VList []))]
  = Raise ValueError.
Proof.
  apply (proj2 (aggregate_team_skills_raises_iff (fun _ => None) _)
           [skill_event alice None] (skill_event bob (Some (VStr (lit "x"))))
           [skill_event alice (Some (VList []))] bob ValueError);
    reflexivity.
Defined.

(** ** The report: how many entries, which ones, in what order *)





Lemma before_firstn_inv {A : Type} (n : nat) (x y : A) (l : list A) :
  before x y (firstn n l) -> before x y l.
Proof.
  intros H. rewrite <- (firstn_skipn n l). now apply before_app_l.
Qed.

Lemma before_slice_inv {A : Type} (n : Z) (x y : A) (l : list A) :
  before x y (slice_to n l) -> before x y l.
Proof.
  destruct (slice_to_firstn n l) as [k ->]. apply before_firstn_inv.
Qed.

Section Ranked.

Context {A K : Type}.
Variables (key : A -> K) (lt : K -> K -> bool).

Lemma slice_sorted_selection (n : Z) (l : list A) :
  exists rest,
    Permutation (slice_to n (sorted_reverse key lt l) ++ rest) l
    /\ ((Z.of_nat (List.length l) <= n)%Z -> rest = []).
Proof.
  pose proof (sorted_reverse_Permutation key lt l) as P.
  unfold slice_to. destruct (0 <=? n)%Z eqn:E.
  - exists (skipn (Z.to_nat n) (sorted_reverse key lt l)).
    rewrite firstn_skipn. split; [exact P|].
    intros Hn. apply skipn_all2.
    rewrite (Permutation_length P). lia.
  - exists (skipn (List.length (sorted_reverse key lt l) - Z.to_nat (- n))
              (sorted_reverse key lt l)).
    rewrite firstn_skipn. split; [exact P|].
    apply Z.leb_gt in E. lia.
Qed.

Variable good : A -> Prop.
Hypothesis lt_irrefl : forall k, lt k k = false.
Hypothesis lt_trans :
  forall a b c, lt a b = true -> lt b c = true -> lt a c = true.
Hypothesis lt_total :
  forall x y z, good x -> good y -> good z ->
    lt (key x) (key y) = false -> lt (key y) (key z) = false ->
    lt (key x) (key z) = false.

Lemma slice_sorted_descending (n : Z) (l : list A) :
  (forall y, In y l -> good y) ->
  descending key lt (slice_to n (sorted_reverse key lt l)).
Proof.
  intros G x y H.
  apply (sorted_reverse_descending key lt good lt_irrefl lt_trans lt_total
           l G).
  now apply before_slice_inv in H.
Qed.

End Ranked.

Lemma SFltb_false_leb (a b : spec_float) :
  SFeqb a a = true -> SFeqb b b = true ->
  SFltb a b = false -> SFleb b a = true.
Proof.
  unfold SFltb, SFleb, SFeqb, SFcompare.
  destruct a as [sa|sa| |sa ma ea], b as [sb|sb| |sb mb eb];
    try destruct sa; try destruct sb; simpl; try congruence;
    repeat match goal with
           | |- context [Pos.compare_cont Eq ?x ?y] =>
               change (Pos.compare_cont Eq x y) with (Pos.compare x y)
           end;
    repeat match goal with
           | |- context [Z.compare ?x ?y] => destruct (Z.compare_spec x y)
           | |- context [Pos.compare ?x ?y] => destruct (Pos.compare_spec x y)
           end; simpl; try congruence; try lia.
Qed.

Lemma float_ltb_false_leb (a b : float) :
  is_nan a = false -> is_nan b = false ->
  PrimFloat.ltb a b = false -> PrimFloat.leb b a = true.
Proof.
  unfold is_nan. rewrite !negb_false_iff, !eqb_spec, ltb_spec, leb_spec.
  apply SFltb_false_leb.
Qed.

(** X13 ([generate_markdown_report]).  Every ranking is in descending
    order of its metric: when no total is a NaN, an entry that stands
    above another has at least its damage dealt, damage taken or skill
    count. *)
Theorem rankings_descending (user_stats : dict dstat) (team_skills : dict Z)
    (top_n : Z) :
  (forall k st, In (k, st) user_stats ->
     is_nan (userDamage st) = false /\ is_nan (bossDamage st) = false) ->
  (forall u v su sv,
     before (u, su) (v, sv) (top_user_damage user_stats top_n) ->
     PrimFloat.leb (userDamage sv) (userDamage su) = true)
  /\ (forall u v su sv,
        before (u, su) (v, sv) (top_boss_damage user_stats top_n) ->
        PrimFloat.leb (bossDamage sv) (bossDamage su) = true)
  /\ forall u v cu cv,
       before (u, cu) (v, cv) (slice_to top_n (sorted_skills team_skills)) ->
       (cv <= cu)%Z.
Proof.
  intros Hnan. split; [|split].
  - intros u v su sv H.
    pose proof (before_In _ _ _ H) as [Iu Iv].
    apply (in_slice_sorted _ _) in Iu, Iv.
    apply float_ltb_false_leb;
      [apply (Hnan u su Iu) | apply (Hnan v sv Iv) |].
    apply (slice_sorted_descending (fun x : str * dstat => userDamage (snd x))
             PrimFloat.ltb (fun x => is_nan (userDamage (snd x)) = false)
             float_ltb_irrefl float_ltb_trans
             (fun x y z => float_ltb_total _ _ _) top_n user_stats
             (fun x => match x with (k, st) => fun I => proj1 (Hnan k st I) end)
             (u, su) (v, sv) H).
  - intros u v su sv H.
    pose proof (before_In _ _ _ H) as [Iu Iv].
    apply (in_slice_sorted _ _) in Iu, Iv.
    apply float_ltb_false_leb;
      [apply (Hnan u su Iu) | apply (Hnan v sv Iv) |].
    apply (slice_sorted_descending (fun x : str * dstat => bossDamage (snd x))
             PrimFloat.ltb (fun x => is_nan (bossDamage (snd x)) = false)
             float_ltb_irrefl float_ltb_trans
             (fun x y z => float_ltb_total _ _ _) top_n user_stats
             (fun x => match x with (k, st) => fun I => proj2 (Hnan k st I) end)
             (u, su) (v, sv) H).
  - intros u v cu cv H.
    apply (slice_sorted_descending (fun x : str * Z => snd x) Z.ltb
             (fun _ => True) Z.ltb_irrefl Z_ltb_trans
             (fun x y z _ _ _ => Z_ltb_total _ _ _) top_n team_skills
             (fun _ _ => I)) in H.
    simpl in H. apply Z.ltb_ge in H. exact H.
Qed.

Lemma rankings_descending_witness :
  PrimFloat.leb (userDamage (mkStat 1 7)) (userDamage (mkStat 2 3)) = true.
Proof.
  apply (proj1 (rankings_descending
                  [(alice, mkStat 1 7); (bob, mkStat 2 3)] [] 5%Z
                  ltac:(intros k st [E|[E|[]]];
                        apply (f_equal snd) in E; simpl in E; subst st;
                        split; reflexivity))
           bob alice).
  exists [], [], []. reflexivity.
Defined.

(** X14 ([generate_markdown_report]).  A ranking is a selection of the
    entries of the aggregate: together with the entries it leaves out it
    is a rearrangement of the dictionary, so no entry is invented or
    shown twice; with [top_n] at least the number of entries nothing is
    left out. *)
Theorem rankings_select (user_stats : dict dstat) (team_skills : dict Z)
    (top_n : Z) :
  (exists rest,
     Permutation (top_user_damage user_stats top_n ++ rest) user_stats
     /\ ((Z.of_nat (List.length user_stats) <= top_n)%Z -> rest = []))
  /\ (exists rest,
        Permutation (top_boss_damage user_stats top_n ++ rest) user_stats
        /\ ((Z.of_nat (List.length user_stats) <= top_n)%Z -> rest = []))
  /\ (exists rest,
        Permutation (slice_to top_n (sorted_skills team_skills) ++ rest)
          team_skills
        /\ ((Z.of_nat (List.length team_skills) <= top_n)%Z -> rest = [])).
Proof.
  split; [|split].
  - apply slice_sorted_selection.
  - apply slice_sorted_selection.
  - apply slice_sorted_selection.
Qed.



(** ** The section merge: a later body, exceptions, and what the result
    always holds *)

Lemma scan_scan_two (b1 b2 d : str) :
  contains next_header (NL :: b1) = false ->
  scan (emit_section b2) (scan (emit_trimmed b1) d) = scan (emit_section b2) d.
Proof.
  intros C.
  induction d as [| s m r M IH | c s M IH] using scan_ind.
  - reflexivity.
  - rewrite (scan_match (emit_trimmed b1) s m r M).
    rewrite (scan_match (emit_section b2) s m r M).
    assert (R : r = [] \/ starts_with next_header r = true).
    { apply match_here_Some in M. destruct M as (u & _ & _ & L).
      apply (lazy_span_rest _ _ _ L). }
    unfold emit_trimmed, emit_section at 2.
    destruct R as [-> | R].
    + rewrite !scan_nil, !app_nil_r.
      rewrite (scan_match _ _ _ _ (section_trimmed_span b1 C)).
      rewrite scan_nil, app_nil_r. reflexivity.
    + destruct r as [|x r]; [discriminate|].
      rewrite (scan_match (emit_section b2) _ (section_of b1)
                 (scan (emit_trimmed b1) (x :: r))).
      * rewrite IH. reflexivity.
      * apply section_span; auto. right.
        apply scan_next_header; auto. apply emit_trimmed_header.
  - rewrite (scan_cons (emit_trimmed b1) c s M).
    rewrite (scan_cons (emit_section b2) c s M).
    rewrite scan_cons.
    + rewrite IH. reflexivity.
    + apply match_here_None.
      change (c :: scan (emit_trimmed b1) s)
        with ([c] ++ scan (emit_trimmed b1) s).
      rewrite (scan_header_test (emit_trimmed b1) (emit_trimmed_header b1)
                 s [c]) by discriminate.
      apply match_here_None, M.
Qed.

Lemma scan_text_section (d s out : str) (emit : str -> str -> str) :
  re_search d = false -> d <> [] ->
  scan emit s = out ->
  scan emit (d ++ [NL; NL] ++ s) = d ++ [NL; NL] ++ out.
Proof.
  intros F N E. rewrite !(app_assoc d).
  rewrite scan_text, E; auto.
  intros j L. rewrite length_app in L. simpl in L.
  rewrite <- app_assoc. cbn [app].
  destruct (Nat.le_gt_cases j (List.length d)) as [Lj|Lj].
  - rewrite skipn_app.
    replace (j - List.length d)%nat with 0%nat by lia.
    cbn [skipn].
    destruct (Nat.le_gt_cases (List.length podium_header)
                (List.length (skipn j d))) as [Lh|Lh].
    + rewrite (starts_with_local podium_header _ _ []) by exact Lh.
      rewrite app_nil_r. apply re_search_false_no_start, F.
    + apply starts_with_across; [apply header_no_NL | exact Lh].
  - rewrite skipn_app, skipn_all2 by lia.
    replace (j - List.length d)%nat with 1%nat by lia.
    reflexivity.
Qed.

Lemma scan_with_section_two (d b1 b2 : str) :
  re_search d = false ->
  contains next_header (NL :: b1) = false ->
  scan (emit_section b2) (with_section d (section_trimmed b1))
  = with_section d (section_of b2).
Proof.
  intros F C.
  assert (E : scan (emit_section b2) (section_trimmed b1) = section_of b2).
  { rewrite (scan_match _ _ _ _ (section_trimmed_span b1 C)).
    rewrite scan_nil. apply app_nil_r. }
  destruct d as [|c d]; [exact E|].
  cbn [with_section]. apply scan_text_section; auto. discriminate.
Qed.

Lemma replace_then_replace (description podium_md1 podium_md2 : str) :
  body_ok (strip podium_md1) ->
  no_backslash (strip podium_md2) = true ->
  exists r1 r12 r2,
    replace_podium_section description podium_md1 = Ok r1
    /\ replace_podium_section r1 podium_md2 = Ok r12
    /\ replace_podium_section description podium_md2 = Ok r2
    /\ strip r12 = strip r2
    /\ (re_search (strip description) = true -> r12 = r2).
Proof.
  intros (B1 & C1) B2.
  set (b1 := strip podium_md1) in *.
  set (b2 := strip podium_md2) in *.
  set (d := strip description).
  assert (Tb1 : trimmed b1) by apply strip_trimmed.
  assert (Tb2 : trimmed b2) by apply strip_trimmed.
  assert (Td : trimmed d) by apply strip_trimmed.
  destruct (re_search d) eqn:F.
  - exists (scan (emit_section b1) d), (scan (emit_section b2) d),
           (scan (emit_section b2) d).
    split; [apply replace_found; auto|].
    split; [|split; [apply replace_found; auto|split; auto]].
    rewrite replace_found; fold b2; auto.
    + rewrite strip_scan, scan_scan_two; auto.
    + rewrite strip_scan by auto.
      apply re_search_scan; auto. apply emit_trimmed_header.
  - exists (d ++ [NL; NL] ++ section_of b1 ++ [NL]),
           (with_section d (section_of b2)),
           (d ++ [NL; NL] ++ section_of b2 ++ [NL]).
    assert (S1 : strip (d ++ [NL; NL] ++ section_of b1 ++ [NL])
                 = with_section d (section_trimmed b1))
      by (apply strip_with_section; auto).
    split; [|split; [|split; [|split]]].
    + unfold replace_podium_section. fold d. rewrite F.
      rewrite (rstrip_trimmed d Td). reflexivity.
    + rewrite replace_found; fold b2; auto.
      * rewrite S1, scan_with_section_two; auto.
      * rewrite S1. apply re_search_with_section.
    + unfold replace_podium_section. fold d. rewrite F.
      rewrite (rstrip_trimmed d Td). reflexivity.
    + rewrite strip_with_section_of, strip_with_section; auto.
    + discriminate.
Qed.

(** X16 ([replace_podium_section]).  The last body wins: merging a body
    and then a second one gives, up to surrounding white space, what
    merging the second one alone gives, and exactly that when the
    description already had a podium section.  Nothing of the first body
    is left behind. *)
Theorem merge_last_wins (description podium_md1 podium_md2 : str) :
  body_ok (strip podium_md1) ->
  no_backslash (strip podium_md2) = true ->
  exists r1 r12 r2,
    replace_podium_section description podium_md1 = Ok r1
    /\ replace_podium_section r1 podium_md2 = Ok r12
    /\ replace_podium_section description podium_md2 = Ok r2
    /\ strip r12 = strip r2
    /\ (re_search (strip description) = true -> r12 = r2).
Proof. apply replace_then_replace. Qed.

Lemma merge_last_wins_witness :
  exists r1 r12 r2,
    replace_podium_section doc_with_podium (lit "first") = Ok r1
    /\ replace_podium_section r1 (lit "second") = Ok r12
    /\ replace_podium_section doc_with_podium (lit "second") = Ok r2
    /\ strip r12 = strip r2
    /\ (re_search (strip doc_with_podium) = true -> r12 = r2).
Proof.
  apply (merge_last_wins doc_with_podium (lit "first") (lit "second")).
  - split; reflexivity.
  - reflexivity.
Defined.

(** X17 ([replace_podium_section]).  The merge can raise only where it
    replaces a section with a body that holds a backslash: a description
    without the podium header gets the section appended whatever the
    body is, and a body without a backslash is merged into every
    description. *)
Theorem merge_raises_only_on_escape (description podium_md : str) :
  (re_search (strip description) = false ->
   replace_podium_section description podium_md
   = Ok (strip description ++ [NL; NL] ++ new_podium_section podium_md
         ++ [NL]))
  /\ (no_backslash (strip podium_md) = true ->
      exists r, replace_podium_section description podium_md = Ok r)
  /\ (forall e, replace_podium_section description podium_md = Raise e ->
        re_search (strip description) = true
        /\ no_backslash (strip podium_md) = false).
Proof.
  assert (A : re_search (strip description) = false ->
              replace_podium_section description podium_md
              = Ok (strip description ++ [NL; NL]
                    ++ new_podium_section podium_md ++ [NL])).
  { intros F. unfold replace_podium_section. rewrite F.
    rewrite (rstrip_trimmed _ (strip_trimmed description)). reflexivity. }
  assert (B : no_backslash (strip podium_md) = true ->
              exists r, replace_podium_section description podium_md = Ok r).
  { intros N. destruct (re_search (strip description)) eqn:F.
    - eexists. apply replace_found; auto.
    - eexists. apply A. reflexivity. }
  split; [exact A|]. split; [exact B|].
  intros e E. split.
  - destruct (re_search (strip description)) eqn:F; [reflexivity|].
    rewrite (A eq_refl) in E. discriminate.
  - destruct (no_backslash (strip podium_md)) eqn:N; [|reflexivity].
    destruct (B eq_refl) as [r R]. rewrite R in E. discriminate.
Qed.

Lemma merge_raises_only_on_escape_witness :
  exists r, replace_podium_section doc_with_podium (lit "new") = Ok r.
Proof.
  apply (proj1 (proj2 (merge_raises_only_on_escape doc_with_podium
                         (lit "new")))).
  reflexivity.
Defined.

(** The same body, with a backslash before a letter that is no escape:
    appended to a description without a podium, rejected where one is
    replaced.  A reference to a group name that the pattern does not
    have is rejected with another exception. *)
Example merge_bad_escape :
  replace_podium_section doc_with_podium (lit "a\qb") = Raise ReError
  /\ replace_podium_section (lit "intro") (lit "a\qb")
     = Ok (lit "intro" ++ [NL; NL] ++ podium_header ++ [NL; NL] ++ lit "a\qb"
           ++ [NL; NL])
  /\ replace_podium_section doc_with_podium (lit "a\g<foo>b")
     = Raise IndexError.
Proof. repeat split; reflexivity. Qed.

Lemma re_search_true_inv (s : str) :
  re_search s = true -> exists a b, s = a ++ podium_header ++ b.
Proof.
  induction s as [|c s IH]; rewrite re_search_unfold.
  - discriminate.
  - destruct (match_here (c :: s)) as [[m r]|] eqn:M.
    + intros _. apply match_here_Some in M.
      destruct M as (u & E & _). exists [], (u ++ r). exact E.
    + intros H. destruct (IH H) as (a & b & ->).
      exists (c :: a), b. reflexivity.
Qed.

Lemma rstrip_header (b : str) :
  exists b', rstrip (podium_header ++ b) = podium_header ++ b'.
Proof.
  destruct (rstrip b) as [|x y] eqn:E.
  - exists []. rewrite rstrip_app_space by exact E.
    rewrite app_nil_r. reflexivity.
  - exists (rstrip b). apply rstrip_app_nonempty. rewrite E. discriminate.
Qed.

Lemma re_search_strip (s : str) :
  re_search s = true -> re_search (strip s) = true.
Proof.
  intros H. destruct (re_search_true_inv s H) as (a & b & ->).
  destruct (rstrip_header b) as [b' Eb].
  unfold strip. rewrite rstrip_app_nonempty, Eb.
  - destruct (lstrip a) as [|x y] eqn:Ea.
    + rewrite lstrip_app_space by exact Ea.
      change (lstrip (podium_header ++ b')) with (podium_header ++ b').
      apply (re_search_app []).
    + rewrite lstrip_app_nonempty by (rewrite Ea; discriminate).
      apply re_search_app.
  - rewrite Eb. discriminate.
Qed.

Lemma parse_template_prefix (p : str) :
  forall n rest t,
    no_backslash p = true -> (List.length p < n)%nat ->
    parse_template_fuel n (p ++ rest) = Ok t ->
    exists t', t = map TLit p ++ t'.
Proof.
  induction p as [|c p IH]; intros n rest t B L E.
  - exists t. reflexivity.
  - destruct n as [|f]; [simpl in L; lia|].
    simpl in B. apply andb_true_iff in B. destruct B as [Bc Bp].
    cbn [parse_template_fuel app] in E. rewrite Bc in E.
    unfold add_lit in E.
    destruct (parse_template_fuel f (p ++ rest)) as [t0|e] eqn:E0;
      [|discriminate].
    simpl in E.
    destruct (IH f rest t0 Bp ltac:(simpl in L; lia) E0) as [t' ->].
    exists t'. simpl. congruence.
Qed.

Lemma expand_app (t1 t2 : list titem) (m : str) :
  expand (t1 ++ t2) m = expand t1 m ++ expand t2 m.
Proof. unfold expand. apply flat_map_app. Qed.

Lemma replace_result_header (description podium_md r : str) :
  replace_podium_section description podium_md = Ok r ->
  re_search r = true /\ re_search (strip r) = true /\ r <> [].
Proof.
  intros E.
  assert (H : re_search r = true).
  { unfold replace_podium_section in E.
    destruct (re_search (strip description)) eqn:F.
    - unfold re_sub in E.
      destruct (parse_template (new_podium_section podium_md)) as [t|e] eqn:P;
        [|discriminate].
      pose proof (re_sub_scan _ (strip description) t P) as E'.
      unfold re_sub in E'. rewrite P in E'. simpl in E, E'.
      assert (r = scan (fun m _ => expand t m) (strip description))
        by congruence.
      subst r. apply re_search_scan; [|exact F].
      intros m _.
      destruct (parse_template_prefix podium_header
                  (S (List.length (new_podium_section podium_md)))
                  ([NL; NL] ++ strip podium_md ++ [NL]) t eq_refl)
        as [t' ->].
      + unfold new_podium_section. rewrite length_app. lia.
      + exact P.
      + exists (expand t' m). rewrite expand_app, expand_literal. reflexivity.
    - injection E as <-.
      change (re_search
                (rstrip (strip description) ++ [NL; NL] ++ podium_header
                 ++ ([NL; NL] ++ (strip podium_md ++ [NL]) ++ [NL])) = true).
      rewrite (app_assoc (rstrip (strip description)) [NL; NL]).
      apply re_search_app. }
  split; [exact H|]. split; [now apply re_search_strip|].
  intros ->. discriminate.
Qed.

(** X18 ([replace_podium_section]).  Whenever the merge returns, the
    result holds a podium header, and still does once trimmed: the next
    merge takes the replace path and never appends a second section.
    In particular the result is never empty. *)
Theorem merge_has_section (description podium_md r : str) :
  replace_podium_section description podium_md = Ok r ->
  re_search r = true /\ re_search (strip r) = true /\ r <> [].
Proof. apply replace_result_header. Qed.

Lemma merge_has_section_witness :
  re_search (lit "intro" ++ [NL; NL] ++ podium_header ++ [NL; NL] ++ lit "a"
             ++ [NL; NL]) = true
  /\ re_search (strip (lit "intro" ++ [NL; NL] ++ podium_header ++ [NL; NL]
                       ++ lit "a" ++ [NL; NL])) = true
  /\ lit "intro" ++ [NL; NL] ++ podium_header ++ [NL; NL] ++ lit "a"
     ++ [NL; NL] <> [].
Proof.
  apply (merge_has_section (lit "intro") (lit "a")).
  reflexivity.
Defined.

(** ** [main]: when it updates the group, and when it does not *)

Section MainFacts.

Variables (fos : str -> option float) (ios : str -> option Z)
    (conv : Z -> result datetime)
    .
Variables (ymd ymd_hm : datetime -> str).

Lemma truthy_user_Some (o : option str) (s : str) :
  truthy_user o = Some s -> o = Some s /\ s <> [].
Proof.
  destruct o as [[|c r]|]; simpl; intros H; try discriminate.
  assert (s = c :: r) by congruence. subst s. split; [reflexivity|discriminate].
Qed.

Lemma publish_Update (group : group_info) (full group_id r : str) :
  publish group full = Update group_id r ->
  exists data description,
    group = GroupJson (Some data)
    /\ g_id data = Some group_id /\ group_id <> []
    /\ g_description data = Some description /\ description <> []
    /\ replace_podium_section description full = Ok r
    /\ str_eqb (strip r) (strip description) = false.
Proof.
  unfold publish. destruct group as [|[data|]]; simpl; try discriminate.
  destruct (truthy_user (g_id data)) as [gid|] eqn:Ei; [|discriminate].
  destruct (truthy_user (g_description data)) as [d|] eqn:Ed; [|discriminate].
  destruct (replace_podium_section d full) as [r'|e] eqn:Er; [|discriminate].
  destruct (str_eqb (strip r') (strip d)) eqn:Es; simpl; [discriminate|].
  intros H.
  assert (gid = group_id) by congruence.
  assert (r' = r) by congruence. subst gid r'.
  apply truthy_user_Some in Ei, Ed. destruct Ei as [Ei Ni], Ed as [Ed Nd].
  exists data, d. repeat split; auto.
Qed.

Lemma main_Update (chat : list msg) (now_filter now : datetime)
    (group : group_info) (group_id r : str) :
  main fos ios conv ymd ymd_hm chat now_filter now group = Update group_id r ->
  exists recent full,
    chat <> []
    /\ filter_recent_boss_messages conv now_filter chat 7 = Ok recent
    /\ recent <> []
    /\ podium_of fos ios conv ymd ymd_hm chat recent now = Ok full
    /\ publish group full = Update group_id r.
Proof.
  unfold main. destruct chat as [|m chat]; [discriminate|].
  destruct (filter_recent_boss_messages conv now_filter (m :: chat) 7)
    as [[|x recent]|e]; try discriminate.
  destruct (podium_of fos ios conv ymd ymd_hm (m :: chat) (x :: recent) now)
    as [full|e] eqn:P; [|discriminate].
  intros H. exists (x :: recent), full.
  repeat split; auto; discriminate.
Qed.

End MainFacts.

Lemma truthy_user_nonempty (s : str) :
  s <> [] -> truthy_user (Some s) = Some s.
Proof. destruct s; [congruence|reflexivity]. Qed.

(** X19 ([main]).  [main] calls [update_group_description] only when the
    chat is not empty, some boss-damage event is recent, the group has a
    non-empty id and a non-empty description, and the merged text differs
    from that description once both are trimmed; the text it sends holds
    a podium header. *)
Theorem main_update_sound (fos : str -> option float) (ios : str -> option Z)
    (conv : Z -> result datetime)
    (ymd ymd_hm : datetime -> str) (chat : list msg)
    (now_filter now : datetime) (group : group_info) (group_id r : str) :
  main fos ios conv ymd ymd_hm chat now_filter now group = Update group_id r ->
  chat <> [] /\ group_id <> []
  /\ (exists recent,
        filter_recent_boss_messages conv now_filter chat 7 = Ok recent
        /\ recent <> [])
  /\ (exists data description,
        group = GroupJson (Some data)
        /\ g_id data = Some group_id
        /\ g_description data = Some description /\ description <> []
        /\ strip r <> strip description)
  /\ re_search r = true.
Proof.
  intros H.
  destruct (main_Update fos ios conv ymd ymd_hm chat now_filter now group
              group_id r H) as (recent & full & Hc & Hf & Hr & _ & Hp).
  destruct (publish_Update group full group_id r Hp)
    as (data & d & -> & Hi & Ni & Hd & Nd & Er & Es).
  split; [exact Hc|]. split; [exact Ni|].
  split; [exists recent; auto|].
  split.
  - exists data, d. repeat split; auto.
    apply str_eqb_neq. exact Es.
  - apply (replace_result_header d full r Er).
Qed.

(** A run against the text it has just sent, for a podium that is a
    body of the merge. *)
Lemma main_second_run (fos : str -> option float) (ios : str -> option Z)
    (conv : Z -> result datetime)
    (ymd ymd_hm : datetime -> str) (chat recent : list msg)
    (now_filter now : datetime) (group : group_info) (group_id r full : str)
    (data' : group_data) :
  main fos ios conv ymd ymd_hm chat now_filter now group = Update group_id r ->
  filter_recent_boss_messages conv now_filter chat 7 = Ok recent ->
  podium_of fos ios conv ymd ymd_hm chat recent now = Ok full ->
  body_ok (strip full) ->
  g_id data' = Some group_id -> g_description data' = Some r ->
  main fos ios conv ymd ymd_hm chat now_filter now (GroupJson (Some data'))
  = UpToDate.
Proof.
  intros H Hf Hp B Hi' Hd'.
  destruct (main_Update fos ios conv ymd ymd_hm chat now_filter now group
              group_id r H) as (recent0 & full0 & Hc & Hf0 & Hr & Hp0 & Hpub).
  assert (recent0 = recent) by congruence. subst recent0.
  assert (full0 = full) by congruence. subst full0.
  destruct (publish_Update group full group_id r Hpub)
    as (data & d & _ & _ & Ni & _ & _ & Er & _).
  destruct (replace_result_header d full r Er) as (_ & _ & Nr).
  destruct (replace_then_replace d full full B (proj1 B))
    as (r1 & r12 & r2 & E1 & E12 & E2 & Es & _).
  assert (r1 = r) by congruence.
  assert (r2 = r) by congruence.
  subst r1 r2.
  unfold main. destruct chat as [|m chat]; [congruence|].
  rewrite Hf. destruct recent as [|x recent]; [congruence|].
  rewrite Hp. unfold publish, get_data.
  rewrite Hi', Hd', (truthy_user_nonempty _ Ni), (truthy_user_nonempty _ Nr).
  rewrite E12, Es, str_eqb_refl. reflexivity.
Qed.

Lemma main_update_sound_witness :
  example_chat <> [] /\ lit "g1" <> []
  /\ (exists recent,
        filter_recent_boss_messages (fixed_offset 0) 0%Z example_chat 7
        = Ok recent
        /\ recent <> [])
  /\ (exists data description,
        example_group = GroupJson (Some data)
        /\ g_id data = Some (lit "g1")
        /\ g_description data = Some description /\ description <> []
        /\ strip example_description <> strip description)
  /\ re_search example_description = true.
Proof.
  apply (main_update_sound (fun _ => None) (fun _ => None)
           (fixed_offset 0)
           (fun _ => lit "1970-01-01") (fun _ => lit "1970-01-01 00:00")
           example_chat 0%Z 0%Z example_group (lit "g1") example_description).
  vm_compute. reflexivity.
Defined.




Lemma filter_no_kind (conv : Z -> result datetime)
    (kind : str) (since : datetime)
    (chat : list msg) :
  (forall m, In m chat -> has_kind kind m = false) ->
  filter_since conv kind since chat = Ok [].
Proof.
  intros H. induction chat as [|m ms IH]; [reflexivity|].
  cbn [filter_since]. unfold selected.
  pose proof (H m (or_introl eq_refl)) as Hm. unfold has_kind in Hm.
  rewrite Hm. simpl. rewrite IH; [reflexivity|].
  intros m' Hm'. apply H. now right.
Qed.

(** X21 ([main]).  Without a boss-damage event there is no report: a
    non-empty chat that holds no event of type [boss_damage] ends the run
    with the message for no recent boss messages.  The skill events are
    not read, so the run neither raises on their timestamps nor touches
    the group. *)
Theorem main_without_boss_events (fos : str -> option float)
    (ios : str -> option Z) (conv : Z -> result datetime)
    (ymd ymd_hm : datetime -> str)
    (chat : list msg) (now_filter now since : datetime)
    (group : group_info) :
  chat <> [] ->
  (forall m, In m chat -> has_kind boss_damage m = false) ->
  minus_days now_filter 7 = Ok since ->
  main fos ios conv ymd ymd_hm chat now_filter now group = NoBossMessages.
Proof.
  intros Hc Hk Hs. unfold main, filter_recent_boss_messages.
  destruct chat as [|m chat]; [congruence|].
  rewrite Hs. cbn [bind].
  rewrite (filter_no_kind conv boss_damage since (m :: chat) Hk).
  reflexivity.
Qed.

Lemma main_without_boss_events_witness :
  main (fun _ => None) (fun _ => None)
           (fixed_offset 0) (fun _ => []) (fun _ => [])
    [untimed spell_cast_party] 0%Z 0%Z GroupFailed
  = NoBossMessages.
Proof.
  apply (main_without_boss_events (fun _ => None) (fun _ => None)
           (fixed_offset 0)
           (fun _ => []) (fun _ => []) [untimed spell_cast_party] 0%Z 0%Z
           (-604800000000)%Z GroupFailed).
  - discriminate.
  - intros m [<-|[]]. reflexivity.
  - reflexivity.
Defined.

(** ** [print_console_report] *)

Lemma ljust_length (w : nat) (s : str) :
  List.length (ljust w s) = Nat.max w (List.length s).
Proof. unfold ljust. rewrite length_app, repeat_length. lia. Qed.

Lemma rjust_length (w : nat) (s : str) :
  List.length (rjust w s) = Nat.max w (List.length s).
Proof. unfold rjust. rewrite length_app, repeat_length. lia. Qed.

(** X22 ([print_console_report]).  The console table has three heading
    lines, one row for every entry of the aggregate (not only the first
    five) and a closing line; the rows are in the order of the
    damage-dealt ranking of the report, which is their first [top_n]. *)
Theorem console_table_rows (user_stats : dict dstat) :
  List.length (print_console_report user_stats) = 4 + List.length user_stats
  /\ Permutation (console_order user_stats) user_stats
  /\ (forall i x,
        nth_error (console_order user_stats) i = Some x ->
        nth_error (print_console_report user_stats) (3 + i)
        = Some (console_row x))
  /\ forall top_n,
       top_user_damage user_stats top_n
       = slice_to top_n (console_order user_stats).
Proof.
  assert (P : Permutation (console_order user_stats) user_stats)
    by apply (sorted_reverse_Permutation _ PrimFloat.ltb).
  split; [|split; [exact P|split]].
  - unfold print_console_report.
    rewrite !length_app, length_map, (Permutation_length P).
    cbn [List.length]. lia.
  - intros i x H. unfold print_console_report.
    cbn [app nth_error Nat.add].
    rewrite nth_error_app1
      by (rewrite length_map; apply nth_error_Some; congruence).
    now rewrite nth_error_map, H.
  - reflexivity.
Qed.

Lemma console_table_rows_witness :
  nth_error (print_console_report [(alice, mkStat 1 7); (bob, mkStat 2 3)])
    (3 + 0)
  = Some (console_row (bob, mkStat 2 3)).
Proof.
  apply (proj1 (proj2 (proj2 (console_table_rows
                                [(alice, mkStat 1 7); (bob, mkStat 2 3)])))).
  reflexivity.
Defined.

(** X23 ([print_console_report]).  A row is the name padded on the right
    to 25 characters and each total padded on the left to 15.  Nothing is
    cut: a row has at least the 55 characters of the header, and more
    when the name or a number is wider than its
    column. *)
Theorem console_row_width (user : str) (stats : dstat) :
  List.length (console_row (user, stats))
  = Nat.max 25 (List.length user)
    + Nat.max 15 (List.length (format_1f (userDamage stats)))
    + Nat.max 15 (List.length (format_1f (bossDamage stats)))
  /\ 55 <= List.length (console_row (user, stats))
  /\ List.length console_header = 55
  /\ exists rest, console_row (user, stats) = user ++ rest.
Proof.
  assert (E : List.length (console_row (user, stats))
              = Nat.max 25 (List.length user)
                + Nat.max 15 (List.length (format_1f (userDamage stats)))
                + Nat.max 15 (List.length (format_1f (bossDamage stats)))).
  { unfold console_row.
    rewrite !length_app, ljust_length, !rjust_length. lia. }
  split; [exact E|]. split; [lia|]. split; [reflexivity|].
  unfold console_row, ljust. rewrite <- app_assoc. eauto.
Qed.

(** ** The rendered podium as a body of the merge *)

Lemma clean_app (a b : str) : clean (a ++ b) = clean a && clean b.
Proof. apply forallb_app. Qed.

Lemma clean_no_backslash (s : str) : clean s = true -> no_backslash s = true.
Proof.
  unfold clean, no_backslash. rewrite !forallb_forall.
  intros H c Hc. apply H in Hc. apply andb_true_iff in Hc. tauto.
Qed.

Lemma numeric_clean (s : str) : numeric s = true -> clean s = true.
Proof.
  unfold numeric, clean. rewrite !forallb_forall.
  intros H c Hc. apply H in Hc. unfold is_digit, NL, BACKSLASH in *.
  apply orb_true_iff in Hc. destruct Hc as [Hc|Hc].
  - apply andb_true_iff in Hc. destruct Hc as [H1 H2].
    apply N.leb_le in H1, H2.
    apply andb_true_iff. split; apply negb_true_iff, N.eqb_neq; lia.
  - apply N.eqb_eq in Hc. subst c. reflexivity.
Qed.

Lemma numeric_app (a b : str) : numeric (a ++ b) = numeric a && numeric b.
Proof. apply forallb_app. Qed.

Lemma numeric_uint (d : Decimal.uint) :
  numeric (lit (NilEmpty.string_of_uint d)) = true.
Proof. induction d; simpl; auto. Qed.

Lemma numeric_nilzero (d : Decimal.uint) :
  numeric (lit (NilZero.string_of_uint d)) = true
  /\ lit (NilZero.string_of_uint d) <> [].
Proof.
  unfold NilZero.string_of_uint.
  destruct d; (split; [try reflexivity; apply numeric_uint
                      | simpl; discriminate]).
Qed.

Lemma numeric_str_of_Z (n : Z) :
  numeric (str_of_Z n) = true /\ str_of_Z n <> [].
Proof.
  unfold str_of_Z, NilZero.string_of_int.
  destruct (Z.to_int n) as [d|d].
  - apply numeric_nilzero.
  - split; [|simpl; discriminate].
    change (numeric (45%N :: lit (NilZero.string_of_uint d)) = true).
    simpl. apply numeric_nilzero.
Qed.

Lemma clean_str_of_Z (n : Z) : clean (str_of_Z n) = true.
Proof. apply numeric_clean, numeric_str_of_Z. Qed.

Lemma clean_format_1f (f : float) : clean (format_1f f) = true.
Proof.
  unfold format_1f.
  destruct (Prim2SF f) as [s|s| |s m e]; try (destruct s; reflexivity);
    try reflexivity.
  rewrite !clean_app, !clean_str_of_Z. now destruct s.
Qed.

Lemma numbered_line_ok (i : Z) (rest : str) :
  clean rest = true -> line_ok (str_of_Z i ++ rest).
Proof.
  intros C. split.
  - now rewrite clean_app, clean_str_of_Z.
  - destruct (numeric_str_of_Z i) as [Hn Hne].
    destruct (str_of_Z i) as [|c r]; [congruence|].
    simpl in Hn. apply andb_true_iff in Hn. destruct Hn as [Hc _].
    cbn [app]. change (lit "## ") with (35%N :: lit "# ").
    cbn [starts_with].
    replace (35 =? c)%N with false; [reflexivity|].
    symmetry. apply N.eqb_neq. intros <-. discriminate.
Qed.

Lemma in_enumerate {A : Type} (l : list A) :
  forall k i x, In (i, x) (enumerate k l) -> In x l.
Proof.
  induction l as [|y l IH]; simpl; intros k i x H; [exact H|].
  destruct H as [H|H]; [left; congruence|right; eauto].
Qed.

Lemma dealt_line_ok (i : Z) (user : str) (stats : dstat) :
  clean user = true -> line_ok (dealt_line (i, (user, stats))).
Proof.
  intros C. unfold dealt_line. apply numbered_line_ok.
  rewrite !clean_app, C, clean_format_1f. reflexivity.
Qed.

Lemma taken_line_ok (i : Z) (user : str) (stats : dstat) :
  clean user = true -> line_ok (taken_line (i, (user, stats))).
Proof.
  intros C. unfold taken_line. apply numbered_line_ok.
  rewrite !clean_app, C, clean_format_1f. reflexivity.
Qed.

Lemma skill_line_ok (i : Z) (user : str) (count : Z) :
  clean user = true -> line_ok (skill_line (i, (user, count))).
Proof.
  intros C. unfold skill_line. apply numbered_line_ok.
  rewrite !clean_app, C, clean_str_of_Z. reflexivity.
Qed.

Lemma ranked_lines_ok {V : Type} (line : Z * (str * V) -> str)
    (ranked d : dict V) (k : Z) :
  (forall i u v, clean u = true -> line_ok (line (i, (u, v)))) ->
  (forall x, In x ranked -> In x d) ->
  clean_names d ->
  forall l, In l (map line (enumerate k ranked)) -> line_ok l.
Proof.
  intros Hl Hin Hc l H. apply in_map_iff in H.
  destruct H as ([i [u v]] & <- & H).
  apply in_enumerate in H. apply Hl. apply (Hc u v). now apply Hin.
Qed.

Lemma report_lines_ok (ymd : datetime -> str) (user_stats : dict dstat)
    (period_start period_end : datetime) (top_n : Z)
    (team_skills : option (dict Z)) :
  (forall t, clean (ymd t) = true) ->
  clean_names user_stats ->
  (forall skills, team_skills = Some skills -> clean_names skills) ->
  forall l,
    In l (report_lines ymd user_stats period_start period_end top_n
            team_skills) ->
    line_ok l.
Proof.
  intros Hy Hu Hs l. unfold report_lines.
  rewrite !in_app_iff. intros [H|[H|[H|[H|H]]]].
  - destruct H as [<-|[<-|[<-|[<-|[]]]]]; try (split; reflexivity).
    split; [|reflexivity].
    unfold period_line. rewrite !clean_app, !Hy. reflexivity.
  - revert l H. apply (ranked_lines_ok dealt_line _ user_stats);
      auto using dealt_line_ok.
    intros x. apply (in_slice_sorted _ _).
  - destruct H as [<-|[<-|[]]]; split; reflexivity.
  - revert l H. apply (ranked_lines_ok taken_line _ user_stats);
      auto using taken_line_ok.
    intros x. apply (in_slice_sorted _ _).
  - destruct team_skills as [[|p skills]|]; try contradiction.
    apply in_app_iff in H. destruct H as [H|H].
    + destruct H as [<-|[<-|[]]]; split; reflexivity.
    + revert l H. apply (ranked_lines_ok skill_line _ (p :: skills));
        auto using skill_line_ok.
      intros x. apply (in_slice_sorted _ _).
Qed.

Lemma no_backslash_join_lines (lines : list str) :
  (forall l, In l lines -> clean l = true) ->
  no_backslash (join_lines lines) = true.
Proof.
  induction lines as [|l ls IH]; intros H; [reflexivity|].
  assert (Hl : no_backslash l = true)
    by (apply clean_no_backslash, H; now left).
  destruct ls as [|l2 ls]; [exact Hl|].
  change (join_lines (l :: l2 :: ls)) with (l ++ NL :: join_lines (l2 :: ls)).
  rewrite no_backslash_app, Hl.
  change (NL :: join_lines (l2 :: ls)) with ([NL] ++ join_lines (l2 :: ls)).
  rewrite no_backslash_app, IH; [reflexivity|].
  intros l' Hl'. apply H. now right.
Qed.

Lemma clean_head (c : char) (s : str) :
  clean (c :: s) = true -> (NL =? c)%N = false /\ clean s = true.
Proof.
  simpl. intros H. apply andb_true_iff in H. destruct H as [H1 H2].
  apply andb_true_iff in H1. destruct H1 as [H1 _].
  apply negb_true_iff in H1. rewrite N.eqb_sym in H1. auto.
Qed.

Lemma contains_next_header_clean (l : str) :
  clean l = true -> contains next_header l = false.
Proof.
  induction l as [|c l IH]; intros C; [reflexivity|].
  apply clean_head in C. destruct C as [Hc Cl].
  cbn [contains]. rewrite (IH Cl), orb_false_r.
  unfold next_header. cbn [starts_with]. now rewrite Hc.
Qed.

Lemma contains_next_header_line (l rest : str) :
  clean l = true ->
  contains next_header (l ++ NL :: rest)
  = starts_with (lit "## ") rest || contains next_header rest.
Proof.
  induction l as [|c l IH]; intros C.
  - cbn [app contains]. unfold next_header at 1. cbn [starts_with].
    now rewrite N.eqb_refl.
  - apply clean_head in C. destruct C as [Hc Cl].
    cbn [app contains]. rewrite (IH Cl).
    unfold next_header at 1. cbn [starts_with]. now rewrite Hc.
Qed.

Lemma starts_with_line (p l rest : str) :
  ~ In NL p -> starts_with p l = false ->
  starts_with p (l ++ NL :: rest) = false.
Proof.
  intros Hp H.
  destruct (Nat.le_gt_cases (List.length p) (List.length l)) as [L|L].
  - rewrite (starts_with_local p l _ []) by exact L.
    now rewrite app_nil_r.
  - now apply starts_with_across.
Qed.

Lemma join_lines_head (l : str) (ls : list str) :
  starts_with (lit "## ") l = false ->
  starts_with (lit "## ") (join_lines (l :: ls)) = false.
Proof.
  intros H. destruct ls as [|l2 ls]; [exact H|].
  change (join_lines (l :: l2 :: ls)) with (l ++ NL :: join_lines (l2 :: ls)).
  apply starts_with_line; [|exact H].
  simpl. unfold NL. intros [E|[E|[E|[]]]]; discriminate.
Qed.

Lemma join_lines_no_header (lines : list str) :
  (forall l, In l lines -> line_ok l) ->
  contains next_header (join_lines lines) = false.
Proof.
  induction lines as [|l ls IH]; intros H; [reflexivity|].
  destruct (H l (or_introl eq_refl)) as [Cl _].
  destruct ls as [|l2 ls]; [now apply contains_next_header_clean|].
  change (join_lines (l :: l2 :: ls)) with (l ++ NL :: join_lines (l2 :: ls)).
  rewrite (contains_next_header_line l _ Cl).
  rewrite join_lines_head, IH; auto.
  - intros l' Hl'. apply H. now right.
  - apply (H l2). right. now left.
Qed.

Lemma join_lines_app (a b : list str) :
  a <> [] -> b <> [] ->
  join_lines (a ++ b) = join_lines a ++ NL :: join_lines b.
Proof.
  intros Ha Hb. induction a as [|x a IH]; [congruence|].
  destruct a as [|y a].
  - destruct b as [|z b]; [congruence|]. reflexivity.
  - change (join_lines ((x :: y :: a) ++ b))
      with (x ++ NL :: join_lines ((y :: a) ++ b)).
    rewrite IH by discriminate.
    change (join_lines (x :: y :: a)) with (x ++ NL :: join_lines (y :: a)).
    now rewrite <- app_assoc.
Qed.

Lemma full_podium_md_lines (ymd_hm : datetime -> str) (lines : list str)
    (now : datetime) :
  lines <> [] ->
  full_podium_md ymd_hm (join_lines lines) now
  = join_lines (podium_lines ymd_hm lines now).
Proof.
  intros H. unfold podium_lines, full_podium_md.
  rewrite join_lines_app by (auto; discriminate).
  cbn [join_lines app]. reflexivity.
Qed.

Lemma strip_framed (c : char) (body : str) :
  isspace c = false ->
  strip (NL :: c :: body ++ lit "---") = c :: body ++ lit "---".
Proof.
  intros Hc. unfold strip.
  change (NL :: c :: body ++ lit "---")
    with ((NL :: c :: body) ++ lit "---").
  rewrite rstrip_app_nonempty by (vm_compute; discriminate).
  change (rstrip (lit "---")) with (lit "---").
  cbn [app lstrip]. change (isspace NL) with true. cbn iota.
  now rewrite Hc.
Qed.

Lemma frame_text (x y k : str) :
  (NL :: 42%N :: x) ++ [NL; NL] ++ y ++ [NL; NL] ++ k
  = NL :: 42%N :: (x ++ [NL; NL] ++ y ++ [NL; NL]) ++ k.
Proof.
  cbn [app]. do 2 f_equal.
  rewrite <- !app_assoc. cbn [app].
  do 3 f_equal. rewrite <- app_assoc. reflexivity.
Qed.

Section Podium.

Variables (ymd ymd_hm : datetime -> str).
Variables (user_stats : dict dstat) (period_start period_end : datetime).
Variables (top_n : Z) (team_skills : option (dict Z)) (now : datetime).

Hypothesis ymd_clean : forall t, clean (ymd t) = true.
Hypothesis ymd_hm_clean : clean (ymd_hm now) = true.
Hypothesis users_clean : clean_names user_stats.
Hypothesis casters_clean :
  forall skills, team_skills = Some skills -> clean_names skills.

Lemma podium_lines_ok (l : str) :
  In l (podium_lines ymd_hm
          (report_lines ymd user_stats period_start period_end top_n
             team_skills) now) ->
  line_ok l.
Proof.
  unfold podium_lines. rewrite in_app_iff. intros [H|H].
  - revert H. now apply report_lines_ok.
  - destruct H as [<-|[<-|[<-|[<-|[]]]]]; try (split; reflexivity).
    split; [|reflexivity].
    unfold last_updated. rewrite !clean_app, ymd_hm_clean. reflexivity.
Qed.

Lemma podium_framed :
  exists body,
    full_podium_md ymd_hm
      (generate_markdown_report ymd user_stats period_start period_end top_n
         team_skills) now
    = NL :: 42%N :: body ++ lit "---".
Proof.
  assert (H : exists x,
             generate_markdown_report ymd user_stats period_start period_end
               top_n team_skills = NL :: 42%N :: x).
  { unfold generate_markdown_report, report_lines.
    cbn [app join_lines]. unfold period_line.
    change (lit "**Period:** ") with (42%N :: lit "*Period:** ").
    cbn [app]. eexists. reflexivity. }
  destruct H as [x ->]. unfold full_podium_md.
  eexists. apply frame_text.
Qed.

End Podium.

Lemma podium_is_body (ymd ymd_hm : datetime -> str)
    (user_stats : dict dstat) (period_start period_end : datetime)
    (top_n : Z) (team_skills : option (dict Z)) (now : datetime) :
  (forall t, clean (ymd t) = true) ->
  clean (ymd_hm now) = true ->
  clean_names user_stats ->
  (forall skills, team_skills = Some skills -> clean_names skills) ->
  let lines := podium_lines ymd_hm
                 (report_lines ymd user_stats period_start period_end top_n
                    team_skills) now in
  let full := full_podium_md ymd_hm
                (generate_markdown_report ymd user_stats period_start
                   period_end top_n team_skills) now in
  full = join_lines lines
  /\ (forall l, In l lines -> line_ok l)
  /\ body_ok (strip full).
Proof.
  intros Hy Hh Hu Hs lines full.
  assert (E : full = join_lines lines).
  { apply full_podium_md_lines. unfold report_lines. discriminate. }
  assert (L : forall l, In l lines -> line_ok l)
    by (intros l; now apply podium_lines_ok).
  split; [exact E|]. split; [exact L|].
  destruct (podium_framed ymd ymd_hm user_stats period_start period_end top_n
              team_skills now) as [body F].
  fold full in F.
  assert (B : no_backslash full = true).
  { rewrite E. apply no_backslash_join_lines. intros l Hl. apply (L l Hl). }
  assert (C : contains next_header full = false)
    by (rewrite E; now apply join_lines_no_header).
  rewrite F in B, C |- *.
  rewrite strip_framed by reflexivity.
  split; [exact B | exact C].
Qed.

(** X24 ([generate_markdown_report], [main]).  The podium that [main]
    renders is the report, the time of the update and a rule, one line
    each.  When no name and no formatted date holds a line feed or a
    backslash, no line of it is a second-level header and none has an
    escape for [re.sub]: trimmed, it is a body that the merge replaces
    again without residue. *)
Theorem podium_body_ok (ymd ymd_hm : datetime -> str)
    (user_stats : dict dstat) (period_start period_end : datetime)
    (top_n : Z) (team_skills : option (dict Z)) (now : datetime) :
  (forall t, clean (ymd t) = true) ->
  clean (ymd_hm now) = true ->
  clean_names user_stats ->
  (forall skills, team_skills = Some skills -> clean_names skills) ->
  let lines := podium_lines ymd_hm
                 (report_lines ymd user_stats period_start period_end top_n
                    team_skills) now in
  let full := full_podium_md ymd_hm
                (generate_markdown_report ymd user_stats period_start
                   period_end top_n team_skills) now in
  full = join_lines lines
  /\ (forall l, In l lines -> line_ok l)
  /\ body_ok (strip full).
Proof. apply podium_is_body. Qed.

Lemma podium_body_ok_witness :
  body_ok (strip
             (full_podium_md (fun _ => lit "1970-01-01 00:00")
                (generate_markdown_report (fun _ => lit "1970-01-01")
                   [(alice, mkStat 10 0)] 0%Z 0%Z 5%Z (Some [(bob, 1%Z)]))
                0%Z)).
Proof.
  apply (podium_body_ok (fun _ => lit "1970-01-01")
           (fun _ => lit "1970-01-01 00:00") [(alice, mkStat 10 0)]
           0%Z 0%Z 5%Z (Some [(bob, 1%Z)]) 0%Z).
  - reflexivity.
  - reflexivity.
  - intros k v [E|[]]. apply (f_equal fst) in E. simpl in E. now subst k.
  - intros skills E k v H.
    assert (skills = [(bob, 1%Z)]) by congruence. subst skills.
    destruct H as [E'|[]]. apply (f_equal fst) in E'. simpl in E'.
    now subst k.
Defined.

Lemma damage_entry_actor (fos : str -> option float) (messages : list msg)
    (stats : dict dstat) (k : str) (v : dstat) :
  aggregate_user_damage fos messages = Ok stats -> In (k, v) stats ->
  exists m, In m messages /\ actor_of m = Some k.
Proof.
  unfold aggregate_user_damage. rewrite damage_loop_for_each. intros E H.
  apply (in_map fst) in H.
  apply (for_each_keys_In (damage_step fos) actor_of (damage_step_keys fos)
           messages [] stats k E) in H.
  destruct H as [[]|H]. exact H.
Qed.

Lemma skill_entry_actor (ios : str -> option Z) (messages : list msg)
    (skills : dict Z) (k : str) (v : Z) :
  aggregate_team_skills ios messages = Ok skills -> In (k, v) skills ->
  exists m, In m messages /\ actor_of m = Some k.
Proof.
  unfold aggregate_team_skills. rewrite skill_loop_for_each. intros E H.
  apply (in_map fst) in H.
  apply (for_each_keys_In (skill_step ios) skill_actor_of
           (skill_step_keys ios) messages [] skills k E) in H.
  destruct H as [[]|(m & Hm & A)]. exists m. split; [exact Hm|].
  unfold skill_actor_of in A. now destruct (is_skill m).
Qed.

Lemma filter_since_incl (conv : Z -> result datetime)
    (kind : str) (since : datetime)
    (chat sel : list msg) (m : msg) :
  filter_since conv kind since chat = Ok sel -> In m sel -> In m chat.
Proof.
  intros E H. apply filter_since_Ok in E. destruct E as [-> _].
  apply filter_In in H. tauto.
Qed.

(** X25 ([main]).  A run settles the description.  When no user name of
    the chat and no formatted date holds a line feed or a backslash, and
    a run sends the text [r], the same run against the group whose
    description is now [r] finds the podium up to date and sends
    nothing. *)
Theorem main_settles (fos : str -> option float) (ios : str -> option Z)
    (conv : Z -> result datetime)
    (ymd ymd_hm : datetime -> str) (chat : list msg)
    (now_filter now : datetime) (group : group_info) (group_id r : str)
    (data' : group_data) :
  (forall m u, In m chat -> actor_of m = Some u -> clean u = true) ->
  (forall t, clean (ymd t) = true) ->
  clean (ymd_hm now) = true ->
  main fos ios conv ymd ymd_hm chat now_filter now group = Update group_id r ->
  g_id data' = Some group_id -> g_description data' = Some r ->
  main fos ios conv ymd ymd_hm chat now_filter now (GroupJson (Some data'))
  = UpToDate.
Proof.
  intros Hn Hy Hh H Hi Hd.
  destruct (main_Update fos ios conv ymd ymd_hm chat now_filter now group
              group_id r H) as (recent & full & _ & Hf & _ & Hp & _).
  apply (main_second_run fos ios conv ymd ymd_hm chat recent now_filter now
           group group_id r full data'); auto.
  unfold podium_of in Hp.
  destruct (aggregate_user_damage fos recent) as [user_stats|] eqn:Eu;
    [|discriminate].
  cbn [bind] in Hp.
  destruct (minus_days now 7) as [since|]; [|discriminate].
  cbn [bind] in Hp.
  destruct (recent_skill_msgs conv since chat) as [skill_msgs|] eqn:Em;
    [|discriminate].
  cbn [bind] in Hp.
  destruct (aggregate_team_skills ios skill_msgs) as [team_skills|] eqn:Es;
    [|discriminate].
  cbn [bind] in Hp.
  assert (full = full_podium_md ymd_hm
                   (generate_markdown_report ymd user_stats since now 5
                      (Some team_skills)) now) by congruence.
  subst full.
  apply podium_is_body; auto.
  - intros k v Hk.
    destruct (damage_entry_actor fos recent user_stats k v Eu Hk)
      as (m & Hm & A).
    apply (Hn m k); [|exact A].
    unfold filter_recent_boss_messages in Hf.
    destruct (minus_days now_filter 7) as [s|]; [|discriminate].
    apply (filter_since_incl conv boss_damage s chat recent m Hf Hm).
  - intros skills E k v Hk.
    assert (skills = team_skills) by congruence. subst skills.
    destruct (skill_entry_actor ios skill_msgs team_skills k v Es Hk)
      as (m & Hm & A).
    apply (Hn m k); [|exact A].
    apply (filter_since_incl conv spell_cast_party since chat skill_msgs m
             Em Hm).
Qed.

Lemma main_settles_witness :
  example_main
    (GroupJson (Some (mkGroup (Some (lit "g1")) (Some example_description))))
  = UpToDate.
Proof.
  apply (main_settles (fun _ => None) (fun _ => None)
           (fixed_offset 0)
           (fun _ => lit "1970-01-01") (fun _ => lit "1970-01-01 00:00")
           example_chat 0%Z 0%Z example_group (lit "g1") example_description).
  - intros m u [<-|[<-|[]]] A; vm_compute in A; injection A as <-;
      reflexivity.
  - reflexivity.
  - reflexivity.
  - vm_compute. reflexivity.
  - reflexivity.
  - reflexivity.
Defined.
